(** * The bulk import pipeline of gpuinfo.net ([scripts/import-data.ts])

    A shallow embedding of the helpers, the batcher, the wave runner, the
    streaming reader, the extension upsert with its coverage rows, and the
    per-report transformation and the inserts of the device importer, with
    the properties its specification states and further properties of the
    code.

    Conventions.
    - A JavaScript string is the list of its UTF-16 code units ([jsstring]).
    - A JavaScript number that the script uses as an index, a size or an id
      is an integer ([Z]); the result of [parseFloat] is a double, given by
      its exact rational value, [NaN] or an infinity ([JsNumber]).
    - A promise is an identifier with a state in a store; the event loop is
      a transition function over the events the environment can produce. *)

From Stdlib Require Import ZArith List Bool Lia QArith Qreduction Qpower Qround
  Qabs Lqa.
From stdpp Require Import base gmap strings list.
Import ListNotations.

Set Default Proof Using "Type".
Local Open Scope Z_scope.

(** Splits the conjunctions of the goal, and nothing under a binder. *)
Ltac split_conj := repeat match goal with |- _ /\ _ => split end.

(** ** Arrays *)

Module JsArray.
Section Slice.
Context {T : Type}.

(** [Array.prototype.slice(start, end)] on integer arguments: a negative
    index counts from the end, both are clamped to [0, length]. *)
Definition clamp_index (len k : Z) : Z :=
  if k <? 0 then Z.max (len + k) 0 else Z.min k len.

Definition slice (arr : list T) (start stop : Z) : list T :=
  let len := Z.of_nat (length arr) in
  let k := clamp_index len start in
  let fin := clamp_index len stop in
  firstn (Z.to_nat (fin - k)) (skipn (Z.to_nat k) arr).

End Slice.
End JsArray.

(** ** The batcher: [chunk] *)

Module Chunk.
Import JsArray.
Section Chunk.
Context {T : Type}.

(** The [for] loop of [chunk]: [i] is the loop variable, [chunks] the
    accumulator.  The loop has no bound of its own, so the embedding
    counts iterations: [None] means the budget ran out. *)
Fixpoint chunk_loop (fuel : nat) (arr : list T) (size i : Z)
    (chunks : list (list T)) : option (list (list T)) :=
  match fuel with
  | O => None
  | S fuel' =>
      if i <? Z.of_nat (length arr)
      then chunk_loop fuel' arr size (i + size)
             (chunks ++ [slice arr i (i + size)])
      else Some chunks
  end.

Definition chunk_fuel (fuel : nat) (arr : list T) (size : Z)
    : option (list (list T)) :=
  chunk_loop fuel arr size 0 [].

(** One more iteration than there are elements is enough whenever the
    loop terminates at all; this is the [chunk] the callers use. *)
Definition chunk (arr : list T) (size : Z) : option (list (list T)) :=
  chunk_fuel (S (length arr)) arr size.

(** Every group but the last has exactly [n] elements. *)
Definition full_but_last (n : Z) (cs : list (list T)) : Prop :=
  forall k : nat, (S k < length cs)%nat ->
    Z.of_nat (length (nth k cs [])) = n.

Definition groups_ok (n : Z) (cs : list (list T)) : Prop :=
  full_but_last n cs /\
  Forall (fun c => c <> [] /\ Z.of_nat (length c) <= n) cs.
End Chunk.
End Chunk.

(** ** Strings and the sanitizer/mapper helpers *)

Module JsString.
(** A string is the sequence of its UTF-16 code units. *)
Definition jsstring : Type := list N.

(** An ASCII literal as a JavaScript string. *)
Definition lit (s : string) : jsstring :=
  map Ascii.N_of_ascii (String.list_ascii_of_string s).

(** An argument of type [string | null | undefined]. *)
Inductive MaybeString : Type :=
| SNull
| SUndefined
| SStr (s : jsstring).

(** [!str]: [null], [undefined] and the empty string are falsy. *)
Definition falsy (str : MaybeString) : bool :=
  match str with
  | SStr (_ :: _) => false
  | _ => true
  end.

(** WhiteSpace and LineTerminator code units, as removed by [trim]. *)
Definition is_space (c : N) : bool :=
  ((9 <=? c) && (c <=? 13) || (c =? 32) || (c =? 160) || (c =? 0x1680)
   || (0x2000 <=? c) && (c <=? 0x200A)
   || (c =? 0x2028) || (c =? 0x2029) || (c =? 0x202F) || (c =? 0x205F)
   || (c =? 0x3000) || (c =? 0xFEFF))%N.

Fixpoint trimStart (s : jsstring) : jsstring :=
  match s with
  | c :: s' => if is_space c then trimStart s' else s
  | [] => []
  end.

Definition trimEnd (s : jsstring) : jsstring := rev (trimStart (rev s)).

Definition trim (s : jsstring) : jsstring := trimEnd (trimStart s).

(** A string that does not begin with white space. *)
Definition head_ok (s : jsstring) : Prop :=
  match s with
  | c :: _ => is_space c = false
  | [] => True
  end.

Definition is_digit (c : N) : bool := ((48 <=? c) && (c <=? 57))%N.

Definition digit_value (c : N) : Z := Z.of_N c - 48.

(** The longest prefix of code units satisfying [p], and the rest. *)
Fixpoint span (p : N -> bool) (s : jsstring) : jsstring * jsstring :=
  match s with
  | c :: s' =>
      if p c then let '(run, rest) := span p s' in (c :: run, rest)
      else ([], s)
  | [] => ([], [])
  end.

Definition digits_value (ds : jsstring) : Z :=
  fold_left (fun acc c => acc * 10 + digit_value c) ds 0.
End JsString.

Module Sanitizer.
Import JsString.

(** A Number: [NaN], an infinity, or a double, given by its exact value in
    lowest terms (a negative zero is [Num 0]). *)
Inductive JsNumber : Type :=
| NaN
| Infinity (negative : bool)
| Num (q : Q).

(** [2^e]. *)
Definition pow2 (e : Z) : Q := Qpower (2 # 1) e.

(** The binary exponent of a positive [q]: [2^e <= q < 2^(e+1)]. *)
Definition floor_log2 (q : Q) : Z :=
  let e := Z.log2 (Qnum q) - Z.log2 (Z.pos (Qden q)) in
  if Qle_bool (pow2 e) q then e else e - 1.

(** The nearest integer, the even one of two that are as near. *)
Definition round_half_even (q : Q) : Z :=
  let f := Qfloor q in
  match Qcompare (q - inject_Z f) (1 # 2) with
  | Lt => f
  | Gt => f + 1
  | Eq => if Z.even f then f else f + 1
  end.

(** The exponent of the last place of the double nearest to a positive
    [q]: 53 bits from the leading one, and never below that of the
    subnormals. *)
Definition quantum (q : Q) : Z := Z.max (floor_log2 q - 52) (-1074).

(** [q] in units of the last place, the nearest number of units, and what
    they amount to. *)
Definition scaled (q : Q) : Q := q / pow2 (quantum q).
Definition significand (q : Q) : Z := round_half_even (scaled q).
Definition rounded (q : Q) : Q := inject_Z (significand q) * pow2 (quantum q).

(** The Number value for a real [q >= 0]: the doubles are the [m * 2^u]
    with [m < 2^53] and [-1074 <= u <= 971]; the value is the double
    nearest to [q], the one with the even [m] when two are as near, where
    [2^1024] counts as a double with an even [m] and stands for
    [+Infinity].  (From the 21st significant digit on the language lets an
    engine round less exactly; the engines do not, and nor does this.) *)
Definition to_number (q : Q) : JsNumber :=
  if Qle_bool q 0 then Num 0
  else
    let v := Qred (rounded q) in
    if Qle_bool (pow2 1024) v then Infinity false else Num v.



(** A sign in front of a Number. *)
Definition signed (neg : bool) (n : JsNumber) : JsNumber :=
  match n with
  | NaN => NaN
  | Infinity _ => Infinity neg
  | Num q => Num (if neg then Qred (- q) else q)
  end.

Definition char_plus : N := 43.
Definition char_minus : N := 45.
Definition char_dot : N := 46.
Definition char_lt : N := 60.
Definition char_gt : N := 62.

(** ExponentPart: [e] or [E], an optional sign and at least one digit;
    [0] when there is no complete exponent part. *)
Definition exponent_part (s : jsstring) : Z :=
  match s with
  | c :: s' =>
      if ((c =? 101) || (c =? 69))%N then
        let '(neg, s'') :=
          match s' with
          | d :: t => if (d =? char_minus)%N then (true, t)
                      else if (d =? char_plus)%N then (false, t)
                      else (false, s')
          | [] => (false, s')
          end in
        let '(ds, _) := span is_digit s'' in
        match ds with
        | [] => 0
        | _ => if neg then - digits_value ds else digits_value ds
        end
      else 0
  | [] => 0
  end.

Definition scale (q : Q) (e : Z) : Q := Qred (q * Qpower (10 # 1) e).

(** StrUnsignedDecimalLiteral without [Infinity]: the value of the longest
    prefix [digits [. digits] [exp]] or [. digits [exp]], if there is one. *)
Definition unsigned_decimal (s : jsstring) : option Q :=
  let '(ip, rest) := span is_digit s in
  match rest with
  | c :: rest' =>
      if (c =? char_dot)%N then
        let '(fp, rest'') := span is_digit rest' in
        match ip, fp with
        | [], [] => None
        | _, _ =>
            Some (scale
                    (inject_Z (digits_value ip)
                     + inject_Z (digits_value fp)
                       * Qpower (10 # 1) (- Z.of_nat (length fp)))
                    (exponent_part rest''))
        end
      else
        match ip with
        | [] => None
        | _ => Some (scale (inject_Z (digits_value ip)) (exponent_part rest))
        end
  | [] =>
      match ip with
      | [] => None
      | _ => Some (Qred (inject_Z (digits_value ip)))
      end
  end.

Fixpoint is_prefix (p s : jsstring) : bool :=
  match p, s with
  | [], _ => true
  | a :: p', b :: s' => (a =? b)%N && is_prefix p' s'
  | _ :: _, [] => false
  end.

Definition unsigned_literal (neg : bool) (s : jsstring) : JsNumber :=
  if is_prefix (lit "Infinity") s then Infinity neg
  else match unsigned_decimal s with
       | Some q => signed neg (to_number q)
       | None => NaN
       end.

(** [parseFloat]: leading white space is skipped, then the longest prefix
    that is a StrDecimalLiteral is evaluated, and its decimal value is
    rounded to a Number; [NaN] if there is no such prefix. *)
Definition parseFloat (s : jsstring) : JsNumber :=
  match trimStart s with
  | c :: s' =>
      if (c =? char_minus)%N then unsigned_literal true s'
      else if (c =? char_plus)%N then unsigned_literal false s'
      else unsigned_literal false (c :: s')
  | [] => NaN
  end.

(** The character class [[\d.]]. *)
Definition in_class (c : N) : bool := is_digit c || (c =? char_dot)%N.

(** The pattern [>([\d.]+)<] anchored at the head of [s].  The class does
    not contain [<], so the only run that can be followed by [<] is the
    longest one: backtracking to a shorter run never succeeds. *)
Definition match_here (s : jsstring) : option jsstring :=
  match s with
  | c :: s' =>
      if (c =? char_gt)%N then
        match span in_class s' with
        | ((_ :: _) as run, d :: _) =>
            if (d =? char_lt)%N then Some run else None
        | _ => None
        end
      else None
  | [] => None
  end.

(** [html.match(/>([\d.]+)</)]: the capture group of the leftmost match. *)
Fixpoint regex_match (s : jsstring) : option jsstring :=
  match match_here s with
  | Some run => Some run
  | None =>
      match s with
      | _ :: s' => regex_match s'
      | [] => None
      end
  end.

Definition parseCoverage (html : MaybeString) : JsNumber :=
  match html with
  | SStr ((_ :: _) as s) =>
      match regex_match s with
      | Some run => parseFloat run
      | None => Num 0
      end
  | _ => Num 0
  end.

(** An occurrence of the pattern in [s]: [>], a non-empty run of digits
    and dots, [<]. *)
Definition class_run (run : jsstring) : Prop :=
  run <> [] /\ Forall (fun c => in_class c = true) run.




Definition all_digits (ds : jsstring) : Prop :=
  Forall (fun c => is_digit c = true) ds.

(** What follows the numeral inside a run: nothing, or a further dot. *)
Definition dot_or_end (u : jsstring) : Prop :=
  u = [] \/ exists u', u = char_dot :: u'.

(** The value of the decimal numeral [ds.fs]. *)
Definition decimal_of (ds fs : jsstring) : Q :=
  Qred (inject_Z (digits_value ds)
        + inject_Z (digits_value fs)
          * Qpower (10 # 1) (- Z.of_nat (length fs))).

(** [getPlatform]: the platform of an OS type code. *)
Definition getPlatform (ostype : Z) : string :=
  match ostype with
  | 0 => "windows"
  | 1 => "linux"
  | 2 => "android"
  | 3 => "macos"
  | 4 => "ios"
  | _ => "linux"
  end.

(** The class [[\x00-\x08\x0B\x0C\x0E-\x1F]] that [sanitizeString]
    deletes. *)
Definition is_stripped (c : N) : bool :=
  ((c <=? 8) || (c =? 11) || (c =? 12) || (14 <=? c) && (c <=? 31))%N.

Definition strip (s : jsstring) : jsstring :=
  List.filter (fun c => negb (is_stripped c)) s.

Definition sanitizeString (str : MaybeString) : jsstring :=
  if falsy str then []
  else match str with
       | SStr s => trim (strip s)
       | _ => []
       end.
End Sanitizer.

(** ** The concurrency-limited batch runner: [processBatches] *)

Module ProcessBatches.
Import JsArray Chunk.
Section Runner.
Context {T R E : Type}.

(** How an invocation of the processor settles. *)
Inductive Outcome : Type :=
| Fulfilled (r : R)
| Rejected (e : E).

(** What an observer sees, in order: the processor is called for a batch
    (in the wave with the given number), an invocation settles. *)
Inductive Call : Type :=
| Started (wave : nat) (idx : Z)
| Settled (idx : Z) (o : Outcome).

(** Where the [async] function stands.  While it awaits [Promise.all], each
    slot holds the outcome of one invocation of the wave ([None]: pending)
    and [failure] the first rejection, which is what [Promise.all] rejects
    with.  After the function has thrown, the invocations still pending go
    on settling. *)
Inductive Phase : Type :=
| Fresh
| Awaiting (slots : list (option Outcome)) (failure : option E)
| Returned (rs : list R)
| Threw (e : E) (slots : list (option Outcome)).

Record State : Type := mkState {
  batches : list (list T);
  concurrency : Z;
  i : Z;
  results : list R;
  phase : Phase;
  iter : nat;          (* ghost: the number of waves started *)
  calls : list Call    (* ghost: the observable history *)
}.

(** [processBatches(items, batchSize, concurrency, processor)] before its
    loop: [batches = chunk(items, batchSize)], [results = []]. *)
Definition processBatches (items : list T) (batchSize conc : Z) : option State :=
  match chunk items batchSize with
  | Some bs => Some (mkState bs conc 0 [] Fresh 0 [])
  | None => None
  end.

(** The values of a wave whose invocations are all fulfilled. *)
Fixpoint all_fulfilled (slots : list (option Outcome)) : option (list R) :=
  match slots with
  | [] => Some []
  | Some (Fulfilled r) :: slots' =>
      match all_fulfilled slots' with
      | Some rs => Some (r :: rs)
      | None => None
      end
  | _ => None
  end.

(** The indices [i + idx] that [concurrentBatches.map] passes on. *)
Definition wave_idxs (from : Z) (cb : list (list T)) : list Z :=
  map (fun idx => from + Z.of_nat idx) (seq 0 (length cb)).

(** The loop test and, when it holds, the body up to the [await]: the
    processor is called for every batch of the slice, in order. *)
Definition loop_head (s : State) : State :=
  if i s <? Z.of_nat (length (batches s)) then
    let cb := slice (batches s) (i s) (i s + concurrency s) in
    mkState (batches s) (concurrency s) (i s) (results s)
      (Awaiting (map (fun _ => None) cb) None)
      (S (iter s))
      (calls s ++ map (Started (iter s)) (wave_idxs (i s) cb))
  else
    mkState (batches s) (concurrency s) (i s) (results s)
      (Returned (results s)) (iter s) (calls s).

(** The function runs from where it is suspended to its next [await],
    [return] or [throw]. *)
Definition resume (s : State) : option State :=
  match phase s with
  | Fresh => Some (loop_head s)
  | Awaiting slots None =>
      match all_fulfilled slots with
      | Some rs =>
          Some (loop_head
                  (mkState (batches s) (concurrency s) (i s + concurrency s)
                     (results s ++ rs) (phase s) (iter s) (calls s)))
      | None => None
      end
  | Awaiting slots (Some e) =>
      Some (mkState (batches s) (concurrency s) (i s) (results s)
              (Threw e slots) (iter s) (calls s))
  | Returned _ | Threw _ _ => None
  end.

Definition set_slot (k : nat) (o : Outcome) (slots : list (option Outcome))
    : option (list (option Outcome)) :=
  match nth_error slots k with
  | Some None => Some (firstn k slots ++ Some o :: skipn (S k) slots)
  | _ => None
  end.

Definition first_failure (failure : option E) (o : Outcome) : option E :=
  match failure, o with
  | None, Rejected e => Some e
  | _, _ => failure
  end.

(** The [k]-th invocation of the current wave settles with [o]. *)
Definition settle (k : nat) (o : Outcome) (s : State) : option State :=
  let log := calls s ++ [Settled (i s + Z.of_nat k) o] in
  match phase s with
  | Awaiting slots failure =>
      match set_slot k o slots with
      | Some slots' =>
          Some (mkState (batches s) (concurrency s) (i s) (results s)
                  (Awaiting slots' (first_failure failure o)) (iter s) log)
      | None => None
      end
  | Threw e slots =>
      match set_slot k o slots with
      | Some slots' =>
          Some (mkState (batches s) (concurrency s) (i s) (results s)
                  (Threw e slots') (iter s) log)
      | None => None
      end
  | Fresh | Returned _ => None
  end.

Inductive Event : Type :=
| Resume
| Settle (k : nat) (o : Outcome).

Definition step (ev : Event) (s : State) : option State :=
  match ev with
  | Resume => resume s
  | Settle k o => settle k o s
  end.

(** A run: [None] when an event is not enabled where it stands. *)
Fixpoint run (evs : list Event) (s : State) : option State :=
  match evs with
  | [] => Some s
  | ev :: evs' =>
      match step ev s with
      | Some s' => run evs' s'
      | None => None
      end
  end.

(** The calls of the processor, in order, with their wave numbers. *)
Fixpoint starts (log : list Call) : list (nat * Z) :=
  match log with
  | [] => []
  | Started w j :: log' => (w, j) :: starts log'
  | Settled _ _ :: log' => starts log'
  end.

(** The first rejection among the events of a run. *)
Fixpoint first_rejection (evs : list Event) : option E :=
  match evs with
  | [] => None
  | Settle _ (Rejected e) :: _ => Some e
  | _ :: evs' => first_rejection evs'
  end.

(** The first rejection of the history. *)
Fixpoint first_error (log : list Call) : option E :=
  match log with
  | [] => None
  | Settled _ (Rejected e) :: _ => Some e
  | _ :: log' => first_error log'
  end.

(** Join/barrier: when the processor is called for a batch of wave [w],
    every invocation of an earlier wave has been fulfilled. *)
Definition barrier (log : list Call) : Prop :=
  forall l1 l2 w j w' j',
    log = l1 ++ Started w j :: l2 ->
    In (Started w' j') l1 -> (w' < w)%nat ->
    exists r, In (Settled j' (Fulfilled r)) l1.

(** The wave sizes of a history: how many calls each wave number has. *)
Definition wave_size (log : list Call) (w : nat) : nat :=
  length (List.filter (fun c => Nat.eqb (fst c) w) (starts log)).

(** The calls that [iters] waves over [n] batches make when the limit is
    [c]: wave [w] calls the processor for the batches [w*c], [w*c + 1], ...
    up to [c] of them, as far as there are batches. *)
Definition expected_wave (n c : Z) (w : nat) : list (nat * Z) :=
  map (fun k => (w, Z.of_nat w * c + Z.of_nat k))
      (seq 0 (Z.to_nat (Z.min c (n - Z.of_nat w * c)))).

Definition expected_starts (n c : Z) (iters : nat) : list (nat * Z) :=
  flat_map (expected_wave n c) (seq 0 iters).

(** A rejection has been seen: [Promise.all] has rejected with [e]. *)
Definition failed_with (e : E) (s : State) : Prop :=
  match phase s with
  | Awaiting _ (Some e') | Threw e' _ => e' = e
  | _ => False
  end.

(** The invariant of the runner over [n] batches with the limit [c]. *)
Definition wave_ok (c n : Z) (s : State) (slots : list (option Outcome)) : Prop :=
  (1 <= iter s)%nat /\
  i s = (Z.of_nat (iter s) - 1) * c /\
  0 <= i s < n /\
  (forall w j, In (Started w j) (calls s) -> (S w < iter s)%nat ->
     exists r, In (Settled j (Fulfilled r)) (calls s)) /\
  (forall w j, In (Started w j) (calls s) -> S w = iter s ->
     exists k, j = i s + Z.of_nat k /\ (k < length slots)%nat) /\
  (forall k r, nth_error slots k = Some (Some (Fulfilled r)) ->
     In (Settled (i s + Z.of_nat k) (Fulfilled r)) (calls s)).

(** What the loop head needs of the state it starts from: every call made
    so far has been fulfilled. *)
Definition at_loop_head (c n : Z) (s : State) : Prop :=
  concurrency s = c /\
  Z.of_nat (length (batches s)) = n /\
  barrier (calls s) /\
  starts (calls s) = expected_starts n c (iter s) /\
  (forall w j, In (Started w j) (calls s) ->
     (w < iter s)%nat /\ exists r, In (Settled j (Fulfilled r)) (calls s)) /\
  i s = Z.of_nat (iter s) * c /\
  (iter s = 0%nat \/ (Z.of_nat (iter s) - 1) * c < n) /\
  first_error (calls s) = None.

Definition Inv (c n : Z) (s : State) : Prop :=
  concurrency s = c /\
  Z.of_nat (length (batches s)) = n /\
  barrier (calls s) /\
  starts (calls s) = expected_starts n c (iter s) /\
  (forall w j, In (Started w j) (calls s) -> (w < iter s)%nat) /\
  match phase s with
  | Fresh => iter s = 0%nat /\ i s = 0 /\ first_error (calls s) = None
  | Awaiting slots f => wave_ok c n s slots /\ first_error (calls s) = f
  | Threw e slots => wave_ok c n s slots /\ first_error (calls s) = Some e
  | Returned rs =>
      n <= Z.of_nat (iter s) * c /\
      (iter s = 0%nat \/ (Z.of_nat (iter s) - 1) * c < n) /\
      first_error (calls s) = None
  end.
End Runner.

Arguments Outcome : clear implicits.
Arguments Call : clear implicits.
Arguments Phase : clear implicits.
Arguments State : clear implicits.
Arguments Event : clear implicits.
End ProcessBatches.

(** ** The streaming reader: [streamJsonArray] *)

Module StreamJsonArray.
Section Reader.
Context {T E : Type}.

(** [const CONCURRENCY = 3]. *)
Definition CONCURRENCY : nat := 3.

(** The state of the promise an invocation of the processor returned. *)
Inductive PState : Type :=
| Pending
| Fulfilled
| Rejected (e : E).

(** The promise that [streamJsonArray] returns. *)
Inductive Outer : Type :=
| OPending
| OResolved (n : Z)
| ORejected (e : E).

(** The [async] handler of ['end']: not run yet, suspended at
    [await Promise.all(promises)], returned after [resolve(totalProcessed)],
    or thrown out of the [await]: the rejection of the handler's own promise,
    which nothing observes. *)
Inductive EndState : Type :=
| NotEnded
| EndAwaiting (group : list nat)
| EndReturned
| EndThrew (e : E).

Record State : Type := mkState {
  input : list T;            (* the elements the parser has yet to emit *)
  batchSize : Z;
  batch : list T;
  totalProcessed : Z;
  batchCount : Z;
  promises : list nat;       (* the array [promises], as promise ids *)
  store : list PState;       (* the state of each promise, by id *)
  dispatched : list (list T);(* ghost: the batch of each invocation, by id *)
  waiting : option (list nat);
      (* the group under [Promise.all(...).then(resume).catch(reject)] *)
  paused : bool;
  closed : bool;             (* the stream has emitted ['error'] *)
  ended : EndState;
  outer : Outer
}.

(** [streamJsonArray(filename, batchSize, processor)] right after the call,
    for a file that holds the array [items]: nothing parsed, nothing
    dispatched, the returned promise pending. *)
Definition streamJsonArray (items : list T) (size : Z) : State :=
  mkState items size [] 0 0 [] [] [] None false false NotEnded OPending.

Definition with_reader (s : State) (b : list T) (total count : Z) : State :=
  mkState (input s) (batchSize s) b total count (promises s) (store s)
    (dispatched s) (waiting s) (paused s) (closed s) (ended s) (outer s).

Definition with_input (s : State) (rest : list T) : State :=
  mkState rest (batchSize s) (batch s) (totalProcessed s) (batchCount s)
    (promises s) (store s) (dispatched s) (waiting s) (paused s) (closed s)
    (ended s) (outer s).

Definition with_promises (s : State) (ps : list nat) : State :=
  mkState (input s) (batchSize s) (batch s) (totalProcessed s) (batchCount s)
    ps (store s) (dispatched s) (waiting s) (paused s) (closed s) (ended s)
    (outer s).

Definition with_store (s : State) (st : list PState) : State :=
  mkState (input s) (batchSize s) (batch s) (totalProcessed s) (batchCount s)
    (promises s) st (dispatched s) (waiting s) (paused s) (closed s) (ended s)
    (outer s).

Definition with_flow (s : State) (w : option (list nat)) (p : bool) : State :=
  mkState (input s) (batchSize s) (batch s) (totalProcessed s) (batchCount s)
    (promises s) (store s) (dispatched s) w p (closed s) (ended s) (outer s).

Definition with_closed (s : State) : State :=
  mkState (input s) (batchSize s) (batch s) (totalProcessed s) (batchCount s)
    (promises s) (store s) (dispatched s) (waiting s) (paused s) true
    (ended s) (outer s).

Definition with_ended (s : State) (e : EndState) : State :=
  mkState (input s) (batchSize s) (batch s) (totalProcessed s) (batchCount s)
    (promises s) (store s) (dispatched s) (waiting s) (paused s) (closed s) e
    (outer s).

Definition with_outer (s : State) (o : Outer) : State :=
  mkState (input s) (batchSize s) (batch s) (totalProcessed s) (batchCount s)
    (promises s) (store s) (dispatched s) (waiting s) (paused s) (closed s)
    (ended s) o.

(** [resolve] and [reject] settle the returned promise once. *)
Definition resolve (n : Z) (s : State) : State :=
  match outer s with
  | OPending => with_outer s (OResolved n)
  | _ => s
  end.

Definition reject (e : E) (s : State) : State :=
  match outer s with
  | OPending => with_outer s (ORejected e)
  | _ => s
  end.

Definition pstate (st : list PState) (id : nat) : PState := nth id st Pending.

(** What [Promise.all] over a group does: it rejects with the first member
    (in array order) that is rejected, is fulfilled when all members are,
    and stays pending otherwise. *)
Inductive GroupState : Type :=
| GPending
| GFulfilled
| GRejected (e : E).

Fixpoint group_state (st : list PState) (g : list nat) : GroupState :=
  match g with
  | [] => GFulfilled
  | id :: g' =>
      match pstate st id with
      | Rejected e => GRejected e
      | Fulfilled => group_state st g'
      | Pending =>
          match group_state st g' with
          | GRejected e => GRejected e
          | _ => GPending
          end
      end
  end.

(** [processor(b)]: a new invocation, whose promise enters [promises]. *)
Definition dispatch (b : list T) (s : State) : State :=
  mkState (input s) (batchSize s) (batch s) (totalProcessed s) (batchCount s)
    (promises s ++ [length (store s)]) (store s ++ [Pending])
    (dispatched s ++ [b]) (waiting s) (paused s) (closed s) (ended s)
    (outer s).

(** [pipeline.pause(); Promise.all(g).then(resume).catch(reject)]. *)
Definition watch_group (g : list nat) (s : State) : State :=
  match group_state (store s) g with
  | GRejected e => reject e (with_flow s None true)
  | GFulfilled => with_flow s None false
  | GPending => with_flow s (Some g) true
  end.

(** The handler of ['data'] for the element [v]. *)
Definition on_data (v : T) (s : State) : State :=
  let b := batch s ++ [v] in
  if batchSize s <=? Z.of_nat (length b) then
    let s1 := with_reader s [] (totalProcessed s + Z.of_nat (length b))
                (batchCount s + 1) in
    let s2 :=
      if (CONCURRENCY <=? length (promises s1))%nat then
        watch_group (firstn CONCURRENCY (promises s1))
          (with_promises s1 (skipn CONCURRENCY (promises s1)))
      else s1 in
    dispatch b s2
  else with_reader s b (totalProcessed s) (batchCount s).

(** The handler of ['end'], up to its [await] and, when [Promise.all] is
    settled already, past it. *)
Definition on_end (s : State) : State :=
  let s1 :=
    match batch s with
    | [] => s
    | _ :: _ =>
        let s' := dispatch (batch s) s in
        with_reader s' (batch s')
          (totalProcessed s' + Z.of_nat (length (batch s'))) (batchCount s')
    end in
  match group_state (store s1) (promises s1) with
  | GRejected e => with_ended s1 (EndThrew e)
  | GFulfilled => resolve (totalProcessed s1) (with_ended s1 EndReturned)
  | GPending => with_ended s1 (EndAwaiting (promises s1))
  end.

Definition set_pstate (id : nat) (p : PState) (st : list PState) : list PState :=
  firstn id st ++ p :: skipn (S id) st.

(** The reactions to a settlement: of the group the stream is paused for,
    and of the group the ['end'] handler awaits. *)
Definition react_waiting (s : State) : State :=
  match waiting s with
  | Some g =>
      match group_state (store s) g with
      | GRejected e => reject e (with_flow s None (paused s))
      | GFulfilled => with_flow s None false
      | GPending => s
      end
  | None => s
  end.

Definition react_ended (s : State) : State :=
  match ended s with
  | EndAwaiting g =>
      match group_state (store s) g with
      | GRejected e => with_ended s (EndThrew e)
      | GFulfilled => resolve (totalProcessed s) (with_ended s EndReturned)
      | GPending => s
      end
  | _ => s
  end.

Definition on_settle (id : nat) (p : PState) (s : State) : State :=
  react_ended (react_waiting (with_store s (set_pstate id p (store s)))).

(** What the environment does: the stream the handlers listen to (the
    last one of the pipe, [StreamArray]) emits an element, the end of the
    array or an error; an invocation of the processor settles.
    [StreamArray] emits ['error'] when the first token of the file does not
    open an array, and at no other time.  [pipe] forwards no error: an
    error of the file stream or of the parser reaches no listener of the
    function, and the runs of the model are those without one. *)
Inductive Event : Type :=
| Data
| End_
| Error (e : E)
| Settle (id : nat) (ok : option E).   (* [None]: fulfilled *)

Definition flowing (s : State) : bool :=
  negb (paused s) && negb (closed s) &&
  match ended s with NotEnded => true | _ => false end.

(** Nothing has been read and there is no element to read: where
    [StreamArray] stands when it looks at the first token of the file. *)
Definition at_first_token (s : State) : bool :=
  match input s, batch s, dispatched s with
  | [], [], [] => true
  | _, _, _ => false
  end.

Definition step (ev : Event) (s : State) : option State :=
  match ev with
  | Data =>
      match input s with
      | v :: rest =>
          if flowing s then Some (on_data v (with_input s rest)) else None
      | [] => None
      end
  | End_ =>
      match input s with
      | [] => if flowing s then Some (on_end s) else None
      | _ :: _ => None
      end
  | Error e =>
      match closed s, ended s with
      | false, NotEnded =>
          if at_first_token s then Some (reject e (with_closed s)) else None
      | _, _ => None
      end
  | Settle id ok =>
      match nth_error (store s) id with
      | Some Pending =>
          Some (on_settle id
                  (match ok with None => Fulfilled | Some e => Rejected e end) s)
      | _ => None
      end
  end.

Fixpoint run (evs : list Event) (s : State) : option State :=
  match evs with
  | [] => Some s
  | ev :: evs' =>
      match step ev s with
      | Some s' => run evs' s'
      | None => None
      end
  end.



(** The invocations of the processor that have not settled. *)
Definition is_pending (p : PState) : bool :=
  match p with Pending => true | _ => false end.

Definition in_flight (s : State) : nat :=
  length (List.filter is_pending (store s)).

(** Where the invocations in flight are: in [promises], or in the group [g]
    that was last handed to [Promise.all] while the stream is paused. *)
Definition tracked (s : State) (g : list nat) : Prop :=
  (forall id, nth_error (store s) id = Some Pending ->
     In id (promises s ++ g)) /\
  (paused s = false -> g = []) /\
  (length g <= CONCURRENCY)%nat /\
  (g <> [] -> length (promises s) <= 1)%nat /\
  (forall g', waiting s = Some g' -> g' = g /\ paused s = true) /\
  (ended s = NotEnded -> length (promises s) <= CONCURRENCY)%nat /\
  (length (promises s) <= S CONCURRENCY)%nat.

(** The ids of the pending promises of a store. *)
Definition pending_ids (st : list PState) : list nat :=
  List.filter (fun id => is_pending (pstate st id)) (seq 0 (length st)).

(** The run over [n] elements in batches of 100 in which every invocation
    is fulfilled as soon as it is made. *)
Fixpoint eager (n filled id : nat) : list Event :=
  match n with
  | O => [End_]
  | S n' =>
      if Nat.eqb filled 99 then Data :: Settle id None :: eager n' 0 (S id)
      else Data :: eager n' (S filled) id
  end.

End Reader.

Arguments PState : clear implicits.
Arguments Outer : clear implicits.
Arguments EndState : clear implicits.
Arguments GroupState : clear implicits.
Arguments State : clear implicits.
Arguments Event : clear implicits.
End StreamJsonArray.

(** ** The reference importer: the upsert of [importExtensions] *)

Module ImportExtensions.
Import JsString Chunk.

(** [const INSERT_BATCH_SIZE = 100]. *)
Definition INSERT_BATCH_SIZE : Z := 100.

(** An element of [extensions.json] (the fields the upsert reads). *)
Record ExtensionJson : Type := mkExtensionJson {
  ej_name : jsstring;
  ej_date : jsstring;
  ej_features_url : option jsstring;     (* [None]: [null] *)
  ej_properties_url : option jsstring
}.

(** The values of a row of [extensions] other than its id. *)
Record ExtValues : Type := mkExtValues {
  name : jsstring;
  dateAdded : option jsstring;
  hasFeatures : bool;
  hasProperties : bool
}.

(** An element of [extensionValues]: [ext.date || null],
    [ext.features_url !== null], [ext.properties_url !== null]. *)
Definition extensionValue (ext : ExtensionJson) : ExtValues :=
  mkExtValues (ej_name ext)
    (match ej_date ext with [] => None | d => Some d end)
    (match ej_features_url ext with None => false | Some _ => true end)
    (match ej_properties_url ext with None => false | Some _ => true end).

(** The table [extensions]: [name] is unique, [id] is a serial. *)
Record ExtRow : Type := mkExtRow {
  id : Z;
  vals : ExtValues
}.

Record Db : Type := mkDb {
  extensions : gmap jsstring ExtRow;   (* by name *)
  next_id : Z                          (* the sequence behind [id] *)
}.

(** What an expression of the [set] of [ON CONFLICT ... DO UPDATE] reads a
    column from: a column of the target table denotes the row that is in
    the table already; the row proposed for insertion is [excluded]. *)
Inductive RowRef : Type :=
| Existing
| Excluded.

(** A [set] that assigns to each of the three columns the same column of
    one of the two rows. *)
Record ConflictSet : Type := mkConflictSet {
  dateAdded_from : RowRef;
  hasFeatures_from : RowRef;
  hasProperties_from : RowRef
}.

(** The [set] of the source: [dateAdded: schema.extensions.dateAdded],
    [hasFeatures: schema.extensions.hasFeatures],
    [hasProperties: schema.extensions.hasProperties], each a column of the
    target table. *)
Definition source_set : ConflictSet := mkConflictSet Existing Existing Existing.

(** The [set] that would overwrite with the values of the input
    ([excluded.date_added] and so on). *)
Definition excluded_set : ConflictSet := mkConflictSet Excluded Excluded Excluded.

Definition pick (r : RowRef) (existing proposed : ExtValues) : ExtValues :=
  match r with
  | Existing => existing
  | Excluded => proposed
  end.

Definition apply_set (cs : ConflictSet) (existing proposed : ExtValues)
    : ExtValues :=
  mkExtValues (name existing)
    (dateAdded (pick (dateAdded_from cs) existing proposed))
    (hasFeatures (pick (hasFeatures_from cs) existing proposed))
    (hasProperties (pick (hasProperties_from cs) existing proposed)).

(** One statement in progress: the table, the names it has touched and the
    rows of its [RETURNING id, name]. *)
Record Stmt : Type := mkStmt {
  st_db : Db;
  st_touched : gset jsstring;
  st_returned : list (Z * jsstring)
}.

(** One proposed row.  A fresh name is inserted with the next id; a
    conflicting row gets the [set] applied and is returned as well (the
    sequence advances for every proposed row).  A statement cannot affect
    one row twice: it fails ([None]).  This is the one failure modelled: a
    statement that the database refuses for another reason (a [date_added]
    text that the [date] column does not take, a lost connection) fails as
    well, so [None] is a failure of the statement, and [Some] is what the
    statement does when the database accepts it. *)
Definition upsert_row (cs : ConflictSet) (v : ExtValues) (st : Stmt)
    : option Stmt :=
  if decide (name v ∈ st_touched st) then None
  else
    let db := st_db st in
    let fresh := next_id db in
    let row :=
      match extensions db !! name v with
      | Some old => mkExtRow (id old) (apply_set cs (vals old) v)
      | None => mkExtRow fresh v
      end in
    Some (mkStmt (mkDb (<[name v := row]> (extensions db)) (fresh + 1))
            ({[name v]} ∪ st_touched st)
            (st_returned st ++ [(id row, name v)])).

Fixpoint upsert_rows (cs : ConflictSet) (batch : list ExtValues) (st : Stmt)
    : option Stmt :=
  match batch with
  | [] => Some st
  | v :: batch' =>
      match upsert_row cs v st with
      | Some st' => upsert_rows cs batch' st'
      | None => None
      end
  end.

(** [db.insert(extensions).values(batch).onConflictDoUpdate({target: name,
    set}).returning({id, name})]: the new table and the returned rows. *)
Definition insert_on_conflict_update (cs : ConflictSet)
    (batch : list ExtValues) (db : Db) : option (Db * list (Z * jsstring)) :=
  match upsert_rows cs batch (mkStmt db ∅ []) with
  | Some st => Some (st_db st, st_returned st)
  | None => None
  end.

(** [for (const r of results) extensionMap.set(r.name, r.id)]. *)
Definition record_ids (results : list (Z * jsstring))
    (m : gmap jsstring Z) : gmap jsstring Z :=
  fold_left (fun acc r => <[snd r := fst r]> acc) results m.

(** The loop over [chunk(extensionValues, INSERT_BATCH_SIZE)]; a failed
    statement rejects the whole import ([None]). *)
Fixpoint upsert_batches (cs : ConflictSet) (batches : list (list ExtValues))
    (db : Db) (m : gmap jsstring Z) : option (Db * gmap jsstring Z) :=
  match batches with
  | [] => Some (db, m)
  | batch :: batches' =>
      match insert_on_conflict_update cs batch db with
      | Some (db', results) =>
          upsert_batches cs batches' db' (record_ids results m)
      | None => None
      end
  end.

(** The bulk upsert of [importExtensions], with the [set] as a parameter;
    the source is [importExtensions source_set]. *)
Definition importExtensions (cs : ConflictSet)
    (extensionsData : list ExtensionJson) (db : Db)
    : option (Db * gmap jsstring Z) :=
  match chunk (map extensionValue extensionsData) INSERT_BATCH_SIZE with
  | Some batches => upsert_batches cs batches db ∅
  | None => None
  end.
End ImportExtensions.

(** ** The device importer: the transformation loop of [processBatch] *)

Module DeviceImporter.
Import JsString Sanitizer.

(** A parsed JSON value as the script sees it at run time; [JUndefined] is
    what reading an absent property gives.  Numbers are the integers the
    reports hold (ids, versions, flags). *)
#[local] Unset Elimination Schemes.
Inductive JSON : Type :=
| JUndefined
| JNull
| JBool (b : bool)
| JNum (n : Z)
| JStr (s : jsstring)
| JArr (items : list JSON)
| JObj (fields : list (jsstring * JSON)).
#[local] Set Elimination Schemes.

(** An evaluation that may throw; what is thrown is never looked at
    ([catch (error) { totalErrors++ }]). *)
Inductive Result (A : Type) : Type :=
| Ok (a : A)
| Throw.
Arguments Ok {A} a.
Arguments Throw {A}.

Definition rbind {A B} (r : Result A) (k : A -> Result B) : Result B :=
  match r with
  | Ok a => k a
  | Throw => Throw
  end.

Notation "x <-? e ;; k" := (rbind e (fun x => k))
  (at level 100, e at next level, right associativity).

(** The value of a key of an object: the last binding wins. *)
Definition get_field (fields : list (jsstring * JSON)) (k : jsstring) : JSON :=
  fold_left (fun acc kv => if decide (fst kv = k) then snd kv else acc)
    fields JUndefined.

(** [v.k] for the keys the script reads (none is a property of a string
    or of an array): a [TypeError] on [null] and [undefined]. *)
Definition prop (v : JSON) (k : string) : Result JSON :=
  match v with
  | JUndefined | JNull => Throw
  | JObj fields => Ok (get_field fields (lit k))
  | _ => Ok JUndefined
  end.

(** [v?.k]. *)
Definition opt_prop (v : JSON) (k : string) : JSON :=
  match v with
  | JObj fields => get_field fields (lit k)
  | _ => JUndefined
  end.

Definition truthy (v : JSON) : bool :=
  match v with
  | JUndefined | JNull => false
  | JBool b => b
  | JNum n => negb (n =? 0)
  | JStr s => match s with [] => false | _ => true end
  | JArr _ | JObj _ => true
  end.

(** [sanitizeString(v)] at run time: a truthy value that is not a string
    has no [replace] to call. *)
Definition sanitize (v : JSON) : Result jsstring :=
  if truthy v then
    match v with
    | JStr s => Ok (sanitizeString (SStr s))
    | _ => Throw
    end
  else Ok [].

(** [getPlatform(v)]: the [switch] compares with [===]. *)
Definition platform_of (v : JSON) : string :=
  match v with
  | JNum n => getPlatform n
  | _ => "linux"
  end.

(** The elements of a string as [for...of] yields them: one per code
    point, a surrogate pair being one element. *)
Fixpoint code_points (s : jsstring) : list jsstring :=
  match s with
  | [] => []
  | c :: s' =>
      match s' with
      | d :: s'' =>
          if ((0xD800 <=? c) && (c <=? 0xDBFF)
              && (0xDC00 <=? d) && (d <=? 0xDFFF))%N
          then
            match code_points s' with
            | _ :: rest => [c; d] :: rest
            | [] => [[c; d]]
            end
          else [c] :: code_points s'
      | [] => [[c]]
      end
  end.

(** [for (const x of v)] for a truthy [v]: arrays and strings are
    iterable, anything else is a [TypeError]. *)
Definition iterate (v : JSON) : Result (list JSON) :=
  match v with
  | JArr items => Ok items
  | JStr s => Ok (map JStr (code_points s))
  | _ => Throw
  end.

(** [x || {}]. *)
Definition or_empty (v : JSON) : JSON := if truthy v then v else JObj [].

(** The staged rows. *)
Record DeviceRow : Type := mkDeviceRow {
  d_reportId : JSON;
  d_deviceName : jsstring;
  d_vendorId : JSON;
  d_deviceId : JSON;
  d_deviceType : jsstring;
  d_apiVersion : jsstring;
  d_apiVersionRaw : JSON;
  d_driverVersion : jsstring;
  d_driverVersionRaw : JSON;
  d_platform : string;
  d_osName : jsstring;
  d_osVersion : jsstring;
  d_architecture : jsstring;
  d_submitter : jsstring
}.

Record DeviceExtRow : Type := mkDeviceExtRow {
  x_reportId : JSON;
  x_extensionId : Z;
  x_specVersion : JSON
}.

Record LimitsRow : Type := mkLimitsRow {
  l_reportId : JSON;
  l_limits : JSON;
  l_sparseProperties : JSON;
  l_subgroupProperties : JSON
}.

(** A row of core features or of core properties. *)
Record CoreRow : Type := mkCoreRow {
  c_reportId : JSON;
  c_coreVersion : string;
  c_payload : JSON
}.

(** A row of extended features ([supported]) or properties ([value]). *)
Record ExtendedRow : Type := mkExtendedRow {
  e_reportId : JSON;
  e_extensionName : JSON;
  e_name : JSON;
  e_payload : JSON
}.

(** The arrays [processBatch] fills, and the counter [totalErrors] of the
    enclosing [importDevices]. *)
Record Staged : Type := mkStaged {
  deviceValues : list DeviceRow;
  deviceExtValues : list DeviceExtRow;
  deviceLimitsValues : list LimitsRow;
  coreFeaturesValues : list CoreRow;
  corePropsValues : list CoreRow;
  extFeaturesValues : list ExtendedRow;
  extPropsValues : list ExtendedRow;
  totalErrors : nat
}.

Definition empty_staged : Staged := mkStaged [] [] [] [] [] [] [] 0.

(** The seven arrays, without the counter. *)
Definition rows (st : Staged) : Staged :=
  mkStaged (deviceValues st) (deviceExtValues st) (deviceLimitsValues st)
    (coreFeaturesValues st) (corePropsValues st) (extFeaturesValues st)
    (extPropsValues st) 0.

(** Statements: the arrays are mutated in place, so what was pushed before
    a [throw] stays pushed. *)
Definition M (A : Type) : Type := Staged -> Staged * Result A.

Definition ret {A} (a : A) : M A := fun st => (st, Ok a).

Definition bind {A B} (m : M A) (k : A -> M B) : M B :=
  fun st =>
    match m st with
    | (st', Ok a) => k a st'
    | (st', Throw) => (st', Throw)
    end.

Definition lift {A} (r : Result A) : M A := fun st => (st, r).

Notation "x <- e ;; k" := (bind e (fun x => k))
  (at level 100, e at next level, right associativity).
Notation "e ;;; k" := (bind e (fun _ => k))
  (at level 100, right associativity).

Definition when (b : bool) (m : M unit) : M unit := if b then m else ret tt.

(** [for (const x of items) body(x)]. *)
Fixpoint for_each {A} (items : list A) (body : A -> M unit) : M unit :=
  match items with
  | [] => ret tt
  | x :: items' => body x ;;; for_each items' body
  end.

(** [try { m } catch (error) { handler }]. *)
Definition try_catch (m handler : M unit) : M unit :=
  fun st =>
    match m st with
    | (st', Ok a) => (st', Ok a)
    | (st', Throw) => handler st'
    end.

Definition push_device (r : DeviceRow) : M unit := fun st =>
  (mkStaged (deviceValues st ++ [r]) (deviceExtValues st)
     (deviceLimitsValues st) (coreFeaturesValues st) (corePropsValues st)
     (extFeaturesValues st) (extPropsValues st) (totalErrors st), Ok tt).

Definition push_deviceExt (r : DeviceExtRow) : M unit := fun st =>
  (mkStaged (deviceValues st) (deviceExtValues st ++ [r])
     (deviceLimitsValues st) (coreFeaturesValues st) (corePropsValues st)
     (extFeaturesValues st) (extPropsValues st) (totalErrors st), Ok tt).

Definition push_limits (r : LimitsRow) : M unit := fun st =>
  (mkStaged (deviceValues st) (deviceExtValues st)
     (deviceLimitsValues st ++ [r]) (coreFeaturesValues st) (corePropsValues st)
     (extFeaturesValues st) (extPropsValues st) (totalErrors st), Ok tt).

Definition push_coreFeatures (r : CoreRow) : M unit := fun st =>
  (mkStaged (deviceValues st) (deviceExtValues st)
     (deviceLimitsValues st) (coreFeaturesValues st ++ [r]) (corePropsValues st)
     (extFeaturesValues st) (extPropsValues st) (totalErrors st), Ok tt).

Definition push_coreProps (r : CoreRow) : M unit := fun st =>
  (mkStaged (deviceValues st) (deviceExtValues st)
     (deviceLimitsValues st) (coreFeaturesValues st) (corePropsValues st ++ [r])
     (extFeaturesValues st) (extPropsValues st) (totalErrors st), Ok tt).

Definition push_extFeatures (r : ExtendedRow) : M unit := fun st =>
  (mkStaged (deviceValues st) (deviceExtValues st)
     (deviceLimitsValues st) (coreFeaturesValues st) (corePropsValues st)
     (extFeaturesValues st ++ [r]) (extPropsValues st) (totalErrors st), Ok tt).

Definition push_extProps (r : ExtendedRow) : M unit := fun st =>
  (mkStaged (deviceValues st) (deviceExtValues st)
     (deviceLimitsValues st) (coreFeaturesValues st) (corePropsValues st)
     (extFeaturesValues st) (extPropsValues st ++ [r]) (totalErrors st), Ok tt).

(** [totalErrors++]. *)
Definition count_error : M unit := fun st =>
  (mkStaged (deviceValues st) (deviceExtValues st)
     (deviceLimitsValues st) (coreFeaturesValues st) (corePropsValues st)
     (extFeaturesValues st) (extPropsValues st) (S (totalErrors st)), Ok tt).

(** The argument of [deviceValues.push]: evaluated in full before the
    push. *)
Definition device_row (report : JSON) : Result DeviceRow :=
  reportId <-? prop report "_report_id" ;;
  props <-? prop report "properties" ;;
  deviceName <-? (v <-? prop props "deviceName" ;; sanitize v) ;;
  vendorId <-? prop props "vendorID" ;;
  deviceId <-? prop props "deviceID" ;;
  deviceType <-? (v <-? prop props "deviceTypeText" ;; sanitize v) ;;
  apiVersion <-? (v <-? prop props "apiVersionText" ;; sanitize v) ;;
  apiVersionRaw <-? prop props "apiVersion" ;;
  driverVersion <-? (v <-? prop props "driverVersionText" ;; sanitize v) ;;
  driverVersionRaw <-? prop props "driverVersion" ;;
  env <-? prop report "environment" ;;
  ostype <-? prop env "ostype" ;;
  osName <-? (v <-? prop env "name" ;; sanitize v) ;;
  osVersion <-? (v <-? prop env "version" ;; sanitize v) ;;
  architecture <-? (v <-? prop env "architecture" ;; sanitize v) ;;
  submitter <-? (v <-? prop env "submitter" ;; sanitize v) ;;
  Ok (mkDeviceRow reportId deviceName vendorId deviceId deviceType apiVersion
        apiVersionRaw driverVersion driverVersionRaw (platform_of ostype)
        osName osVersion architecture submitter).

(** [extensionMap.get(key)]: the keys of the map are strings. *)
Definition map_get (extensionMap : gmap jsstring Z) (key : JSON) : option Z :=
  match key with
  | JStr s => extensionMap !! s
  | _ => None
  end.

(** [if (extId)]: [undefined] and 0 are falsy. *)
Definition truthy_id (extId : option Z) : bool :=
  match extId with
  | Some n => negb (n =? 0)
  | None => false
  end.

Definition stage_extensions (extensionMap : gmap jsstring Z)
    (report reportId : JSON) : M unit :=
  exts <- lift (prop report "extensions") ;;
  when (truthy exts)
    (items <- lift (iterate exts) ;;
     for_each items (fun ext =>
       extName <- lift (prop ext "extensionName") ;;
       let extId := map_get extensionMap extName in
       when (truthy_id extId)
         (specVersion <- lift (prop ext "specVersion") ;;
          push_deviceExt
            (mkDeviceExtRow reportId (default 0 extId) specVersion)))).

Definition stage_limits (props reportId : JSON) : M unit :=
  limits <- lift (prop props "limits") ;;
  sparse <- lift (prop props "sparseProperties") ;;
  subgroup <- lift (prop props "subgroupProperties") ;;
  push_limits
    (mkLimitsRow reportId (or_empty limits) (or_empty sparse)
       (or_empty subgroup)).

Definition coreVersions : list string := ["core11"; "core12"; "core13"; "core14"].

Definition stage_core (report reportId : JSON) : M unit :=
  for_each coreVersions (fun coreVersion =>
    coreData <- lift (prop report coreVersion) ;;
    when (truthy (opt_prop coreData "features"))
      (push_coreFeatures
         (mkCoreRow reportId coreVersion (opt_prop coreData "features"))) ;;;
    when (truthy (opt_prop coreData "properties"))
      (push_coreProps
         (mkCoreRow reportId coreVersion (opt_prop coreData "properties")))).

Definition stage_extended (report reportId : JSON) (key payload : string)
    (push : ExtendedRow -> M unit) : M unit :=
  extended <- lift (prop report "extended") ;;
  let block := opt_prop extended key in
  when (truthy block)
    (items <- lift (iterate block) ;;
     for_each items (fun f =>
       extension <- lift (prop f "extension") ;;
       fname <- lift (prop f "name") ;;
       value <- lift (prop f payload) ;;
       push (mkExtendedRow reportId extension fname value))).

(** The body of the [try] for one report. *)
Definition transform_report (extensionMap : gmap jsstring Z) (report : JSON)
    : M unit :=
  device <- lift (device_row report) ;;
  push_device device ;;;
  reportId <- lift (prop report "_report_id") ;;
  props <- lift (prop report "properties") ;;
  stage_extensions extensionMap report reportId ;;;
  stage_limits props reportId ;;;
  stage_core report reportId ;;;
  stage_extended report reportId "devicefeatures2" "supported"
    push_extFeatures ;;;
  stage_extended report reportId "deviceproperties2" "value" push_extProps.

(** [for (const report of batch) { try { ... } catch (error) {
    totalErrors++ } }]. *)
Definition processBatch_transform (extensionMap : gmap jsstring Z)
    (batch : list JSON) : M unit :=
  for_each batch (fun report =>
    try_catch (transform_report extensionMap report) count_error).

(** Each array of [st'] is the array of [st] with rows appended. *)
Definition extends (st st' : Staged) : Prop :=
  (exists l, deviceValues st' = deviceValues st ++ l) /\
  (exists l, deviceExtValues st' = deviceExtValues st ++ l) /\
  (exists l, deviceLimitsValues st' = deviceLimitsValues st ++ l) /\
  (exists l, coreFeaturesValues st' = coreFeaturesValues st ++ l) /\
  (exists l, corePropsValues st' = corePropsValues st ++ l) /\
  (exists l, extFeaturesValues st' = extFeaturesValues st ++ l) /\
  (exists l, extPropsValues st' = extPropsValues st ++ l) /\
  totalErrors st' = totalErrors st.

(** A statement that only appends rows. *)
Definition appends {A} (m : M A) : Prop :=
  forall st, extends st (fst (m st)).

(** A statement that never throws. *)
Definition total {A} (m : M A) : Prop :=
  forall st, exists a, snd (m st) = Ok a.

(** An object literal. *)
Definition obj (fields : list (string * JSON)) : JSON :=
  JObj (map (fun kv => (lit (fst kv), snd kv)) fields).
End DeviceImporter.

(** ** Measures used by the properties of the helpers *)

Module Measures.
Import JsString Sanitizer.

(** A code unit that [sanitizeString] has no reason to touch: neither white
    space nor one of the deleted control characters. *)
Definition visible (c : N) : bool := negb (is_space c) && negb (is_stripped c).

(** The number of groups of [size] that [len] elements fill: the quotient
    rounded up. *)
Definition group_count (len size : Z) : Z := (len + size - 1) / size.
End Measures.

(** ** Accounting of the batch runner *)

Module ProcessBatchesSpec.
Import ProcessBatches.
Section Runner.
Context {T R E : Type}.

(** The invocations of the current wave that have not settled. *)
Definition slots_of (ph : Phase R E) : list (option (Outcome R E)) :=
  match ph with
  | Awaiting slots _ | Threw _ slots => slots
  | Fresh | Returned _ => []
  end.

Definition unsettled (s : State T R E) : nat :=
  length (List.filter (fun o => match o with None => true | Some _ => false end)
            (slots_of (phase s))).

(** What [results] holds: the values of the waves that are complete, each
    at the index of its batch. *)
Definition results_ok (c n : Z) (s : State T R E) : Prop :=
  0 <= i s /\
  (forall j r, nth_error (results s) j = Some r ->
     In (Settled (Z.of_nat j) (Fulfilled r)) (calls s)) /\
  match phase s with
  | Fresh => results s = [] /\ i s = 0
  | Awaiting slots _ | Threw _ slots =>
      Z.of_nat (length (results s)) = i s /\ i s < n /\
      Z.of_nat (length slots) = Z.min c (n - i s)
  | Returned rs => rs = results s /\ Z.of_nat (length rs) = n
  end.

(** With the limit 0 the loop goes round without calling the processor. *)
Definition spinning (s : State T R E) : Prop :=
  i s = 0 /\ concurrency s = 0 /\ batches s <> [] /\ calls s = [] /\
  (phase s = Fresh \/ phase s = Awaiting [] None).
End Runner.

(** Seven batches of one item with the limit 3: every invocation is
    fulfilled, the second wave out of order. *)
Definition demo_events : list (Event Z string) :=
  [Resume; Settle 1 (Fulfilled 10); Settle 0 (Fulfilled 11);
   Settle 2 (Fulfilled 12);
   Resume; Settle 2 (Fulfilled 13); Settle 0 (Fulfilled 14);
   Settle 1 (Fulfilled 15);
   Resume; Settle 0 (Fulfilled 16); Resume].
End ProcessBatchesSpec.

(** ** Accounting of the streaming reader *)

Module StreamJsonArraySpec.
Import Chunk StreamJsonArray.
Section Reader.
Context {T E : Type}.

(** Every element of the array is in a batch handed to the processor, in
    the batch being filled, or still to be parsed; each batch has its
    invocation. *)
Definition parted (items : list T) (s : State T E) : Prop :=
  length (store s) = length (dispatched s) /\
  match ended s with
  | NotEnded => concat (dispatched s) ++ batch s ++ input s = items
  | _ => concat (dispatched s) = items
  end.

(** With a positive size the batches handed over while the stream flows
    are full, and the one being filled is not. *)
Definition full_batches (s : State T E) : Prop :=
  match ended s with
  | NotEnded =>
      Forall (fun b => Z.of_nat (length b) = batchSize s) (dispatched s) /\
      Z.of_nat (length (batch s)) < batchSize s
  | _ => groups_ok (batchSize s) (dispatched s)
  end.

(** With a size of 1 or less every element is a batch of its own. *)
Definition single (v : T) : list T := [v].

Definition singles (items : list T) (s : State T E) : Prop :=
  batch s = [] /\
  dispatched s ++ map single (input s) = map single items.



(** The stream is paused and nothing will resume it. *)
Definition stuck (s : State T E) : Prop :=
  paused s = true /\ waiting s = None.


(** The returned promise is rejected with [e] and the stream will emit
    nothing more: it is closed, or paused for good. *)
Definition halted (e : E) (s : State T E) : Prop :=
  ended s = NotEnded /\ outer s = ORejected e /\
  (closed s = true \/ stuck s).
End Reader.
End StreamJsonArraySpec.

(** ** Accounting of the extension import, and the coverage rows *)

Module ImportCoverage.
Import JsString Sanitizer Chunk ImportExtensions.

(** An element of [extensions_by_platform.json[platform]] (the fields the
    script reads). *)
Record ExtensionByPlatformJson : Type := mkExtensionByPlatformJson {
  ep_name : jsstring;
  ep_coverage : MaybeString
}.

(** A row of [extension_coverage]; [coveragePercent] is the number whose
    [toString()] is stored. *)
Record CoverageRow : Type := mkCoverageRow {
  extensionId : Z;
  platform : jsstring;
  coveragePercent : JsNumber;
  deviceCount : Z;
  totalDevices : Z
}.

(** [extensionMap.has(name)]. *)
Definition has (extensionMap : gmap jsstring Z) (n : jsstring) : bool :=
  bool_decide (is_Some (extensionMap !! n)).

(** The elements of [extensions.json] that pass
    [.filter(ext => extensionMap.has(ext.name))] in the pass for ['all']. *)
Definition all_coverage_source (extensionMap : gmap jsstring Z)
    (extensionsData : list ExtensionJson) : list ExtensionJson :=
  List.filter (fun ext => has extensionMap (ej_name ext)) extensionsData.

(** [coverageValues] of one platform:
    [platformData.filter(ext => extensionMap.has(ext.name)).map(ext => ({
    extensionId: extensionMap.get(ext.name)!, platform, coveragePercent:
    parseCoverage(ext.coverage).toString(), deviceCount: 0,
    totalDevices: 0 }))]. *)
Definition coverageValues (extensionMap : gmap jsstring Z)
    (platform : jsstring) (platformData : list ExtensionByPlatformJson)
    : list CoverageRow :=
  map (fun ext =>
         mkCoverageRow (default 0 (extensionMap !! ep_name ext)) platform
           (parseCoverage (ep_coverage ext)) 0 0)
      (List.filter (fun ext => has extensionMap (ep_name ext)) platformData).

(** A row of the table keeps its id. *)
Definition ids_kept (db db' : Db) : Prop :=
  forall n r, extensions db !! n = Some r ->
    exists r', extensions db' !! n = Some r' /\ id r' = id r.

(** A row of the table is left as it is. *)
Definition rows_kept (db db' : Db) : Prop :=
  forall n r, extensions db !! n = Some r -> extensions db' !! n = Some r.

(** The map holds exactly the names proposed so far, each with the id of
    its row. *)
Definition map_ok (names : list jsstring) (db : Db) (m : gmap jsstring Z)
    : Prop :=
  (forall n, In n names ->
     exists r, extensions db !! n = Some r /\ m !! n = Some (id r)) /\
  (forall n, is_Some (m !! n) -> In n names).

(** No name twice among the rows of one statement. *)
Definition distinct_names (batch : list ExtValues) : Prop :=
  List.NoDup (map name batch).

(** A table that holds one extension, and a file that names it again and
    brings a new one. *)
Definition stored_swapchain : ExtRow :=
  mkExtRow 1
    (mkExtValues (lit "VK_KHR_swapchain") (Some (lit "2020-01-01")) false false).

Definition one_row_db : Db :=
  mkDb {[ lit "VK_KHR_swapchain" := stored_swapchain ]} 2.

Definition two_extensions : list ExtensionJson :=
  [mkExtensionJson (lit "VK_KHR_swapchain") (lit "2021-06-01")
     (Some (lit "f")) (Some (lit "p"));
   mkExtensionJson (lit "VK_EXT_debug_utils") (lit "2022-02-02") None None].
End ImportCoverage.

(** ** The inserts of [processBatch] *)

Module DeviceStore.
Import JsString Chunk DeviceImporter.

(** What [db.insert(devices).values(deviceValues).onConflictDoNothing()
    .returning({id, reportId})] gives: the rows it returned ([reportId] is a
    nullable column), or an error. *)
Inductive InsertResult : Type :=
| Inserted (deviceResults : list (Z * option Z))
| InsertError.

(** [if (r.reportId) deviceIdMap.set(r.reportId, r.id)]: [null] and 0 are
    falsy. *)
Definition set_deviceId (m : gmap Z Z) (r : Z * option Z) : gmap Z Z :=
  match snd r with
  | Some reportId => if reportId =? 0 then m else <[reportId := fst r]> m
  | None => m
  end.

Definition deviceIdMap (deviceResults : list (Z * option Z)) : gmap Z Z :=
  fold_left set_deviceId deviceResults ∅.

(** [deviceIdMap.get(v.reportId)]: the keys are numbers, and a key is
    found by identity, so nothing but a number is. *)
Definition deviceId_of (m : gmap Z Z) (reportId : JSON) : option Z :=
  match reportId with
  | JNum n => m !! n
  | _ => None
  end.

(** [vs.filter(v => deviceIdMap.has(v.reportId)).map(v => ({ deviceId:
    deviceIdMap.get(v.reportId)!, ... }))]: a row is the device id with
    the staged row the other fields are copied from. *)
Definition with_ids {A} (reportId : A -> JSON) (m : gmap Z Z) (vs : list A)
    : list (Z * A) :=
  map (fun v => (default 0 (deviceId_of m (reportId v)), v))
    (List.filter (fun v => bool_decide (is_Some (deviceId_of m (reportId v))))
       vs).

(** The statements of [insertRelated], table by table; whether one fails
    makes no difference ([catch (e) { /* skip */ }]). *)
Record Related : Type := mkRelated {
  r_extensions : list (list (Z * DeviceExtRow));
  r_limits : list (list (Z * LimitsRow));
  r_coreFeatures : list (list (Z * CoreRow));
  r_coreProps : list (list (Z * CoreRow));
  r_extFeatures : list (list (Z * ExtendedRow));
  r_extProps : list (list (Z * ExtendedRow))
}.

Definition insertRelated (m : gmap Z Z) (st : Staged) : option Related :=
  let size := ImportExtensions.INSERT_BATCH_SIZE in
  match chunk (with_ids x_reportId m (deviceExtValues st)) size,
        chunk (with_ids l_reportId m (deviceLimitsValues st)) size,
        chunk (with_ids c_reportId m (coreFeaturesValues st)) size,
        chunk (with_ids c_reportId m (corePropsValues st)) size,
        chunk (with_ids e_reportId m (extFeaturesValues st)) size,
        chunk (with_ids e_reportId m (extPropsValues st)) size with
  | Some a, Some b, Some c, Some d, Some e, Some f =>
      Some (mkRelated a b c d e f)
  | _, _, _, _, _, _ => None
  end.

(** How [processBatch] ends: with the counters [totalImported] and
    [totalErrors] of [importDevices], and the related statements unless
    the device insert failed ([return] in the [catch]). *)
Inductive BatchOutcome : Type :=
| Stored (imported : Z) (errors : nat) (related : Related)
| InsertFailed (imported : Z) (errors : nat).

(** [processBatch] after the transformation loop. *)
Definition processBatch_store (insert : list DeviceRow -> InsertResult)
    (st : Staged) (imported : Z) : option BatchOutcome :=
  match deviceValues st with
  | [] => option_map (Stored imported (totalErrors st)) (insertRelated ∅ st)
  | _ :: _ =>
      match insert (deviceValues st) with
      | Inserted deviceResults =>
          option_map
            (Stored (imported + Z.of_nat (length deviceResults))
               (totalErrors st))
            (insertRelated (deviceIdMap deviceResults) st)
      | InsertError =>
          Some (InsertFailed imported
                  (totalErrors st + length (deviceValues st)))
      end
  end.

(** [processBatch(batch)], given what the device insert does. *)
Definition processBatch (extensionMap : gmap jsstring Z)
    (insert : list DeviceRow -> InsertResult) (batch : list JSON)
    (imported : Z) (errors : nat) : option BatchOutcome :=
  processBatch_store insert
    (fst (processBatch_transform extensionMap batch
            (mkStaged [] [] [] [] [] [] [] errors)))
    imported.

(** The statements [stmts] of one table hold, in order and in groups of at
    most [INSERT_BATCH_SIZE], the staged rows [vs] whose report id the
    device insert returned, each with the id returned for it. *)
Definition sent {A} (reportId : A -> JSON) (deviceResults : list (Z * option Z))
    (vs : list A) (stmts : list (list (Z * A))) : Prop :=
  map snd (concat stmts) =
    List.filter
      (fun v => bool_decide
                  (is_Some (deviceId_of (deviceIdMap deviceResults) (reportId v))))
      vs /\
  Forall (fun b => b <> [] /\
                   Z.of_nat (length b) <= ImportExtensions.INSERT_BATCH_SIZE)
    stmts /\
  (forall d v, In (d, v) (concat stmts) ->
     exists n, reportId v = JNum n /\ n <> 0 /\ In (d, Some n) deviceResults) /\
  (forall v n d, In v vs -> reportId v = JNum n -> n <> 0 ->
     In (d, Some n) deviceResults -> exists d', In (d', v) (concat stmts)).

(** Whether the transformation of a report throws. *)
Definition throws (extensionMap : gmap jsstring Z) (report : JSON) : bool :=
  match snd (transform_report extensionMap report empty_staged) with
  | Ok _ => false
  | Throw => true
  end.

(** Whether the device row of a report is built. *)
Definition has_device_row (report : JSON) : bool :=
  match device_row report with
  | Ok _ => true
  | Throw => false
  end.

(** The reports whose device row is staged although their transformation
    throws. *)
Definition throws_late (extensionMap : gmap jsstring Z) (report : JSON)
    : bool :=
  has_device_row report && throws extensionMap report.

(** The report ids of the related rows staged, array by array. *)
Definition related_ids (st : Staged) : list (list JSON) :=
  [map x_reportId (deviceExtValues st);
   map l_reportId (deviceLimitsValues st);
   map c_reportId (coreFeaturesValues st);
   map c_reportId (corePropsValues st);
   map e_reportId (extFeaturesValues st);
   map e_reportId (extPropsValues st)].

(** From [st] to [st'] related rows were appended, all for the report id
    [rid]; the device rows and the counter are the same. *)
Definition grows_for (rid : JSON) (st st' : Staged) : Prop :=
  deviceValues st' = deviceValues st /\
  totalErrors st' = totalErrors st /\
  Forall2 (fun old new => exists l, new = old ++ l /\ Forall (eq rid) l)
    (related_ids st) (related_ids st').

Definition stages_for {A} (rid : JSON) (m : M A) : Prop :=
  forall st, grows_for rid st (fst (m st)).

(** Every related row staged belongs to a device row staged. *)
Definition covered (st : Staged) : Prop :=
  Forall (Forall (fun rid => In rid (map d_reportId (deviceValues st))))
    (related_ids st).

(** A statement whose outcome does not depend on the rows staged. *)
Definition result_free {A} (m : M A) : Prop :=
  forall st st', snd (m st) = snd (m st').

(** How many elements satisfy [f]. *)
Definition count {A} (f : A -> bool) (l : list A) : nat :=
  length (List.filter f l).
End DeviceStore.

(** ** The reports the transformation accepts *)

Module ReportShape.
Import JsString DeviceImporter.

Definition nullish (v : JSON) : bool :=
  match v with
  | JUndefined | JNull => true
  | _ => false
  end.

(** [v.k] where it does not throw. *)
Definition field (v : JSON) (k : string) : JSON :=
  match v with
  | JObj fields => get_field fields (lit k)
  | _ => JUndefined
  end.

(** A value [sanitizeString] takes: a string, or anything falsy. *)
Definition sanitizable (v : JSON) : bool :=
  negb (truthy v) || match v with JStr _ => true | _ => false end.

(** A value the loops over [extensions], [devicefeatures2] and
    [deviceproperties2] take: anything falsy, a string, or an array with
    no [null] or [undefined] element. *)
Definition elements_ok (v : JSON) : bool :=
  negb (truthy v) ||
  match v with
  | JArr items => forallb (fun x => negb (nullish x)) items
  | JStr _ => true
  | _ => false
  end.

Definition accepted (report : JSON) : bool :=
  let props := field report "properties" in
  let env := field report "environment" in
  let extended := field report "extended" in
  negb (nullish report) &&
  negb (nullish props) &&
  sanitizable (field props "deviceName") &&
  sanitizable (field props "deviceTypeText") &&
  sanitizable (field props "apiVersionText") &&
  sanitizable (field props "driverVersionText") &&
  negb (nullish env) &&
  sanitizable (field env "name") &&
  sanitizable (field env "version") &&
  sanitizable (field env "architecture") &&
  sanitizable (field env "submitter") &&
  elements_ok (field report "extensions") &&
  elements_ok (opt_prop extended "devicefeatures2") &&
  elements_ok (opt_prop extended "deviceproperties2").

(** The same for the device row alone. *)
Definition device_accepted (report : JSON) : bool :=
  let props := field report "properties" in
  let env := field report "environment" in
  negb (nullish report) &&
  negb (nullish props) &&
  sanitizable (field props "deviceName") &&
  sanitizable (field props "deviceTypeText") &&
  sanitizable (field props "apiVersionText") &&
  sanitizable (field props "driverVersionText") &&
  negb (nullish env) &&
  sanitizable (field env "name") &&
  sanitizable (field env "version") &&
  sanitizable (field env "architecture") &&
  sanitizable (field env "submitter").
End ReportShape.

(** ** The device import as a whole *)

Module ImportDevices.
Import JsString DeviceImporter.

(** [const DEVICE_BATCH_SIZE = 100]. *)
Definition DEVICE_BATCH_SIZE : Z := 100.

(** What [processBatch] has staged for a batch when its loop is over; the
    arrays are fresh for every batch. *)
Definition staged_of (extensionMap : gmap jsstring Z) (batch : list JSON)
    (errors : nat) : Staged :=
  fst (processBatch_transform extensionMap batch
         (mkStaged [] [] [] [] [] [] [] errors)).

(** A device-extension row whose extension id is an id of the map, and
    not 0. *)
Definition known_extension (extensionMap : gmap jsstring Z)
    (x : DeviceExtRow) : Prop :=
  x_extensionId x <> 0 /\
  exists n, extensionMap !! n = Some (x_extensionId x).

(** A statement that keeps a property of the rows staged. *)
Definition keeps {A} (P : Staged -> Prop) (m : M A) : Prop :=
  forall st, P st -> P (fst (m st)).
End ImportDevices.

(** * Properties *)

Module JsArrayFacts.
Import JsArray.
Section Slice.
Context {T : Type}.

Lemma slice_nonneg (arr : list T) (i n : Z) :
  0 <= i -> 0 <= n ->
  slice arr i (i + n) = firstn (Z.to_nat n) (skipn (Z.to_nat i) arr).
Proof.
  intros Hi Hn. unfold slice, clamp_index.
  destruct (Z.ltb_spec i 0); [lia|].
  destruct (Z.ltb_spec (i + n) 0); [lia|].
  set (len := Z.of_nat (length arr)).
  destruct (Z_le_gt_dec len i) as [Hle|Hgt].
  - rewrite !Z.min_r by lia.
    rewrite (skipn_all2 (n := Z.to_nat i)) by (subst len; lia).
    rewrite (skipn_all2 (n := Z.to_nat len)) by (subst len; lia).
    now rewrite !firstn_nil.
  - rewrite (Z.min_l i) by lia.
    destruct (Z_le_gt_dec (i + n) len).
    + rewrite Z.min_l by lia. f_equal. lia.
    + rewrite Z.min_r by lia.
      rewrite !firstn_all2; try reflexivity;
        rewrite length_skipn; subst len; lia.
Qed.


End Slice.
End JsArrayFacts.

Module ChunkFacts.
Import JsArray JsArrayFacts Chunk.
Section Chunk.
Context {T : Type}.
Implicit Types (arr : list T) (cs chunks : list (list T)).

Lemma chunk_loop_acc fuel arr size i chunks :
  0 < size -> 0 <= i ->
  Z.max 0 (Z.of_nat (length arr) - i) < Z.of_nat fuel ->
  exists cs,
    chunk_loop fuel arr size i chunks = Some (chunks ++ cs) /\
    concat cs = skipn (Z.to_nat i) arr /\
    groups_ok size cs /\
    (Z.of_nat (length arr) <= i -> cs = []).
Proof.
  intros Hsize. revert i chunks.
  induction fuel as [|fuel IH]; intros i chunks Hi Hfuel; [lia|].
  cbn [chunk_loop].
  destruct (Z.ltb_spec i (Z.of_nat (length arr))) as [Hlt|Hge].
  - destruct (IH (i + size) (chunks ++ [slice arr i (i + size)]))
      as (cs & Hrun & Hcat & [Hfull Hall] & Hnil); [lia|lia|].
    exists (slice arr i (i + size) :: cs).
    rewrite slice_nonneg in * by lia.
    set (c := firstn (Z.to_nat size) (skipn (Z.to_nat i) arr)) in *.
    assert (Hlen : (length (skipn (Z.to_nat i) arr) > 0)%nat)
      by (rewrite length_skipn; lia).
    assert (Hc : c <> [] /\ Z.of_nat (length c) <= size).
    { subst c. split.
      - intros Hc. apply (f_equal (@length T)) in Hc.
        rewrite length_firstn in Hc. cbn in Hc. lia.
      - rewrite length_firstn. lia. }
    repeat split.
    + rewrite Hrun, <- app_assoc. reflexivity.
    + cbn [concat]. rewrite Hcat.
      replace (Z.to_nat (i + size)) with (Z.to_nat size + Z.to_nat i)%nat by lia.
      rewrite <- skipn_skipn. apply firstn_skipn.
    + intros [|k] Hk; cbn [nth].
      * destruct cs as [|c' cs']; [cbn in Hk; lia|].
        assert (i + size < Z.of_nat (length arr)).
        { destruct (Z_lt_ge_dec (i + size) (Z.of_nat (length arr))); [assumption|].
          discriminate Hnil. lia. }
        subst c. rewrite length_firstn, length_skipn. lia.
      * apply Hfull. cbn in Hk. lia.
    + constructor; assumption.
    + intros ?; lia.
  - exists []. rewrite app_nil_r. repeat split.
    + rewrite skipn_all2 by lia. reflexivity.
    + intros k Hk. cbn in Hk. lia.
    + constructor.
Qed.

Lemma chunk_loop_more fuel arr size i chunks r :
  chunk_loop fuel arr size i chunks = Some r ->
  chunk_loop (S fuel) arr size i chunks = Some r.
Proof.
  revert i chunks.
  induction fuel as [|fuel IH]; intros i chunks Hrun; [discriminate|].
  cbn [chunk_loop] in Hrun. change (chunk_loop (S (S fuel)) arr size i chunks)
    with (if i <? Z.of_nat (length arr)
          then chunk_loop (S fuel) arr size (i + size)
                 (chunks ++ [slice arr i (i + size)])
          else Some chunks).
  destruct (i <? Z.of_nat (length arr)); [now apply IH | assumption].
Qed.

Lemma chunk_fuel_mono fuel fuel' arr size r :
  (fuel <= fuel')%nat ->
  chunk_fuel fuel arr size = Some r -> chunk_fuel fuel' arr size = Some r.
Proof.
  unfold chunk_fuel. induction 1 as [|m _ IH]; [trivial|].
  intros Hrun. apply chunk_loop_more, IH, Hrun.
Qed.

(** With a size that is not positive the loop variable never passes the
    length of a non-empty array. *)
Lemma chunk_loop_diverges fuel arr size i chunks :
  size <= 0 -> i < Z.of_nat (length arr) ->
  chunk_loop fuel arr size i chunks = None.
Proof.
  intros Hsize. revert i chunks.
  induction fuel as [|fuel IH]; intros i chunks Hi; [reflexivity|].
  cbn [chunk_loop].
  destruct (Z.ltb_spec i (Z.of_nat (length arr))); [|lia].
  apply IH. lia.
Qed.

(** C2 (as amended). For every array and every positive size, [chunk]
    returns consecutive groups whose concatenation is the array, every
    group but the last has exactly [n] elements (and no group is empty or
    longer than [n]); and for the empty array it returns no group,
    whatever the size. *)
Theorem chunk_groups arr (n : Z) :
  0 < n ->
  (exists cs, chunk arr n = Some cs /\ concat cs = arr /\ groups_ok n cs) /\
  (forall m : Z, chunk (@nil T) m = Some []).
Proof.
  intros Hn. split; [|reflexivity].
  destruct (chunk_loop_acc (S (length arr)) arr n 0 [] Hn) as
    (cs & Hrun & Hcat & Hok & _); [lia|lia|].
  exists cs. repeat split; try apply Hok; assumption.
Qed.

(** C9 (as amended). [chunk] is a pure function that terminates with a
    result for every array and every positive size: [length arr + 1]
    iterations are enough, and any larger budget gives the same result. *)
Theorem chunk_total arr (size : Z) :
  0 < size ->
  exists cs, chunk arr size = Some cs /\
    forall fuel, (length arr < fuel)%nat -> chunk_fuel fuel arr size = Some cs.
Proof.
  intros Hsize.
  destruct (chunk_loop_acc (S (length arr)) arr size 0 [] Hsize) as
    (cs & Hrun & _); [lia|lia|].
  exists cs. split; [exact Hrun|].
  intros fuel Hfuel. eapply chunk_fuel_mono; [|exact Hrun]. lia.
Qed.
End Chunk.

(** C2, witness: an array of five elements in groups of two. *)
Lemma chunk_groups_witness :
0 < 2 /\
((exists cs, chunk [1; 2; 3; 4; 5] 2 = Some cs /\
    concat cs = [1; 2; 3; 4; 5] /\ groups_ok 2 cs) /\
 (forall m : Z, chunk (@nil Z) m = Some [])).
Proof. split; [lia | apply (chunk_groups [1; 2; 3; 4; 5] 2); lia]. Defined.

(** C2, as stated, fails for the size 0: [chunk([7], 0)] returns nothing,
  whatever the number of iterations it is given. *)
Lemma chunk_groups_size_zero :
~ exists cs, (exists fuel, chunk_fuel fuel [7] 0 = Some cs) /\
             concat cs = [7] /\ full_but_last 0 cs.
Proof.
intros (cs & (fuel & Hrun) & _).
unfold chunk_fuel in Hrun.
rewrite chunk_loop_diverges in Hrun by (cbn; lia). discriminate.
Qed.

(** C9, witness. *)
Lemma chunk_total_witness :
0 < 100 /\
exists cs, chunk [1; 2; 3] 100 = Some cs /\
  forall fuel, (length [1; 2; 3] < fuel)%nat ->
    chunk_fuel fuel [1; 2; 3] 100 = Some cs.
Proof. split; [lia | apply (chunk_total [1; 2; 3] 100); lia]. Defined.

(** C9, as stated, fails: with size 0 (or a negative size) and a non-empty
  array the loop of [chunk] never ends. *)
Lemma chunk_not_total :
~ exists fuel cs, chunk_fuel fuel [7] 0 = Some cs.
Proof.
intros (fuel & cs & Hrun). unfold chunk_fuel in Hrun.
rewrite chunk_loop_diverges in Hrun by (cbn; lia). discriminate.
Qed.
End ChunkFacts.

Module StringFacts.
Import JsString.

Lemma trimStart_suffix s : exists k, trimStart s = skipn k s.
Proof.
  induction s as [|c s [k IH]]; [now exists 0%nat|].
  cbn [trimStart]. destruct (is_space c).
  - exists (S k). exact IH.
  - now exists 0%nat.
Qed.

Lemma trimStart_head s : head_ok (trimStart s).
Proof.
  induction s as [|c s IH]; [exact I|].
  cbn [trimStart]. destruct (is_space c) eqn:Hc; [exact IH | exact Hc].
Qed.

Lemma trimStart_id s : head_ok s -> trimStart s = s.
Proof. destruct s as [|c s]; cbn; [reflexivity|]. now intros ->. Qed.

Lemma trimEnd_prefix s : exists k, trimEnd s = firstn k s.
Proof.
  unfold trimEnd. destruct (trimStart_suffix (rev s)) as [k ->].
  exists (length s - k)%nat. now rewrite skipn_rev, rev_involutive.
Qed.

Lemma head_ok_firstn k s : head_ok s -> head_ok (firstn k s).
Proof. destruct k, s; cbn; trivial. Qed.

Lemma trim_head s : head_ok (trim s).
Proof.
  unfold trim. destruct (trimEnd_prefix (trimStart s)) as [k ->].
  apply head_ok_firstn, trimStart_head.
Qed.

Lemma trim_last s : head_ok (rev (trim s)).
Proof. unfold trim, trimEnd. rewrite rev_involutive. apply trimStart_head. Qed.

Lemma trim_fixed s : head_ok s -> head_ok (rev s) -> trim s = s.
Proof.
  intros Hh Hl. unfold trim, trimEnd.
  rewrite (trimStart_id s Hh), (trimStart_id _ Hl). apply rev_involutive.
Qed.

Lemma trim_trim s : trim (trim s) = trim s.
Proof. apply trim_fixed; [apply trim_head | apply trim_last]. Qed.

Lemma trim_Forall (P : N -> Prop) s : Forall P s -> Forall P (trim s).
Proof.
  intros H. unfold trim.
  destruct (trimEnd_prefix (trimStart s)) as [k ->].
  destruct (trimStart_suffix s) as [j ->].
  apply Forall_take, Forall_drop, H.
Qed.

Lemma span_app p (run rest : jsstring) :
  Forall (fun c => p c = true) run ->
  match rest with c :: _ => p c = false | [] => True end ->
  span p (run ++ rest) = (run, rest).
Proof.
  intros Hrun Hrest. induction Hrun as [|c run Hc _ IH]; cbn.
  - destruct rest as [|c rest]; [reflexivity|]. cbn in *. now rewrite Hrest.
  - now rewrite Hc, IH.
Qed.

Lemma span_spec p (s : jsstring) :
  Forall (fun c => p c = true) (fst (span p s)) /\
  s = fst (span p s) ++ snd (span p s) /\
  match snd (span p s) with c :: _ => p c = false | [] => True end.
Proof.
  induction s as [|c s (IH1 & IH2 & IH3)]; cbn; [auto|].
  destruct (p c) eqn:Hc.
  - destruct (span p s) as [run rest]. cbn in *.
    repeat split; [constructor; assumption | congruence | assumption].
  - cbn. auto.
Qed.
End StringFacts.

Module SanitizerFacts.
Import JsString Sanitizer StringFacts.

Lemma strip_clean s : Forall (fun c => is_stripped c = false) (strip s).
Proof.
  unfold strip. induction s as [|c s IH]; cbn; [constructor|].
  destruct (is_stripped c) eqn:Hc; cbn; [exact IH | now constructor].
Qed.

Lemma strip_fixed s : Forall (fun c => is_stripped c = false) s -> strip s = s.
Proof.
  unfold strip. induction 1 as [|c s Hc _ IH]; cbn; [reflexivity|].
  rewrite Hc. cbn. now f_equal.
Qed.

(** C10. [sanitizeString] is idempotent, because each of its results holds
    none of the deleted control characters and neither begins nor ends with
    white space. *)
Theorem sanitizeString_idempotent (str : MaybeString) :
  sanitizeString (SStr (sanitizeString str)) = sanitizeString str /\
  Forall (fun c => is_stripped c = false) (sanitizeString str) /\
  head_ok (sanitizeString str) /\
  head_ok (rev (sanitizeString str)).
Proof.
  assert (Hfix : forall t, Forall (fun c => is_stripped c = false) t ->
            head_ok t -> head_ok (rev t) -> sanitizeString (SStr t) = t).
  { intros [|c t] Hclean Hh Hl; [reflexivity|].
    unfold sanitizeString. cbn [falsy].
    rewrite (strip_fixed _ Hclean). now apply trim_fixed. }
  destruct str as [| |[|c s]]; try (cbn; repeat split; constructor).
  unfold sanitizeString at 2 3 4 5. cbn [falsy].
  assert (Hclean : Forall (fun c => is_stripped c = false) (trim (strip (c :: s))))
    by apply trim_Forall, strip_clean.
  repeat split; [|assumption|apply trim_head|apply trim_last].
  apply Hfix; [assumption|apply trim_head|apply trim_last].
Qed.

(** *** The pattern match of [parseCoverage] *)

Lemma match_here_iff s run :
  match_here s = Some run <->
  exists post, s = char_gt :: run ++ char_lt :: post /\ class_run run.
Proof.
  split.
  - destruct s as [|c s']; [discriminate|]. cbn [match_here].
    destruct (N.eqb_spec c char_gt) as [->|]; [|discriminate].
    destruct (span_spec in_class s') as (Hrun & Hs & Hrest).
    destruct (span in_class s') as [[|r run'] [|d rest]]; try discriminate.
    cbn [fst snd] in *.
    destruct (N.eqb_spec d char_lt) as [->|]; [|discriminate].
    intros [= <-]. exists rest. subst s'. repeat split; [discriminate|assumption].
  - intros (post & -> & Hne & Hrun). cbn [match_here].
    rewrite N.eqb_refl, (span_app in_class run (char_lt :: post) Hrun eq_refl).
    destruct run; [contradiction|]. now rewrite N.eqb_refl.
Qed.

Lemma regex_match_unfold s :
  regex_match s =
  match match_here s with
  | Some run => Some run
  | None => match s with _ :: s' => regex_match s' | [] => None end
  end.
Proof. destruct s; reflexivity. Qed.



(** *** [parseFloat] on a run of digits and dots *)

Lemma digit_not_space c : is_digit c = true -> is_space c = false.
Proof.
  unfold is_digit, is_space. rewrite andb_true_iff, !N.leb_le. intros [? ?].
  repeat (apply orb_false_iff; split);
    try (apply andb_false_iff; left; apply N.leb_gt; lia);
    try (apply andb_false_iff; right; apply N.leb_gt; lia);
    apply N.eqb_neq; lia.
Qed.

Lemma scale_zero q : scale q 0 = Qred q.
Proof. unfold scale. apply Qred_complete. cbn. ring. Qed.

Lemma exponent_part_dot_or_end u : dot_or_end u -> exponent_part u = 0.
Proof. intros [->|[u' ->]]; reflexivity. Qed.

Lemma dot_or_end_not_digit u :
  dot_or_end u -> match u with c :: _ => is_digit c = false | [] => True end.
Proof. intros [->|[u' ->]]; [exact I | reflexivity]. Qed.

Lemma not_Infinity c s : c <> 73%N -> is_prefix (lit "Infinity") (c :: s) = false.
Proof.
  intros Hc. change (lit "Infinity") with (73%N :: lit "nfinity").
  cbn [is_prefix]. destruct (N.eqb_spec 73 c); [congruence | reflexivity].
Qed.

Lemma signed_plus_to_number q : signed false (to_number q) = to_number q.
Proof.
  unfold to_number. destruct (Qle_bool q 0); [reflexivity|].
  cbv zeta. now destruct (Qle_bool (pow2 1024) _).
Qed.

Lemma parseFloat_digits ds :
  ds <> [] -> all_digits ds -> parseFloat ds = to_number (decimal_of ds []).
Proof.
  intros Hne Hds. destruct ds as [|c ds]; [contradiction|].
  pose proof (Forall_inv Hds) as Hc. cbn beta in Hc.
  unfold parseFloat. rewrite trimStart_id by (cbn; now apply digit_not_space).
  assert (Hrange : (48 <= c <= 57)%N)
    by (unfold is_digit in Hc; apply andb_true_iff in Hc as [?%N.leb_le ?%N.leb_le]; lia).
  destruct (N.eqb_spec c char_minus) as [->|_]; [unfold char_minus in Hrange; lia|].
  destruct (N.eqb_spec c char_plus) as [->|_]; [unfold char_plus in Hrange; lia|].
  unfold unsigned_literal.
  rewrite not_Infinity by lia.
  unfold unsigned_decimal.
  rewrite <- (app_nil_r (c :: ds)) at 1.
  rewrite (span_app is_digit (c :: ds) [] Hds I).
  unfold decimal_of. rewrite signed_plus_to_number. f_equal.
  apply Qred_complete.
  generalize (inject_Z (digits_value (c :: ds))). intros x.
  change (x == x + 0 * 1)%Q. ring.
Qed.

Lemma parseFloat_run ds fs u :
  all_digits ds -> all_digits fs -> dot_or_end u ->
  parseFloat (ds ++ char_dot :: fs ++ u) =
  match ds, fs with
  | [], [] => NaN
  | _, _ => to_number (decimal_of ds fs)
  end.
Proof.
  intros Hds Hfs Hu.
  assert (Hhead : exists c t, ds ++ char_dot :: fs ++ u = c :: t /\
                    is_space c = false /\ c <> char_minus /\ c <> char_plus /\
                    c <> 73%N).
  { destruct ds as [|c ds]; cbn [app].
    - exists char_dot, (fs ++ u). repeat split; discriminate.
    - exists c, (ds ++ char_dot :: fs ++ u).
      pose proof (Forall_inv Hds) as Hc. cbn beta in Hc.
      assert ((48 <= c <= 57)%N)
        by (unfold is_digit in Hc;
            apply andb_true_iff in Hc as [?%N.leb_le ?%N.leb_le]; lia).
      unfold char_minus, char_plus.
      repeat split; [now apply digit_not_space | lia..]. }
  destruct Hhead as (c & t & Heq & Hsp & Hm & Hp & HI).
  unfold parseFloat. rewrite Heq at 1. cbn [trimStart]. rewrite Hsp.
  destruct (N.eqb_spec c char_minus); [contradiction|].
  destruct (N.eqb_spec c char_plus); [contradiction|].
  unfold unsigned_literal. rewrite not_Infinity by assumption.
  rewrite <- Heq. unfold unsigned_decimal.
  rewrite (span_app is_digit ds (char_dot :: fs ++ u) Hds eq_refl).
  rewrite N.eqb_refl.
  rewrite (span_app is_digit fs u Hfs (dot_or_end_not_digit u Hu)).
  rewrite (exponent_part_dot_or_end u Hu), scale_zero.
  destruct ds, fs; try reflexivity; apply signed_plus_to_number.
Qed.



Lemma pow2_pos u : (0 < pow2 u)%Q.
Proof. unfold pow2. now apply Qpower_0_lt. Qed.

Lemma pow2_add a b : (pow2 (a + b) == pow2 a * pow2 b)%Q.
Proof. unfold pow2. apply Qpower_plus. discriminate. Qed.








Lemma pow2_sub a b : (pow2 (a - b) == pow2 a / pow2 b)%Q.
Proof.
  unfold Z.sub. rewrite pow2_add. unfold pow2 at 2. rewrite Qpower_opp.
  reflexivity.
Qed.













(** A run of digits and dots is a digit string, or a (possibly empty) digit
    string, a dot, a (possibly empty) digit string, and then nothing or a
    further dot. *)
Lemma class_run_shape run :
  class_run run ->
  (run <> [] /\ all_digits run) \/
  exists ds fs u, run = ds ++ char_dot :: fs ++ u /\
    all_digits ds /\ all_digits fs /\ dot_or_end u.
Proof.
  intros [Hne Hrun].
  destruct (span_spec is_digit run) as (Hds & Hsplit & Hrest).
  destruct (span is_digit run) as [ds rest]. cbn [fst snd] in *.
  destruct rest as [|d rest].
  - left. rewrite app_nil_r in Hsplit. now subst ds.
  - right. assert (Hd : d = char_dot /\ Forall (fun c => in_class c = true) rest).
    { rewrite Hsplit in Hrun. apply Forall_app in Hrun as [_ Hrun].
      inversion Hrun as [|? ? Hd Hrest']; subst. split; [|assumption].
      unfold in_class in Hd. rewrite Hrest in Hd. cbn in Hd.
      now apply N.eqb_eq. }
    destruct Hd as [-> Hclass].
    destruct (span_spec is_digit rest) as (Hfs & Hsplit' & Hrest').
    destruct (span is_digit rest) as [fs u]. cbn [fst snd] in *.
    exists ds, fs, u. repeat split; try assumption; [congruence|].
    destruct u as [|e u]; [now left|right].
    rewrite Hsplit' in Hclass. apply Forall_app in Hclass as [_ Hclass].
    inversion Hclass as [|? ? He _]; subst.
    unfold in_class in He. rewrite Hrest' in He. cbn in He.
    apply N.eqb_eq in He as ->. now exists u.
Qed.



End SanitizerFacts.

Module ProcessBatchesFacts.
Import JsArray JsArrayFacts Chunk ProcessBatches.
Section Runner.
Context {T R E : Type}.
Implicit Types (s : State T R E) (log : list (Call R E)) (evs : list (Event R E)).

Lemma starts_app log log' : starts (log ++ log') = starts log ++ starts log'.
Proof.
  induction log as [|[w j|j o] log IH]; cbn; [reflexivity| |assumption].
  now rewrite IH.
Qed.

Lemma starts_Started (w : nat) (js : list Z) :
  starts (map (@Started R E w) js) = map (pair w) js.
Proof. induction js as [|j js IH]; cbn; [reflexivity|]. now rewrite IH. Qed.

Lemma In_starts log w j : In (Started w j) log <-> In (w, j) (starts log).
Proof.
  induction log as [|[w' j'|j' o] log IH]; cbn; [tauto| |].
  - rewrite <- IH. split; (intros [Heq|?]; [left; congruence | now right]).
  - rewrite <- IH. split; [intros [?|?]; [discriminate|assumption] | now right].
Qed.

Lemma first_error_app log log' :
  first_error (log ++ log') =
  match first_error log with
  | Some e => Some e
  | None => first_error log'
  end.
Proof.
  induction log as [|[w j|j [r|e]] log IH]; cbn; try assumption; reflexivity.
Qed.

Lemma first_error_Started (w : nat) (js : list Z) :
  first_error (map (@Started R E w) js) = None.
Proof. induction js; cbn; trivial. Qed.

(** Appending entries keeps the barrier when every new call comes after
    the fulfilment of all calls of earlier waves. *)
Lemma barrier_app log new :
  barrier log ->
  (forall w j, In (Started w j) new ->
     forall w' j', (w' < w)%nat -> In (Started w' j') (log ++ new) ->
       exists r, In (Settled j' (Fulfilled r)) log) ->
  barrier (log ++ new).
Proof.
  intros Hold Hnew l1 l2 w j w' j' Hsplit Hin Hlt.
  apply app_eq_app in Hsplit as [l [[-> Hl]|[-> Hl]]].
  - destruct l as [|x l].
    + cbn in Hl. subst new. rewrite app_nil_r in *.
      destruct (Hnew w j (or_introl eq_refl) w' j' Hlt) as [r Hr];
        [apply in_or_app; now left | now exists r].
    + cbn in Hl. injection Hl as Hx Hl2. subst x l2.
      now apply (Hold l1 l w j w' j').
  - subst new.
    assert (Hmem : In (Started w j) (l ++ Started w j :: l2))
      by (apply in_or_app; right; now left).
    destruct (Hnew w j Hmem w' j' Hlt) as [r Hr].
    + rewrite app_assoc. apply in_or_app. now left.
    + exists r. apply in_or_app. now left.
Qed.

(** After a rejection no event starts a call, and the error stays. *)
Lemma failed_step e ev s s' :
  failed_with e s -> step ev s = Some s' ->
  failed_with e s' /\ starts (calls s') = starts (calls s).
Proof.
  unfold failed_with. destruct s as [bs c i0 rs ph it log].
  destruct ev as [|k o];
    destruct ph as [|slots [e'|]|?|e' slots]; cbn -[set_slot];
    try contradiction; try discriminate.
  - intros -> [= <-]. cbn. auto.
  - intros ->. destruct (set_slot k o slots); [|discriminate].
    intros [= <-]. cbn. rewrite starts_app, app_nil_r. auto.
  - intros ->. destruct (set_slot k o slots); [|discriminate].
    intros [= <-]. cbn. rewrite starts_app, app_nil_r. auto.
Qed.

Lemma failed_run e evs s s' :
  failed_with e s -> run evs s = Some s' ->
  failed_with e s' /\ starts (calls s') = starts (calls s).
Proof.
  revert s. induction evs as [|ev evs IH]; intros s Hf; cbn.
  - now intros [= <-].
  - destruct (step ev s) as [s1|] eqn:Hstep; [|discriminate].
    destruct (failed_step e ev s s1 Hf Hstep) as [Hf1 Hs1].
    intros Hrun. destruct (IH s1 Hf1 Hrun) as [? ?]. split; congruence.
Qed.

Lemma barrier_nil : barrier (@nil (Call R E)).
Proof. intros [|? ?] ? ? ? ? ? Heq; discriminate Heq. Qed.

Lemma all_fulfilled_nth (slots : list (option (Outcome R E))) rs k :
  all_fulfilled slots = Some rs -> (k < length slots)%nat ->
  exists r, nth_error slots k = Some (Some (Fulfilled r)).
Proof.
  revert rs k. induction slots as [|[[r|e]|] slots IH]; intros rs k; cbn;
    try discriminate; [lia|].
  destruct (all_fulfilled slots) as [rs'|] eqn:Hall; [|discriminate].
  intros _ Hk. destruct k as [|k]; cbn; [now exists r|].
  apply (IH rs'); [reflexivity | lia].
Qed.

Lemma set_slot_spec k (o : Outcome R E) slots slots' :
  set_slot k o slots = Some slots' ->
  length slots' = length slots /\
  forall k', nth_error slots' k' =
             if Nat.eqb k' k then Some (Some o) else nth_error slots k'.
Proof.
  unfold set_slot. destruct (nth_error slots k) as [[?|]|] eqn:Hk; try discriminate.
  intros [= <-].
  assert (Hlt : (k < length slots)%nat) by (apply nth_error_Some; congruence).
  split.
  - rewrite length_app. cbn. rewrite length_firstn, length_skipn. lia.
  - intros k'. destruct (Nat.eqb_spec k' k) as [->|Hne].
    + rewrite nth_error_app2 by (rewrite length_firstn; lia).
      rewrite length_firstn. replace (k - Nat.min k (length slots))%nat with 0%nat by lia.
      reflexivity.
    + destruct (Nat.lt_ge_cases k' k).
      * rewrite nth_error_app1 by (rewrite length_firstn; lia).
        rewrite nth_error_firstn.
        destruct (Nat.ltb_spec k' k); [reflexivity | lia].
      * rewrite nth_error_app2 by (rewrite length_firstn; lia).
        rewrite length_firstn. rewrite Nat.min_l by lia.
        destruct (k' - k)%nat as [|m] eqn:Hm; [lia|]. cbn [nth_error].
        rewrite nth_error_skipn. f_equal. lia.
Qed.

Lemma nth_error_all_None {A} (cb : list A) k (o : Outcome R E) :
  nth_error (map (fun _ => @None (Outcome R E)) cb) k <> Some (Some o).
Proof.
  revert k. induction cb as [|b cb IH]; intros [|k]; cbn; try discriminate.
  apply IH.
Qed.

Lemma slice_length (bs : list (list T)) (from c : Z) :
  0 <= from -> 0 < c ->
  length (slice bs from (from + c)) =
  Z.to_nat (Z.min c (Z.of_nat (length bs) - from)).
Proof.
  intros Hfrom Hc. rewrite slice_nonneg by lia.
  rewrite length_firstn, length_skipn. lia.
Qed.

Lemma expected_starts_S n c iters :
  expected_starts n c (S iters) =
  expected_starts n c iters ++ expected_wave n c iters.
Proof.
  unfold expected_starts. rewrite seq_S, flat_map_app. cbn.
  now rewrite app_nil_r.
Qed.

Lemma Inv_loop_head c n s :
  0 < c -> at_loop_head c n s -> Inv c n (loop_head s).
Proof.
  intros Hc (Hconc & Hlen & Hbar & Hstarts & Hdone & Hi & Hlast & Herr).
  destruct s as [bs c0 i0 rs ph it log].
  cbn [i batches concurrency results iter calls phase] in *. subst c0.
  unfold loop_head. cbn [i batches concurrency results iter calls].
  destruct (Z.ltb_spec i0 (Z.of_nat (length bs))) as [Hlt|Hge].
  - set (cb := slice bs i0 (i0 + c)).
    assert (Hcb : length cb = Z.to_nat (Z.min c (n - i0)))
      by (subst cb n; apply slice_length; lia).
    assert (Hnew : forall w j,
              In (Started w j) (map (@Started R E it) (wave_idxs i0 cb)) ->
              w = it /\ exists k, j = i0 + Z.of_nat k /\ (k < length cb)%nat).
    { intros w j Hin. apply in_map_iff in Hin as (j0 & [= <- <-] & Hj0).
      split; [reflexivity|]. unfold wave_idxs in Hj0.
      apply in_map_iff in Hj0 as (k & <- & Hk). apply in_seq in Hk.
      exists k. split; [reflexivity | lia]. }
    repeat split; cbn [i batches concurrency results iter calls phase];
      try assumption; try lia.
    + apply barrier_app; [assumption|].
      intros w j Hin w' j' Hlt' Hin'. apply Hnew in Hin as [-> _].
      apply in_app_iff in Hin' as [Hin'|Hin'].
      * now apply Hdone in Hin' as [_ ?].
      * apply Hnew in Hin' as [-> _]. lia.
    + rewrite starts_app, starts_Started, expected_starts_S, Hstarts. f_equal.
      unfold expected_wave, wave_idxs. rewrite map_map, Hcb, Hi.
      reflexivity.
    + intros w j Hin. apply in_app_iff in Hin as [Hin|Hin].
      * apply Hdone in Hin as [? _]. lia.
      * apply Hnew in Hin as [-> _]. lia.
    + intros w j Hin Hw. apply in_app_iff in Hin as [Hin|Hin].
      * apply Hdone in Hin as [_ [r Hr]]. exists r. apply in_app_iff. now left.
      * apply Hnew in Hin as [-> _]. lia.
    + intros w j Hin Hw. rewrite length_map. apply in_app_iff in Hin as [Hin|Hin].
      * apply Hdone in Hin as [? _]. lia.
      * now apply Hnew in Hin as [_ ?].
    + intros k r Hk. now apply nth_error_all_None in Hk.
    + rewrite first_error_app, Herr. apply first_error_Started.
  - repeat split; cbn [i batches concurrency results iter calls phase];
      try assumption; try lia.
    intros w j Hin. now apply Hdone in Hin as [? _].
Qed.

Lemma Inv_resume c n s s' :
  0 < c -> Inv c n s -> resume s = Some s' -> Inv c n s'.
Proof.
  intros Hc (Hconc & Hlen & Hbar & Hstarts & Hlt & Hph).
  destruct s as [bs c0 i0 rs ph it log].
  cbn [i batches concurrency results iter calls phase] in *.
  unfold resume. cbn [i batches concurrency results iter calls phase].
  destruct ph as [|slots [e|]|?|e slots]; try discriminate.
  - (* the call itself *)
    destruct Hph as (-> & -> & Herr). intros [= <-].
    apply Inv_loop_head; [assumption|].
    unfold at_loop_head. cbn [i batches concurrency results iter calls phase].
    split_conj; try assumption; try lia; try (now left).
    intros w j Hin. apply Hlt in Hin. lia.
  - (* [Promise.all] has rejected: the [await] throws *)
    intros [= <-]. destruct Hph as [Hwave Herr].
    repeat split; cbn [i batches concurrency results iter calls phase];
      try assumption; apply Hwave.
  - (* every invocation of the wave is fulfilled *)
    destruct (all_fulfilled slots) as [rs'|] eqn:Hall; [|discriminate].
    intros [= <-]. destruct Hph as [(Hit & Hi & Hrange & Hprev & Hcur & Hslots) Herr].
    cbn [i batches concurrency results iter calls phase] in *.
    apply Inv_loop_head; [assumption|].
    unfold at_loop_head. cbn [i batches concurrency results iter calls phase].
    split_conj; try assumption; try lia.
    intros w j Hin. pose proof (Hlt _ _ Hin) as Hw. split; [assumption|].
    destruct (Nat.eq_dec (S w) it) as [Heq|Hne].
    + destruct (Hcur w j Hin Heq) as (k & -> & Hk).
      destruct (all_fulfilled_nth slots rs' k Hall Hk) as [r Hr].
      exists r. now apply Hslots.
    + apply (Hprev w j Hin). lia.
Qed.

Lemma Inv_settle c n k o s s' :
  Inv c n s -> settle k o s = Some s' -> Inv c n s'.
Proof.
  intros (Hconc & Hlen & Hbar & Hstarts & Hlt & Hph).
  destruct s as [bs c0 i0 rs ph it log].
  cbn [i batches concurrency results iter calls phase] in *.
  unfold settle. cbn [i batches concurrency results iter calls phase].
  assert (Hbar' : barrier (log ++ [Settled (i0 + Z.of_nat k) o])).
  { apply barrier_app; [assumption|]. intros w j [Hin|[]]. discriminate Hin. }
  assert (Hin' : forall w j, In (Started w j) (log ++ [Settled (i0 + Z.of_nat k) o]) ->
            In (Started w j) log).
  { intros w j Hin. apply in_app_iff in Hin as [?|[Hin|[]]];
      [assumption | discriminate Hin]. }
  assert (Hwave : forall slots slots', set_slot k o slots = Some slots' ->
            wave_ok c n (mkState bs c0 i0 rs ph it log) slots ->
            forall ph',
            wave_ok c n (mkState bs c0 i0 rs ph' it
                           (log ++ [Settled (i0 + Z.of_nat k) o])) slots').
  { intros slots slots' Hset (Hit & Hi & Hrange & Hprev & Hcur & Hslots) ph'.
    destruct (set_slot_spec k o slots slots' Hset) as [Hlen' Hnth].
    cbn [i batches concurrency results iter calls phase] in *.
    repeat split; cbn [i batches concurrency results iter calls phase];
      try assumption; try lia.
    - intros w j Hin Hw. destruct (Hprev w j (Hin' w j Hin) Hw) as [r Hr].
      exists r. apply in_app_iff. now left.
    - intros w j Hin Hw. rewrite Hlen'. now apply (Hcur w j (Hin' w j Hin)).
    - intros k' r. rewrite Hnth. destruct (Nat.eqb_spec k' k) as [->|Hne].
      + intros [= ->]. apply in_app_iff. right. now left.
      + intros Hk'. apply in_app_iff. left. now apply Hslots. }
  destruct ph as [|slots f|?|e slots]; try discriminate.
  - destruct (set_slot k o slots) as [slots'|] eqn:Hset; [|discriminate].
    intros [= <-]. destruct Hph as [Hw Herr].
    unfold Inv. cbn [i batches concurrency results iter calls phase].
    split_conj; try assumption.
    + now rewrite starts_app, app_nil_r.
    + intros w j Hin. apply (Hlt w j), Hin', Hin.
    + apply (Hwave slots slots' Hset Hw).
    + rewrite first_error_app, Herr. destruct f, o; reflexivity.
  - destruct (set_slot k o slots) as [slots'|] eqn:Hset; [|discriminate].
    intros [= <-]. destruct Hph as [Hw Herr].
    unfold Inv. cbn [i batches concurrency results iter calls phase].
    split_conj; try assumption.
    + now rewrite starts_app, app_nil_r.
    + intros w j Hin. apply (Hlt w j), Hin', Hin.
    + apply (Hwave slots slots' Hset Hw).
    + now rewrite first_error_app, Herr.
Qed.

Lemma Inv_init (bs : list (list T)) c :
  Inv c (Z.of_nat (length bs)) (mkState (R:=R) (E:=E) bs c 0 [] Fresh 0 []).
Proof.
  repeat split; cbn; try reflexivity; try apply barrier_nil.
  intros w j [].
Qed.

Lemma Inv_run c n evs s s' :
  0 < c -> Inv c n s -> run evs s = Some s' -> Inv c n s'.
Proof.
  intros Hc. revert s. induction evs as [|ev evs IH]; intros s Hinv; cbn.
  - now intros [= <-].
  - destruct (step ev s) as [s1|] eqn:Hstep; [|discriminate].
    apply IH. destruct ev as [|k o]; cbn in Hstep.
    + now apply (Inv_resume c n s).
    + now apply (Inv_settle c n k o s).
Qed.

(** The history records the rejections of the run, in order. *)
Lemma first_error_step ev s s' :
  step ev s = Some s' ->
  first_error (calls s') =
  match first_error (calls s) with
  | Some e => Some e
  | None => first_rejection [ev]
  end.
Proof.
  destruct s as [bs c i0 rs ph it log]. destruct ev as [|k o]; cbn [step].
  - unfold resume, loop_head.
    cbn [i batches concurrency results iter calls phase].
    destruct ph as [|slots [e|]|?|e slots]; try discriminate;
      [| | destruct (all_fulfilled slots); [|discriminate]];
      intros [= <-]; cbn [i batches concurrency results iter calls phase];
      try (destruct (_ <? _);
           cbn [i batches concurrency results iter calls phase];
           rewrite ?first_error_app, ?first_error_Started);
      cbn [first_rejection]; now destruct (first_error log).
  - unfold settle. cbn [i batches concurrency results iter calls phase].
    destruct ph as [|slots f|?|e slots]; try discriminate;
      (destruct (set_slot k o slots); [|discriminate]);
      intros [= <-]; cbn [i batches concurrency results iter calls phase];
      rewrite first_error_app; cbn; now destruct o.
Qed.

Lemma first_error_run evs s s' :
  run evs s = Some s' ->
  first_error (calls s') =
  match first_error (calls s) with
  | Some e => Some e
  | None => first_rejection evs
  end.
Proof.
  revert s. induction evs as [|ev evs IH]; intros s; cbn [run].
  - intros [= <-]. now destruct (first_error (calls s)).
  - destruct (step ev s) as [s1|] eqn:Hstep; [|discriminate].
    intros Hrun. rewrite (IH s1 Hrun), (first_error_step ev s s1 Hstep).
    cbn [first_rejection]. destruct (first_error (calls s)); [reflexivity|].
    destruct ev as [|k [r|e]]; reflexivity.
Qed.

Lemma first_rejection_split evs e :
  first_rejection evs = Some e ->
  exists evs1 k evs2,
    evs = evs1 ++ Settle k (Rejected e) :: evs2 /\
    first_rejection evs1 = None.
Proof.
  induction evs as [|ev evs IH]; cbn [first_rejection]; [discriminate|].
  destruct ev as [|k [r|e']].
  - intros H. destruct (IH H) as (evs1 & k & evs2 & -> & Hnone).
    now exists (Resume :: evs1), k, evs2.
  - intros H. destruct (IH H) as (evs1 & k' & evs2 & -> & Hnone).
    now exists (Settle k (Fulfilled r) :: evs1), k', evs2.
  - intros [= ->]. now exists [], k, evs.
Qed.

Lemma run_split evs1 evs2 s s' :
  run (evs1 ++ evs2) s = Some s' ->
  exists s1, run evs1 s = Some s1 /\ run evs2 s1 = Some s'.
Proof.
  revert s. induction evs1 as [|ev evs1 IH]; intros s; cbn [app run].
  - intros H. now exists s.
  - destruct (step ev s) as [s1|]; [apply IH | discriminate].
Qed.

Lemma settle_starts k o s s' :
  settle k o s = Some s' -> starts (calls s') = starts (calls s).
Proof.
  unfold settle. destruct (phase s) as [|slots f|?|e slots]; try discriminate;
    (destruct (set_slot k o slots); [|discriminate]);
    intros [= <-]; cbn [calls]; rewrite starts_app; cbn;
    now rewrite app_nil_r.
Qed.

(** C3. Whatever the order in which the invocations settle: the processor
    is called wave by wave, each wave for the next [concurrency] batches
    (for 7 batches and the limit 3 a run that returns has made the calls
    0 1 2, then 3 4 5, then 6: waves of 3, 3 and 1); a batch of a wave is
    started only after every invocation of the earlier waves is fulfilled;
    and when an invocation rejects, the calls of the run are those made
    before that rejection, so that no batch of a later wave begins, the
    function throws the error of the first rejection, and it never
    returns. *)
Theorem processBatches_waves (items : list T) (batchSize c : Z)
    (s0 s : State T R E) evs :
  0 < c ->
  processBatches items batchSize c = Some s0 ->
  run evs s0 = Some s ->
  barrier (calls s) /\
  starts (calls s) =
    expected_starts (Z.of_nat (length (batches s0))) c (iter s) /\
  (length (batches s0) = 7%nat -> c = 3 ->
   forall rs, phase s = Returned rs ->
     starts (calls s) =
       [(0%nat, 0); (0%nat, 1); (0%nat, 2); (1%nat, 3); (1%nat, 4);
        (1%nat, 5); (2%nat, 6)] /\
     map (wave_size (calls s)) [0; 1; 2; 3]%nat = [3; 3; 1; 0]%nat) /\
  first_error (calls s) = first_rejection evs /\
  (forall e, first_rejection evs = Some e ->
     failed_with e s /\
     (exists evs1 k evs2 s1,
        evs = evs1 ++ Settle k (Rejected e) :: evs2 /\
        first_rejection evs1 = None /\
        run evs1 s0 = Some s1 /\
        starts (calls s) = starts (calls s1)) /\
     (forall evs' s', run evs' s = Some s' ->
        failed_with e s' /\ starts (calls s') = starts (calls s) /\
        forall rs, phase s' <> Returned rs) /\
     exists s' slots,
       (s' = s \/ resume s = Some s') /\ phase s' = Threw e slots).
Proof.
  intros Hc Hinit Hrun.
  unfold processBatches in Hinit.
  destruct (chunk items batchSize) as [bs|]; [|discriminate].
  injection Hinit as <-. cbn [batches].
  pose proof (Inv_run c _ evs _ s Hc (Inv_init bs c) Hrun)
    as (Hconc & Hlen & Hbar & Hstarts & Hlt & Hph).
  assert (Hfail : forall s1, Inv c (Z.of_nat (length bs)) s1 ->
            forall e, first_error (calls s1) = Some e -> failed_with e s1).
  { intros s1 (_ & _ & _ & _ & _ & Hph1) e He. unfold failed_with.
    destruct (phase s1) as [|slots f|?|e' slots].
    - destruct Hph1 as (_ & _ & Hnone). congruence.
    - destruct Hph1 as [_ Hf]. subst f. now rewrite He.
    - destruct Hph1 as (_ & _ & Hnone). congruence.
    - destruct Hph1 as [_ Hf]. congruence. }
  pose proof (first_error_run evs _ s Hrun) as Hlog. cbn in Hlog.
  split_conj; try assumption.
  - intros H7 -> rs Hret. rewrite Hret in Hph.
    destruct Hph as (Hge & Hlast & _). rewrite H7 in *.
    assert (Hiter : iter s = 3%nat) by lia.
    assert (Hs : starts (calls s) =
              [(0%nat, 0); (0%nat, 1); (0%nat, 2); (1%nat, 3); (1%nat, 4);
        (1%nat, 5); (2%nat, 6)])
      by (rewrite Hstarts, Hiter; reflexivity).
    split; [exact Hs|]. unfold wave_size. rewrite Hs. reflexivity.
  - intros e He.
    assert (Hf : failed_with e s).
    { apply (Hfail s); [|congruence].
      exact (Inv_run c _ evs _ s Hc (Inv_init bs c) Hrun). }
    split_conj; [exact Hf | | |].
    + destruct (first_rejection_split evs e He)
        as (evs1 & k & evs2 & Hevs & Hnone).
      rewrite Hevs in Hrun.
      destruct (run_split evs1 _ _ s Hrun) as (s1 & Hrun1 & Hrun2).
      exists evs1, k, evs2, s1. split_conj; try assumption.
      cbn [run] in Hrun2.
      destruct (step (Settle k (Rejected e)) s1) as [s2|] eqn:Hstep;
        [|discriminate].
      pose proof (Inv_run c _ evs1 _ s1 Hc (Inv_init bs c) Hrun1) as Hinv1.
      assert (Hinv2 : Inv c (Z.of_nat (length bs)) s2)
        by (apply (Inv_settle c _ k (Rejected e) s1); assumption).
      assert (Hf2 : failed_with e s2).
      { apply (Hfail s2 Hinv2).
        rewrite (first_error_step _ s1 s2 Hstep).
        rewrite (first_error_run evs1 _ s1 Hrun1). cbn [calls first_error].
        now rewrite Hnone. }
      destruct (failed_run e evs2 s2 s Hf2 Hrun2) as [_ ->].
      now apply (settle_starts k (Rejected e)).
    + intros evs' s' Hrun'.
      destruct (failed_run e evs' s s' Hf Hrun') as [Hf' Hs'].
      split_conj; try assumption.
      intros rs Hret. unfold failed_with in Hf'. now rewrite Hret in Hf'.
    + unfold failed_with in Hf. unfold resume.
      destruct (phase s) as [|slots [e'|]|?|e' slots] eqn:Hphase;
        try contradiction; subst e'.
      * eexists _, slots. split; [right; reflexivity | reflexivity].
      * exists s, slots. split; [now left | assumption].
Qed.
End Runner.

(** C3, witness: seven batches of one item and the limit 3.  In the first
    run every invocation is fulfilled, the second wave out of order; in the
    second run the first invocation rejects while the third is pending, and
    the function throws after the wave of the first three calls. *)
Lemma processBatches_waves_witness :
  let ok k v := @Settle Z string k (Fulfilled v) in
  let evs := [Resume; ok 1%nat 10; ok 0%nat 11; ok 2%nat 12;
              Resume; ok 2%nat 13; ok 0%nat 14; ok 1%nat 15;
              Resume; ok 0%nat 16; Resume] in
  let bad := [Resume; ok 1%nat 10; Settle 0 (Rejected "boom"%string);
              Resume; ok 2%nat 12] in
  (exists s0 s,
     0 < 3 /\
     processBatches [1; 2; 3; 4; 5; 6; 7] 1 3 = Some s0 /\
     run evs s0 = Some s /\
     phase s = Returned [11; 10; 12; 14; 15; 13; 16] /\
     barrier (calls s) /\
     map (wave_size (calls s)) [0; 1; 2; 3]%nat = [3; 3; 1; 0]%nat) /\
  (exists s0 s slots,
     processBatches [1; 2; 3; 4; 5; 6; 7] 1 3 = Some s0 /\
     run bad s0 = Some s /\
     first_rejection bad = Some "boom"%string /\
     phase s = Threw "boom"%string slots /\
     starts (calls s) = [(0%nat, 0); (0%nat, 1); (0%nat, 2)] /\
     failed_with "boom"%string s /\
     forall evs' s', run evs' s = Some s' ->
       failed_with "boom"%string s' /\
       starts (calls s') = starts (calls s) /\
       forall rs, phase s' <> Returned rs).
Proof.
  intros ok evs bad.
  destruct (processBatches (R:=Z) (E:=string) [1; 2; 3; 4; 5; 6; 7] 1 3)
    as [s0|] eqn:Hinit; [|vm_compute in Hinit; discriminate Hinit].
  assert (H7 : length (batches s0) = 7%nat)
    by (pose proof Hinit as H; vm_compute in H; injection H as <-;
        reflexivity).
  split.
  - destruct (run evs s0) as [s|] eqn:Hrun.
    + assert (Hphase : phase s = Returned [11; 10; 12; 14; 15; 13; 16]).
      { pose proof Hinit as H. vm_compute in H. injection H as <-.
        vm_compute in Hrun. injection Hrun as <-. reflexivity. }
      destruct (processBatches_waves [1; 2; 3; 4; 5; 6; 7] 1 3 s0 s evs
                  ltac:(lia) Hinit Hrun) as (Hbar & _ & Hwaves & _).
      exists s0, s. split_conj; try reflexivity; try assumption.
      apply (Hwaves H7 eq_refl _ Hphase).
    + pose proof Hinit as H. vm_compute in H. injection H as <-.
      vm_compute in Hrun. discriminate Hrun.
  - destruct (run bad s0) as [s|] eqn:Hrun.
    + assert (Hs : (exists slots, phase s = Threw "boom"%string slots) /\
                   starts (calls s) = [(0%nat, 0); (0%nat, 1); (0%nat, 2)]).
      { pose proof Hinit as H. vm_compute in H. injection H as <-.
        pose proof Hrun as H'. vm_compute in H'. injection H' as <-.
        split; [eexists|]; reflexivity. }
      destruct Hs as [[slots Hphase] Hstarts].
      destruct (processBatches_waves [1; 2; 3; 4; 5; 6; 7] 1 3 s0 s bad
                  ltac:(lia) Hinit Hrun) as (_ & _ & _ & _ & Hrej).
      destruct (Hrej "boom"%string eq_refl) as (Hf & _ & Hlater & _).
      exists s0, s, slots. split_conj; try reflexivity; assumption.
    + pose proof Hinit as H. vm_compute in H. injection H as <-.
      vm_compute in Hrun. discriminate Hrun.
Defined.
End ProcessBatchesFacts.

Module StreamFacts.
Import JsArrayFacts StreamJsonArray.
Section Reader.
Context {T E : Type}.
Implicit Types (s : State T E) (st : list (PState E)) (g : list nat).

(** Reduces the projections of a state built by the setters. *)
Ltac fields :=
  cbn [input batchSize batch totalProcessed batchCount promises store
       dispatched waiting paused closed ended outer
       with_reader with_input with_promises with_store with_flow
       with_closed with_ended with_outer dispatch] in *.




















(** *** The invocations in flight *)

Lemma tracked_same s s' g :
  store s' = store s -> promises s' = promises s -> paused s' = paused s ->
  waiting s' = waiting s -> (ended s' = NotEnded -> ended s = NotEnded) ->
  tracked s g -> tracked s' g.
Proof.
  unfold tracked. intros -> -> -> -> Hen (B1 & B2 & B3 & B4 & B5 & B6 & B7).
  split_conj; auto.
Qed.

Lemma tracked_reject e s g : tracked s g -> tracked (reject e s) g.
Proof. apply tracked_same; unfold reject; destruct (outer s); auto. Qed.

Lemma tracked_resolve n s g : tracked s g -> tracked (resolve n s) g.
Proof. apply tracked_same; unfold resolve; destruct (outer s); auto. Qed.

Lemma tracked_ended s g en :
  en <> NotEnded -> tracked s g -> tracked (with_ended s en) g.
Proof. intros Hen. apply tracked_same; cbn; auto. contradiction. Qed.

Lemma group_fulfilled_inv st g id :
  group_state st g = GFulfilled -> In id g -> pstate st id = Fulfilled.
Proof.
  induction g as [|id' g IH]; cbn; [contradiction|].
  destruct (pstate st id') eqn:Hid'; try discriminate.
  - destruct (group_state st g); discriminate.
  - intros Hg [->|Hin]; [assumption | now apply IH].
Qed.

Lemma nth_error_pstate st id p : nth_error st id = Some p -> pstate st id = p.
Proof. intros H. unfold pstate. now apply nth_error_nth. Qed.

Lemma set_pstate_pending st id p id' :
  p <> Pending -> nth_error (set_pstate id p st) id' = Some Pending ->
  nth_error st id = Some Pending ->
  nth_error st id' = Some Pending.
Proof.
  intros Hp Hnew Hold. unfold set_pstate in Hnew.
  assert (Hlt : (id < length st)%nat) by (apply nth_error_Some; congruence).
  destruct (Nat.lt_ge_cases id' id) as [Hlt'|Hge].
  - rewrite nth_error_app1 in Hnew by (rewrite length_firstn; lia).
    rewrite nth_error_firstn in Hnew.
    now destruct (Nat.ltb_spec id' id); [|lia].
  - rewrite nth_error_app2 in Hnew by (rewrite length_firstn; lia).
    rewrite length_firstn, Nat.min_l in Hnew by lia.
    destruct (id' - id)%nat as [|m] eqn:Hm; cbn [nth_error] in Hnew.
    + congruence.
    + rewrite nth_error_skipn in Hnew.
      now replace (S id + m)%nat with id' in Hnew by lia.
Qed.

Lemma nth_error_snoc_pending st id :
  nth_error (st ++ [Pending]) id = Some (@Pending E) ->
  nth_error st id = Some Pending \/ id = length st.
Proof.
  intros H. destruct (Nat.lt_ge_cases id (length st)).
  - left. now rewrite nth_error_app1 in H.
  - right. assert ((id < length (st ++ [Pending]))%nat)
      by (apply nth_error_Some; congruence).
    rewrite length_app in *. cbn [length] in *. lia.
Qed.

Lemma pending_ids_length st :
  length (List.filter is_pending st) = length (pending_ids st).
Proof.
  unfold pending_ids. induction st as [|p st IH] using rev_ind; [reflexivity|].
  rewrite List.filter_app, !length_app. cbn [length].
  rewrite Nat.add_1_r, seq_S, List.filter_app, length_app. cbn [Nat.add].
  f_equal.
  - rewrite IH. f_equal. apply List.filter_ext_in. intros id Hid.
    apply in_seq in Hid. unfold pstate. now rewrite app_nth1 by lia.
  - cbn [List.filter]. unfold pstate. rewrite app_nth2, Nat.sub_diag by lia.
    cbn [nth]. now destruct (is_pending p).
Qed.

Lemma pending_count st (L : list nat) :
  (forall id, nth_error st id = Some Pending -> In id L) ->
  (length (List.filter is_pending st) <= length L)%nat.
Proof.
  intros Hin. rewrite pending_ids_length. apply NoDup_incl_length.
  - apply List.NoDup_filter, seq_NoDup.
  - intros id Hid. apply Hin. unfold pending_ids in Hid.
    apply List.filter_In in Hid as [Hid Hp]. apply in_seq in Hid.
    unfold pstate in Hp.
    destruct (nth_error st id) as [p|] eqn:Hnth.
    + rewrite (nth_error_nth _ _ _ Hnth) in Hp. now destruct p.
    + apply nth_error_None in Hnth. lia.
Qed.

Lemma tracked_bound s g : tracked s g -> (in_flight s <= S CONCURRENCY)%nat.
Proof.
  intros (B1 & B2 & B3 & B4 & B5 & B6 & B7). unfold in_flight.
  etransitivity; [apply (pending_count _ _ B1)|].
  rewrite length_app. destruct g as [|id g]; [cbn; lia|].
  assert (length (promises s) <= 1)%nat by (apply B4; discriminate). lia.
Qed.

(** A new invocation, made while the stream flows. *)
Lemma tracked_dispatch s b (g : list nat) :
  (forall id, nth_error (store s) id = Some Pending -> In id (promises s ++ g)) ->
  (forall id, nth_error (store (dispatch b s)) id = Some Pending ->
     In id (promises (dispatch b s) ++ g)).
Proof.
  intros B1 id Hid. fields.
  apply nth_error_snoc_pending in Hid as [Hid| ->].
  - apply B1 in Hid. rewrite !in_app_iff in *. tauto.
  - rewrite !in_app_iff. left. right. now left.
Qed.

Ltac arith :=
  unfold CONCURRENCY in *; rewrite ?length_app in *; cbn [length app] in *; lia.

Lemma tracked_data s v g :
  tracked s g -> flowing s = true -> exists g', tracked (on_data v s) g'.
Proof.
  intros (B1 & B2 & B3 & B4 & B5 & B6 & B7) Hflow.
  unfold flowing in Hflow.
  destruct (paused s) eqn:Hpa; [discriminate|].
  destruct (ended s) eqn:Hen; try (rewrite andb_false_r in Hflow; discriminate).
  specialize (B2 eq_refl). subst g. specialize (B6 eq_refl).
  assert (Hw : waiting s = None).
  { destruct (waiting s) as [g'|]; [|reflexivity].
    now destruct (B5 g' eq_refl). }
  rewrite app_nil_r in B1.
  unfold on_data.
  destruct (batchSize s <=? Z.of_nat (length (batch s ++ [v]))).
  2:{ exists []. unfold tracked. fields. rewrite Hpa, Hw, app_nil_r.
      split_conj; auto; try discriminate; arith. }
  set (s1 := with_reader s [] _ _).
  destruct (CONCURRENCY <=? length (promises s1))%nat eqn:Hfull.
  - apply Nat.leb_le in Hfull. subst s1. fields.
    assert (Hall : firstn CONCURRENCY (promises s) = promises s)
      by (apply firstn_all2; lia).
    assert (Hnone : skipn CONCURRENCY (promises s) = [])
      by (apply skipn_all2; lia).
    rewrite Hall, Hnone. unfold watch_group. fields.
    destruct (group_state (store s) (promises s)) as [| |e] eqn:Hgroup.
    + (* the stream stays paused for the group *)
      exists (promises s). unfold tracked. fields. split_conj; try arith.
      * intros id Hid. apply nth_error_snoc_pending in Hid as [Hid| ->].
        -- apply in_app_iff. right. now apply B1.
        -- now left.
      * intros g' [= <-]. auto.
    + (* the group is fulfilled already: the stream resumes *)
      exists []. unfold tracked. fields.
      split_conj; try arith; try discriminate; auto.
      intros id Hid. apply nth_error_snoc_pending in Hid as [Hid| ->].
      * pose proof (group_fulfilled_inv _ _ id Hgroup (B1 id Hid)) as Hf.
        rewrite (nth_error_pstate _ _ _ Hid) in Hf. discriminate.
      * now left.
    + (* a member is rejected already: the stream stays paused *)
      exists (promises s). apply tracked_same with
        (s := mkState (input s) (batchSize s) [] (totalProcessed s) (batchCount s)
                [length (store s)] (store s ++ [Pending]) (dispatched s) None
                true (closed s) (ended s) (outer s));
        try (unfold reject; fields; destruct (outer s); reflexivity).
      { unfold reject; fields; destruct (outer s); fields; congruence. }
      unfold tracked. fields. split_conj; try arith; try discriminate.
      intros id Hid. apply nth_error_snoc_pending in Hid as [Hid| ->].
      * apply in_app_iff. right. now apply B1.
      * now left.
  - apply Nat.leb_gt in Hfull. subst s1. fields.
    exists []. unfold tracked. fields. rewrite Hpa, Hw, app_nil_r.
    split_conj; auto; try discriminate; try arith.
    intros id Hid. apply nth_error_snoc_pending in Hid as [Hid| ->].
    + apply in_app_iff. left. now apply B1.
    + apply in_app_iff. right. now left.
    + intros Hne. now contradiction Hne.
Qed.

Lemma tracked_end s g :
  tracked s g -> flowing s = true -> exists g', tracked (on_end s) g'.
Proof.
  intros (B1 & B2 & B3 & B4 & B5 & B6 & B7) Hflow.
  unfold flowing in Hflow.
  destruct (paused s) eqn:Hpa; [discriminate|].
  destruct (ended s) eqn:Hen; try (rewrite andb_false_r in Hflow; discriminate).
  specialize (B2 eq_refl). subst g. specialize (B6 eq_refl).
  assert (Hw : waiting s = None).
  { destruct (waiting s) as [g'|]; [|reflexivity].
    now destruct (B5 g' eq_refl). }
  exists []. unfold on_end.
  set (s1 := match batch s with [] => s | _ :: _ => _ end).
  assert (H1 : (forall id, nth_error (store s1) id = Some Pending ->
                  In id (promises s1 ++ [])) /\
               paused s1 = false /\ waiting s1 = None /\
               (length (promises s1) <= S CONCURRENCY)%nat).
  { subst s1. destruct (batch s) as [|x b]; fields.
    - split_conj; auto.
    - split_conj; auto; [|arith].
      intros id Hid. apply nth_error_snoc_pending in Hid as [Hid| ->].
      + apply B1 in Hid. rewrite !in_app_iff in *. tauto.
      + rewrite !in_app_iff. left. right. now left. }
  destruct H1 as (C1 & Cpa & Cw & C7).
  assert (Hcore : forall en, en <> NotEnded -> tracked (with_ended s1 en) []).
  { intros en Hne. unfold tracked. fields. rewrite Cpa, Cw.
    split_conj; auto; try discriminate; try contradiction. }
  destruct (group_state (store s1) (promises s1)) as [| |e];
    [| apply tracked_resolve |]; apply Hcore; discriminate.
Qed.

Lemma tracked_settle s g id p :
  tracked s g -> nth_error (store s) id = Some Pending -> p <> Pending ->
  exists g', tracked (on_settle id p s) g'.
Proof.
  intros (B1 & B2 & B3 & B4 & B5 & B6 & B7) Hid Hp.
  unfold on_settle.
  set (s1 := with_store s (set_pstate id p (store s))).
  assert (C1 : forall id', nth_error (store s1) id' = Some Pending ->
                 In id' (promises s ++ g)).
  { intros id' Hid'. subst s1. fields.
    apply B1. now apply (set_pstate_pending _ id p id'). }
  assert (Hreact : exists g', tracked (react_waiting s1) g').
  { unfold react_waiting. subst s1. fields.
    destruct (waiting s) as [gw|] eqn:Hw.
    - destruct (B5 gw eq_refl) as [-> Hpa].
      destruct (group_state (set_pstate id p (store s)) g) as [| |e] eqn:Hgroup.
      + exists g. unfold tracked. fields. rewrite Hw. split_conj; auto.
      + exists []. unfold tracked. fields. split_conj; auto;
          try discriminate; try contradiction; try arith.
        intros id' Hid'. pose proof (C1 id' Hid') as Hin.
        rewrite app_nil_r. apply in_app_iff in Hin as [Hin|Hin]; [assumption|].
        pose proof (group_fulfilled_inv _ _ id' Hgroup Hin) as Hf.
        rewrite (nth_error_pstate _ _ _ Hid') in Hf. discriminate.
      + exists g. apply tracked_reject. unfold tracked. fields.
        split_conj; auto; discriminate.
    - exists g. unfold tracked. fields. rewrite Hw. split_conj; auto. }
  destruct Hreact as [g' Hg']. exists g'.
  unfold react_ended. destruct (ended (react_waiting s1)) as [|ge| |e];
    try assumption.
  destruct (group_state (store (react_waiting s1)) ge) as [| |e];
    [assumption | apply tracked_resolve |];
    apply tracked_ended; try assumption; discriminate.
Qed.

Lemma tracked_step ev s s' g :
  tracked s g -> step ev s = Some s' -> exists g', tracked s' g'.
Proof.
  intros Ht. destruct ev as [| |e|id ok]; cbn [step].
  - destruct (input s) as [|v rest] eqn:Hin; [discriminate|].
    destruct (flowing s) eqn:Hflow; [|discriminate]. intros [= <-].
    apply (tracked_data (with_input s rest) v g); [|exact Hflow].
    revert Ht. apply tracked_same; auto.
  - destruct (input s) as [|v rest] eqn:Hin; [|discriminate].
    destruct (flowing s) eqn:Hflow; [|discriminate]. intros [= <-].
    now apply (tracked_end s g).
  - destruct (closed s); [discriminate|].
    destruct (ended s) eqn:Hen; try discriminate.
    destruct (at_first_token s); [|discriminate]. intros [= <-].
    exists g. apply tracked_reject. revert Ht. apply tracked_same; auto.
  - destruct (nth_error (store s) id) as [[| |?]|] eqn:Hid; try discriminate.
    intros [= <-]. apply (tracked_settle s g); [assumption..|].
    destruct ok; discriminate.
Qed.

Lemma tracked_run evs s s' g :
  tracked s g -> run evs s = Some s' -> exists g', tracked s' g'.
Proof.
  revert s g. induction evs as [|ev evs IH]; intros s g Ht; cbn.
  - intros [= <-]. now exists g.
  - destruct (step ev s) as [s1|] eqn:Hstep; [|discriminate].
    destruct (tracked_step ev s s1 g Ht Hstep) as [g1 Ht1].
    now apply (IH s1 g1).
Qed.

Lemma tracked_init (items : list T) (size : Z) :
  tracked (E:=E) (streamJsonArray items size) [].
Proof.
  unfold tracked, streamJsonArray. fields.
  split_conj; auto; try discriminate; try arith.
  intros [|id]; discriminate.
Qed.

(** After the handler of ['end'] has thrown, nothing settles the promise
    that [streamJsonArray] returned. *)
Lemma end_threw_step e ev s s' :
  ended s = EndThrew e -> waiting s = None -> step ev s = Some s' ->
  ended s' = EndThrew e /\ waiting s' = None /\ outer s' = outer s.
Proof.
  intros Hen Hw. destruct ev as [| |e'|id ok]; cbn [step].
  - destruct (input s); [discriminate|].
    unfold flowing. rewrite Hen, andb_false_r. discriminate.
  - destruct (input s); [|discriminate].
    unfold flowing. rewrite Hen, andb_false_r. discriminate.
  - rewrite Hen. destruct (closed s); discriminate.
  - destruct (nth_error (store s) id) as [[| |?]|]; try discriminate.
    intros [= <-]. unfold on_settle, react_waiting. fields. rewrite Hw.
    unfold react_ended. fields. rewrite Hen. fields. auto.
Qed.

Lemma end_threw_run e evs s s' :
  ended s = EndThrew e -> waiting s = None -> run evs s = Some s' ->
  outer s' = outer s.
Proof.
  revert s. induction evs as [|ev evs IH]; intros s Hen Hw; cbn.
  - now intros [= <-].
  - destruct (step ev s) as [s1|] eqn:Hstep; [|discriminate].
    destruct (end_threw_step e ev s s1 Hen Hw Hstep) as (Hen1 & Hw1 & Hout).
    intros Hrun. rewrite <- Hout. now apply IH.
Qed.

(** The handler of ['error'] rejects the promise. *)
Lemma error_rejects e s s' :
  step (Error e) s = Some s' -> outer s = OPending -> outer s' = ORejected e.
Proof.
  cbn [step]. destruct (closed s); [discriminate|].
  destruct (ended s); try discriminate.
  destruct (at_first_token s); [|discriminate]. intros [= <-] Hout.
  unfold reject. fields. now rewrite Hout.
Qed.
End Reader.

(** C7 on 10,000 elements in batches of 100, every invocation fulfilled as
    soon as it is made. *)
Example streamJsonArray_ten_thousand :
  option_map outer (run (eager (E:=string) (Z.to_nat 10000) 0 0)
         (streamJsonArray (repeat 0 (Z.to_nat 10000)) 100))
  = Some (OResolved 10000).
Proof. vm_compute. reflexivity. Qed.

(** C1 (the code, not the claim). With batches of 100 and the limit 3, the
    fourth full batch is handed to the processor in the same ['data'] handler
    that pauses the stream for the first three: when none of them has
    settled, four invocations are in flight.  Four is also the most: in every
    reachable state at most [CONCURRENCY + 1] invocations are unsettled. *)
Theorem streamJsonArray_in_flight :
  (exists s,
     run (repeat Data 400) (streamJsonArray (E:=string) (repeat 0 400) 100)
       = Some s /\
     paused s = true /\ in_flight s = 4%nat /\
     (CONCURRENCY < in_flight s)%nat) /\
  (forall (T E : Type) (items : list T) (size : Z) evs s,
     run evs (streamJsonArray (E:=E) items size) = Some s ->
     (in_flight s <= S CONCURRENCY)%nat).
Proof.
  split.
  - eexists. split; [vm_compute; reflexivity|]. vm_compute. auto.
  - intros T E items size evs s Hrun.
    destruct (tracked_run evs _ s [] (tracked_init items size) Hrun) as [g Hg].
    now apply (tracked_bound s g).
Qed.

(** C5 (the code, not the claim). One element, batches of 100: the batch is
    flushed by the handler of ['end'], its invocation rejects, and the
    [await] throws inside the [async] handler, where nothing calls [reject]:
    the promise of [streamJsonArray] stays pending whatever happens next.
    A rejection in a group the stream is paused for does reject it. *)
Theorem streamJsonArray_final_rejection_lost :
  (exists s,
     run [Data; End_; Settle 0 (Some "boom"%string)] (streamJsonArray [7] 100)
       = Some s /\
     ended s = EndThrew "boom"%string /\ outer s = OPending /\
     forall evs s', run evs s = Some s' -> outer s' = OPending) /\
  (exists s,
     run (repeat Data 400 ++ [Settle 1 (Some "boom"%string)])
       (streamJsonArray (repeat 0 400) 100) = Some s /\
     outer s = ORejected "boom"%string).
Proof.
  split_conj.
  - eexists. split; [vm_compute; reflexivity|]. split_conj; try reflexivity.
    intros evs s' Hrun.
    apply (end_threw_run "boom"%string) in Hrun; [exact Hrun | reflexivity..].
  - eexists. split; [vm_compute; reflexivity|]. reflexivity.
Qed.
End StreamFacts.

Module ImportExtensionsFacts.
Import JsString ImportExtensions.

(** The [set] of the source leaves the stored row as it is; the [set] over
    [excluded] stores the values of the input. *)
Lemma source_set_keeps existing proposed :
  apply_set source_set existing proposed = existing.
Proof. now destruct existing. Qed.

Lemma excluded_set_overwrites existing proposed :
  name existing = name proposed ->
  apply_set excluded_set existing proposed = proposed.
Proof. destruct existing, proposed. cbn. now intros ->. Qed.

(** A conflicting row of a statement of the source: stored values kept,
    id and name returned. *)
Lemma upsert_row_conflict v st old :
  extensions (st_db st) !! name v = Some old ->
  name v ∉ st_touched st ->
  exists st',
    upsert_row source_set v st = Some st' /\
    extensions (st_db st') !! name v = Some old /\
    st_returned st' = st_returned st ++ [(id old, name v)].
Proof.
  intros Hold Hfresh. unfold upsert_row.
  destruct (decide (name v ∈ st_touched st)); [contradiction|].
  rewrite Hold. eexists. split; [reflexivity|]. cbn.
  rewrite lookup_insert_eq, source_set_keeps. split; [|reflexivity].
  now destruct old.
Qed.

(** C4 (the code, not the claim). The stored row of a conflicting name keeps
    its date-added, has-features and has-properties: the [set] of the source
    assigns to each column its own stored value, not the value of the input
    ([excluded]).  The returned rows do fill the name-to-id map, with the id
    of the stored row. *)
Theorem importExtensions_conflict_keeps_stored :
  let swapchain := lit "VK_KHR_swapchain" in
  let stored :=
    mkExtRow 1 (mkExtValues swapchain (Some (lit "2020-01-01")) false false) in
  let db := mkDb {[ swapchain := stored ]} 2 in
  let file :=
    [mkExtensionJson swapchain (lit "2021-06-01") (Some (lit "f"))
       (Some (lit "p"))] in
  let row_and_id (r : Db * gmap jsstring Z) :=
    (extensions (fst r) !! swapchain, snd r !! swapchain) in
  option_map row_and_id (importExtensions source_set file db)
    = Some (Some stored, Some 1) /\
  option_map row_and_id (importExtensions excluded_set file db)
    = Some (Some (mkExtRow 1
                    (mkExtValues swapchain (Some (lit "2021-06-01")) true true)),
            Some 1) /\
  (forall existing proposed,
     apply_set source_set existing proposed = existing).
Proof.
  intros swapchain stored db file row_and_id. split_conj.
  - vm_compute. reflexivity.
  - vm_compute. reflexivity.
  - apply source_set_keeps.
Qed.
End ImportExtensionsFacts.

Module DeviceImporterFacts.
Import JsString DeviceImporter.

Lemma extends_refl st : extends st st.
Proof. unfold extends. split_conj; try (exists []; now rewrite app_nil_r); reflexivity. Qed.

Lemma extends_trans st1 st2 st3 :
  extends st1 st2 -> extends st2 st3 -> extends st1 st3.
Proof.
  unfold extends.
  intros ([a1 A1] & [a2 A2] & [a3 A3] & [a4 A4] & [a5 A5] & [a6 A6] & [a7 A7] & A8)
         ([b1 B1] & [b2 B2] & [b3 B3] & [b4 B4] & [b5 B5] & [b6 B6] & [b7 B7] & B8).
  rewrite B1, B2, B3, B4, B5, B6, B7, B8, A1, A2, A3, A4, A5, A6, A7, A8.
  rewrite <- !app_assoc. split_conj; eauto.
Qed.

Lemma appends_ret {A} (a : A) : appends (ret a).
Proof. intros st. apply extends_refl. Qed.

Lemma appends_lift {A} (r : Result A) : appends (lift r).
Proof. intros st. apply extends_refl. Qed.

Lemma appends_bind {A B} (m : M A) (k : A -> M B) :
  appends m -> (forall a, appends (k a)) -> appends (bind m k).
Proof.
  intros Hm Hk st. unfold bind. specialize (Hm st).
  destruct (m st) as [st' [a|]]; cbn [fst] in *; [|assumption].
  eapply extends_trans; [exact Hm | apply Hk].
Qed.

Lemma appends_when (b : bool) (m : M unit) : appends m -> appends (when b m).
Proof. destruct b; [trivial | intros _; apply appends_ret]. Qed.

Lemma appends_for_each {A} (items : list A) (body : A -> M unit) :
  (forall x, appends (body x)) -> appends (for_each items body).
Proof.
  intros Hbody. induction items as [|x items IH]; cbn [for_each].
  - apply appends_ret.
  - apply appends_bind; [apply Hbody | intros _; exact IH].
Qed.

Ltac one_more :=
  intros st; unfold extends; cbn; split_conj;
  try (exists []; now rewrite app_nil_r); try (eexists; reflexivity);
  reflexivity.

Lemma appends_push_device r : appends (push_device r).
Proof. one_more. Qed.

Lemma appends_push_deviceExt r : appends (push_deviceExt r).
Proof. one_more. Qed.

Lemma appends_push_limits r : appends (push_limits r).
Proof. one_more. Qed.

Lemma appends_push_coreFeatures r : appends (push_coreFeatures r).
Proof. one_more. Qed.

Lemma appends_push_coreProps r : appends (push_coreProps r).
Proof. one_more. Qed.

Lemma appends_push_extFeatures r : appends (push_extFeatures r).
Proof. one_more. Qed.

Lemma appends_push_extProps r : appends (push_extProps r).
Proof. one_more. Qed.

Create HintDb appends.

#[local] Hint Resolve appends_ret appends_lift appends_when appends_for_each
  appends_push_device appends_push_deviceExt appends_push_limits
  appends_push_coreFeatures appends_push_coreProps appends_push_extFeatures
  appends_push_extProps : appends.

Ltac appends_tac :=
  repeat first
    [ apply appends_bind; [|intros ?]
    | apply appends_when
    | apply appends_for_each; intros ?
    | solve [auto with appends] ].

Lemma appends_stage_extended report reportId key payload push :
  (forall r, appends (push r)) ->
  appends (stage_extended report reportId key payload push).
Proof. intros Hpush. unfold stage_extended. appends_tac. Qed.

Lemma appends_transform_report extensionMap report :
  appends (transform_report extensionMap report).
Proof.
  unfold transform_report, stage_extensions, stage_limits, stage_core.
  appends_tac; apply appends_stage_extended; auto with appends.
Qed.

(** The loop never throws: each report is wrapped in its [try]. *)
Lemma total_caught (m : M unit) : total (try_catch m count_error).
Proof.
  intros st. unfold try_catch. destruct (m st) as [st' [[]|]]; cbn; eauto.
Qed.

Lemma for_each_total {A} (items : list A) (body : A -> M unit) :
  (forall x, total (body x)) -> total (for_each items body).
Proof.
  intros Hbody. induction items as [|x items IH]; intros st; cbn [for_each].
  - now exists tt.
  - unfold bind. destruct (Hbody x st) as [[] Hx].
    destruct (body x st) as [st' r]. cbn [snd] in Hx. subst r. apply IH.
Qed.

Lemma for_each_app {A} (l1 l2 : list A) (body : A -> M unit) st :
  (forall x, total (body x)) ->
  for_each (l1 ++ l2) body st = for_each l2 body (fst (for_each l1 body st)).
Proof.
  intros Hbody. revert st. induction l1 as [|x l1 IH]; intros st; cbn [app for_each].
  - reflexivity.
  - unfold bind. destruct (Hbody x st) as [[] Hx].
    destruct (body x st) as [st' r]. cbn [snd] in Hx. subst r. apply IH.
Qed.

Lemma transform_report_device_throws extensionMap report st :
  device_row report = Throw ->
  transform_report extensionMap report st = (st, Throw).
Proof. intros H. unfold transform_report, bind, lift. now rewrite H. Qed.

(** C6 (as amended). An error thrown while a report is transformed is caught
    and counted once; the rows pushed for that report before the error stay
    in the arrays and nothing is taken out of them (when the error comes from
    building the device row, the first step, nothing was pushed); the loop
    never throws, and it goes on with the remaining reports from there. *)
Theorem processBatch_transform_errors (extensionMap : gmap jsstring Z)
    (pre post : list JSON) (report : JSON) (st : Staged) :
  let mid := fst (processBatch_transform extensionMap pre st) in
  let partial := fst (transform_report extensionMap report mid) in
  let caught := fst (count_error partial) in
  snd (transform_report extensionMap report mid) = Throw ->
  processBatch_transform extensionMap (pre ++ report :: post) st
    = processBatch_transform extensionMap post caught /\
  snd (processBatch_transform extensionMap (pre ++ report :: post) st) = Ok tt /\
  totalErrors caught = S (totalErrors mid) /\
  rows caught = rows partial /\
  extends mid partial /\
  (device_row report = Throw -> partial = mid).
Proof.
  intros mid partial caught Hthrow.
  assert (Htotal : forall r, total (try_catch (transform_report extensionMap r)
                                      count_error))
    by (intros r; apply total_caught).
  assert (Hext : extends mid partial) by apply appends_transform_report.
  split_conj.
  - unfold processBatch_transform. rewrite for_each_app by exact Htotal.
    fold (processBatch_transform extensionMap pre st). fold mid.
    cbn [for_each]. unfold bind at 1, try_catch at 1.
    subst caught partial.
    destruct (transform_report extensionMap report mid) as [st1 r].
    cbn [snd fst] in *. subst r. reflexivity.
  - destruct (for_each_total (pre ++ report :: post) _ Htotal st) as [[] H].
    exact H.
  - subst caught. cbn. f_equal. apply Hext.
  - reflexivity.
  - exact Hext.
  - intros Hdev. subst partial.
    now rewrite transform_report_device_throws.
Qed.

(** C6, witness: a report whose [extensions] is an object, between two
    well-formed ones. *)
Lemma processBatch_transform_errors_witness :
  let good n := obj [("_report_id", JNum n); ("properties", obj []);
                     ("environment", obj [])] in
  let bad := obj [("_report_id", JNum 8); ("properties", obj []);
                  ("environment", obj []); ("extensions", obj [])] in
  let mid := fst (processBatch_transform ∅ [good 7] empty_staged) in
  let partial := fst (transform_report ∅ bad mid) in
  let caught := fst (count_error partial) in
  snd (transform_report ∅ bad mid) = Throw /\
  (processBatch_transform ∅ ([good 7] ++ bad :: [good 9]) empty_staged
     = processBatch_transform ∅ [good 9] caught /\
   snd (processBatch_transform ∅ ([good 7] ++ bad :: [good 9]) empty_staged) = Ok tt /\
   totalErrors caught = S (totalErrors mid) /\
   rows caught = rows partial /\
   extends mid partial /\
   (device_row bad = Throw -> partial = mid)).
Proof.
  intros good bad mid partial caught.
  assert (Hthrow : snd (transform_report ∅ bad mid) = Throw)
    by (vm_compute; reflexivity).
  split; [exact Hthrow|].
  exact (processBatch_transform_errors ∅ [good 7] [good 9] bad empty_staged Hthrow).
Defined.

(** C6, as stated, fails: the report below throws at
    [for (const ext of report.extensions)], after its device row was pushed;
    the error is counted and the row stays staged. *)
Lemma processBatch_transform_keeps_device_row :
  let bad := obj [("_report_id", JNum 8); ("properties", obj []);
                  ("environment", obj []); ("extensions", obj [])] in
  let after := fst (processBatch_transform ∅ [bad] empty_staged) in
  snd (transform_report ∅ bad empty_staged) = Throw /\
  totalErrors after = 1%nat /\
  map d_reportId (deviceValues after) = [JNum 8] /\
  rows after <> rows (fst (processBatch_transform ∅ [] empty_staged)).
Proof.
  intros bad after. split_conj; try (vm_compute; reflexivity).
  vm_compute. discriminate.
Qed.
End DeviceImporterFacts.

(** * Further properties of the helpers and the batcher *)

Module HelperFacts.
Import JsArray JsArrayFacts Chunk ChunkFacts JsString Sanitizer StringFacts
  SanitizerFacts Measures.

(** X1. A string that holds none of the deleted control characters and has
    no white space at either end comes back from [sanitizeString] as it
    is. *)
Theorem sanitizeString_clean_unchanged (s : jsstring) :
  Forall (fun c => is_stripped c = false) s ->
  head_ok s -> head_ok (rev s) ->
  sanitizeString (SStr s) = s.
Proof.
  intros Hclean Hhead Hlast. destruct s as [|c s]; [reflexivity|].
  unfold sanitizeString. cbn [falsy].
  rewrite (strip_fixed _ Hclean). now apply trim_fixed.
Qed.

(** X1, witness: a device name with a space inside. *)
Lemma sanitizeString_clean_unchanged_witness :
  sanitizeString (SStr (lit "GeForce RTX 4090")) = lit "GeForce RTX 4090".
Proof.
  apply sanitizeString_clean_unchanged.
  - vm_compute. repeat constructor.
  - vm_compute. reflexivity.
  - vm_compute. reflexivity.
Defined.

Lemma trimStart_split s :
  exists ws, s = ws ++ trimStart s /\ Forall (fun c => is_space c = true) ws.
Proof.
  induction s as [|c s (ws & Hs & Hws)]; [now exists []|].
  cbn [trimStart]. destruct (is_space c) eqn:Hc.
  - exists (c :: ws). split; [cbn; congruence | now constructor].
  - now exists [].
Qed.

Lemma filter_visible_spaces ws :
  Forall (fun c => is_space c = true) ws -> List.filter visible ws = [].
Proof.
  induction 1 as [|c ws Hc _ IH]; [reflexivity|].
  cbn. unfold visible at 1. now rewrite Hc.
Qed.

Lemma filter_visible_trimStart s :
  List.filter visible (trimStart s) = List.filter visible s.
Proof.
  destruct (trimStart_split s) as (ws & Hs & Hws).
  rewrite Hs at 2. now rewrite List.filter_app, (filter_visible_spaces ws Hws).
Qed.

Lemma filter_visible_trim s :
  List.filter visible (trim s) = List.filter visible s.
Proof.
  unfold trim, trimEnd.
  rewrite List.filter_rev, filter_visible_trimStart.
  rewrite <- List.filter_rev, rev_involutive.
  apply filter_visible_trimStart.
Qed.

Lemma filter_visible_strip s :
  List.filter visible (strip s) = List.filter visible s.
Proof.
  unfold strip. induction s as [|c s IH]; [reflexivity|].
  cbn. destruct (is_stripped c) eqn:Hc; cbn.
  - unfold visible at 2. rewrite Hc, andb_false_r. exact IH.
  - now rewrite IH.
Qed.

(** X2. [sanitizeString] neither drops, adds nor reorders a character that is
    not white space and not one of the deleted control characters. *)
Theorem sanitizeString_keeps_visible (s : jsstring) :
  List.filter visible (sanitizeString (SStr s)) = List.filter visible s.
Proof.
  destruct s as [|c s]; [reflexivity|].
  unfold sanitizeString. cbn [falsy].
  now rewrite filter_visible_trim, filter_visible_strip.
Qed.

Lemma regex_match_class s run : regex_match s = Some run -> class_run run.
Proof.
  induction s as [|a s IH]; rewrite regex_match_unfold.
  - cbn. discriminate.
  - destruct (match_here (a :: s)) as [run'|] eqn:Hhere.
    + intros [= <-]. now apply match_here_iff in Hhere as (post & _ & Hrun).
    + exact IH.
Qed.

Lemma round_half_even_nonneg x :
  (0 <= x)%Q -> 0 <= round_half_even x.
Proof.
  intros Hx. unfold round_half_even.
  assert (Hf : 0 <= Qfloor x) by (apply (Qfloor_resp_le 0 x Hx)).
  destruct (Qcompare _ _); [destruct (Z.even _)| |]; lia.
Qed.

Lemma to_number_nonneg q :
  match to_number q with
  | NaN => False
  | Infinity neg => neg = false
  | Num v => (0 <= v)%Q
  end.
Proof.
  unfold to_number. destruct (Qle_bool q 0) eqn:Hq; [apply Qle_refl|].
  cbv zeta. destruct (Qle_bool (pow2 1024) _); [reflexivity|].
  rewrite Qred_correct. apply Qmult_le_0_compat.
  - change 0%Q with (inject_Z 0). rewrite <- Zle_Qle.
    apply round_half_even_nonneg. apply Qle_shift_div_l; [apply pow2_pos|].
    rewrite Qmult_0_l. apply Qlt_le_weak, Qnot_le_lt. intros Hle.
    apply Qle_bool_iff in Hle. congruence.
  - apply Qlt_le_weak, pow2_pos.
Qed.

(** X3. [parseCoverage] never returns a negative number or [-Infinity]:
    its result is [NaN], a double that is 0 or more, or [+Infinity], which
    it is for a run that lies beyond the doubles (400 nines). *)
Theorem parseCoverage_never_negative :
  (forall html : MaybeString,
     match parseCoverage html with
     | NaN => True
     | Infinity neg => neg = false
     | Num q => (0 <= q)%Q
     end) /\
  parseCoverage (SStr (char_gt :: repeat 57%N 400 ++ [char_lt])) =
    Infinity false.
Proof.
  split; [|vm_compute; reflexivity].
  intros html. destruct html as [| |[|c s]]; try apply Qle_refl.
  cbn [parseCoverage].
  destruct (regex_match (c :: s)) as [run|] eqn:Hmatch; [|apply Qle_refl].
  apply regex_match_class in Hmatch.
  assert (Hnum : forall q,
            match to_number q with
            | NaN => True
            | Infinity neg => neg = false
            | Num v => (0 <= v)%Q
            end).
  { intros q. pose proof (to_number_nonneg q) as H.
    now destruct (to_number q). }
  destruct (class_run_shape run Hmatch)
    as [[Hne Hds]|(ds & fs & u & -> & Hds & Hfs & Hu)].
  - rewrite parseFloat_digits by assumption. apply Hnum.
  - rewrite parseFloat_run by assumption.
    destruct ds, fs; try exact I; apply Hnum.
Qed.

Section ChunkCount.
Context {T : Type}.

Lemma group_count_step (d size : Z) :
  0 < size -> 0 < d ->
  group_count d size = 1 + group_count (Z.max 0 (d - size)) size.
Proof.
  intros Hsize Hd. unfold group_count.
  destruct (Z_lt_ge_dec d size).
  - rewrite Z.max_l by lia. rewrite (Z.div_small (0 + size - 1)) by lia.
    replace (d + size - 1) with ((d - 1) + 1 * size) by lia.
    rewrite Z.div_add by lia. rewrite Z.div_small by lia. lia.
  - rewrite Z.max_r by lia.
    replace (d + size - 1) with ((d - size + size - 1) + 1 * size) by lia.
    rewrite Z.div_add by lia. lia.
Qed.

Lemma chunk_loop_count fuel (arr : list T) size i chunks r :
  0 < size -> 0 <= i ->
  chunk_loop fuel arr size i chunks = Some r ->
  Z.of_nat (length r) =
  Z.of_nat (length chunks)
  + group_count (Z.max 0 (Z.of_nat (length arr) - i)) size.
Proof.
  intros Hsize. revert i chunks.
  induction fuel as [|fuel IH]; intros i chunks Hi; [discriminate|].
  cbn [chunk_loop].
  destruct (Z.ltb_spec i (Z.of_nat (length arr))) as [Hlt|Hge].
  - intros Hrun. apply IH in Hrun; [|lia]. rewrite Hrun.
    rewrite length_app. cbn [length].
    rewrite (Z.max_r 0 (Z.of_nat (length arr) - i)) by lia.
    rewrite (group_count_step (Z.of_nat (length arr) - i) size) by lia.
    replace (Z.of_nat (length arr) - (i + size))
      with (Z.of_nat (length arr) - i - size) by lia.
    lia.
  - intros [= <-]. rewrite Z.max_l by lia.
    unfold group_count. rewrite Z.div_small by lia. lia.
Qed.

(** X4. For a positive size, [chunk] returns as many groups as the length
    divided by the size, rounded up: this is the number of statements each
    bulk insert of the script issues. *)
Theorem chunk_group_count (arr : list T) (size : Z) (cs : list (list T)) :
  0 < size -> chunk arr size = Some cs ->
  Z.of_nat (length cs) = group_count (Z.of_nat (length arr)) size.
Proof.
  intros Hsize Hrun. unfold chunk, chunk_fuel in Hrun.
  apply chunk_loop_count in Hrun; [|lia..].
  rewrite Hrun. cbn [length]. rewrite Z.sub_0_r, Z.max_r by lia. lia.
Qed.
End ChunkCount.

(** X4, witness: 250 rows in statements of 100. *)
Lemma chunk_group_count_witness :
  exists cs, chunk (repeat 0 250) 100 = Some cs /\ Z.of_nat (length cs) = 3.
Proof.
  destruct (chunk (repeat 0 250) 100) as [cs|] eqn:Hrun;
    [|vm_compute in Hrun; discriminate Hrun].
  exists cs. split; [reflexivity|].
  rewrite (chunk_group_count (repeat 0 250) 100 cs ltac:(lia) Hrun).
  vm_compute. reflexivity.
Defined.
End HelperFacts.

(** * Further properties of the batch runner *)

Module ProcessBatchesMore.
Import JsArray JsArrayFacts Chunk ProcessBatches ProcessBatchesFacts
  ProcessBatchesSpec.
Section Runner.
Context {T R E : Type}.
Implicit Types (s : State T R E) (log : list (Call R E)) (evs : list (Event R E)).

Lemma seq_split (a b : nat) : seq 0 (a + b) = seq 0 a ++ seq a b.
Proof. now rewrite seq_app. Qed.

Lemma map_seq_from (a m : nat) :
  map Z.of_nat (seq a m) =
  map (fun j => Z.of_nat a + Z.of_nat j) (seq 0 m).
Proof.
  revert a. induction m as [|m IH]; intros a; cbn [seq map]; [reflexivity|].
  f_equal; [lia|]. rewrite IH, <- seq_shift, map_map.
  apply map_ext. intros j. lia.
Qed.

(** The calls of the first [k] waves are the batches [0 .. min (k*c) n - 1],
    in order. *)
Lemma expected_starts_indices (n c : Z) (k : nat) :
  0 < c -> 0 <= n ->
  (k = 0%nat \/ (Z.of_nat k - 1) * c < n) ->
  map snd (expected_starts n c k) =
  map Z.of_nat (seq 0 (Z.to_nat (Z.min (Z.of_nat k * c) n))).
Proof.
  intros Hc Hn. induction k as [|k IH]; intros Hk.
  - cbn. rewrite Z.min_l by lia. reflexivity.
  - destruct Hk as [Hk|Hk]; [discriminate|].
    rewrite expected_starts_S, map_app, IH by (destruct k; [now left | right; lia]).
    rewrite Z.min_l by lia.
    unfold expected_wave. rewrite map_map. cbn [snd].
    set (m := Z.to_nat (Z.min c (n - Z.of_nat k * c))).
    replace (Z.to_nat (Z.min (Z.of_nat (S k) * c) n))
      with (Z.to_nat (Z.of_nat k * c) + m)%nat by (subst m; lia).
    rewrite seq_split, map_app. f_equal.
    rewrite map_seq_from. apply map_ext. intros j. lia.
Qed.

(** X5. When [processBatches] returns, the processor has been called exactly
    once for every batch, in the order of the batches. *)
Theorem processBatches_calls_every_batch_once (items : list T)
    (batchSize c : Z) (s0 s : State T R E) evs rs :
  0 < c ->
  processBatches items batchSize c = Some s0 ->
  run evs s0 = Some s ->
  phase s = Returned rs ->
  map snd (starts (calls s)) = map Z.of_nat (seq 0 (length (batches s0))).
Proof.
  intros Hc Hinit Hrun Hret.
  unfold processBatches in Hinit.
  destruct (chunk items batchSize) as [bs|]; [|discriminate].
  injection Hinit as <-. cbn [batches].
  pose proof (Inv_run c _ evs _ s Hc (Inv_init bs c) Hrun)
    as (_ & _ & _ & Hstarts & _ & Hph).
  rewrite Hret in Hph. destruct Hph as (Hge & Hlast & _).
  rewrite Hstarts, expected_starts_indices by (try assumption; lia).
  rewrite Z.min_r by lia. now rewrite Nat2Z.id.
Qed.

Lemma all_fulfilled_values (slots : list (option (Outcome R E))) rs :
  all_fulfilled slots = Some rs ->
  length rs = length slots /\
  forall k r, nth_error rs k = Some r ->
    nth_error slots k = Some (Some (Fulfilled r)).
Proof.
  revert rs. induction slots as [|[[r0|e]|] slots IH]; intros rs; cbn;
    try discriminate.
  - intros [= <-]. split; [reflexivity|]. intros [|k] r; discriminate.
  - destruct (all_fulfilled slots) as [rs'|]; [|discriminate].
    intros [= <-]. destruct (IH rs' eq_refl) as [Hlen Hnth].
    split; [cbn; now rewrite Hlen|].
    intros [|k] r; cbn; [now intros [= ->] | apply Hnth].
Qed.

Lemma results_ok_loop_head c n s :
  0 < c ->
  concurrency s = c -> Z.of_nat (length (batches s)) = n ->
  0 <= i s ->
  (forall j r, nth_error (results s) j = Some r ->
     In (Settled (Z.of_nat j) (Fulfilled r)) (calls s)) ->
  Z.of_nat (length (results s)) = Z.min (i s) n ->
  results_ok c n (loop_head s).
Proof.
  intros Hc Hconc Hn Hi Hlog Hlen.
  destruct s as [bs c0 i0 rs ph it log].
  cbn [i batches concurrency results iter calls phase] in *. subst c0.
  unfold loop_head. cbn [i batches concurrency results iter calls phase].
  destruct (Z.ltb_spec i0 (Z.of_nat (length bs))) as [Hlt|Hge];
    unfold results_ok; cbn [i batches concurrency results iter calls phase].
  - split_conj; try lia.
    + intros j r Hj. apply in_app_iff. left. now apply Hlog.
    + rewrite length_map, slice_length by lia. lia.
  - split_conj; try lia; try reflexivity. exact Hlog.
Qed.

Lemma results_ok_step c n ev s s' :
  0 < c -> Inv c n s -> results_ok c n s -> step ev s = Some s' ->
  results_ok c n s'.
Proof.
  intros Hc (Hconc & Hn & _ & _ & _ & Hph) (Hi & Hlog & Hres).
  destruct s as [bs c0 i0 rs ph it log].
  cbn [i batches concurrency results iter calls phase] in *.
  destruct ev as [|k o]; cbn [step].
  - unfold resume. cbn [i batches concurrency results iter calls phase].
    destruct ph as [|slots [e|]|?|e slots]; try discriminate.
    + intros [= <-]. destruct Hres as [-> ->].
      apply results_ok_loop_head; cbn; try assumption; try lia.
    + intros [= <-]. unfold results_ok.
      cbn [i batches concurrency results iter calls phase]. auto.
    + destruct (all_fulfilled slots) as [rs'|] eqn:Hall; [|discriminate].
      intros [= <-]. destruct Hres as (Hlen & Hlt & Hslots).
      destruct (all_fulfilled_values slots rs' Hall) as [Hlen' Hnth].
      destruct Hph as [(_ & _ & _ & _ & _ & Hfull) _].
      cbn [i batches concurrency results iter calls phase] in Hfull.
      apply results_ok_loop_head;
        cbn [i batches concurrency results iter calls phase];
        try assumption; try lia.
      * intros j r Hj.
        destruct (Nat.lt_ge_cases j (length rs)) as [Hjl|Hjg].
        -- rewrite nth_error_app1 in Hj by assumption. now apply Hlog.
        -- rewrite nth_error_app2 in Hj by assumption.
           apply Hnth, Hfull in Hj.
           now replace (Z.of_nat j) with (i0 + Z.of_nat (j - length rs)) by lia.
      * rewrite length_app, Hlen'. lia.
  - unfold settle. cbn [i batches concurrency results iter calls phase].
    destruct ph as [|slots f|?|e slots]; try discriminate;
      destruct (set_slot k o slots) as [slots'|] eqn:Hset; try discriminate;
      intros [= <-]; destruct (set_slot_spec k o slots slots' Hset) as [Hl _];
      unfold results_ok; cbn [i batches concurrency results iter calls phase];
      (split_conj; [assumption | | lia..]);
      intros j r Hj; apply in_app_iff; left; now apply Hlog.
Qed.

Lemma results_ok_run c n evs s s' :
  0 < c -> Inv c n s -> results_ok c n s -> run evs s = Some s' ->
  results_ok c n s'.
Proof.
  intros Hc. revert s. induction evs as [|ev evs IH]; intros s Hinv Hres; cbn.
  - now intros [= <-].
  - destruct (step ev s) as [s1|] eqn:Hstep; [|discriminate].
    apply IH.
    + destruct ev as [|k o]; cbn in Hstep.
      * now apply (Inv_resume c n s).
      * now apply (Inv_settle c n k o s).
    + now apply (results_ok_step c n ev s).
Qed.

Lemma results_ok_init (bs : list (list T)) c :
  results_ok c (Z.of_nat (length bs)) (mkState (R:=R) (E:=E) bs c 0 [] Fresh 0 []).
Proof.
  unfold results_ok. cbn. split_conj; try reflexivity; try lia.
  intros [|j] r; discriminate.
Qed.

Lemma results_ok_reachable (items : list T) (batchSize c : Z)
    (s0 s : State T R E) evs :
  0 < c ->
  processBatches items batchSize c = Some s0 ->
  run evs s0 = Some s ->
  results_ok c (Z.of_nat (length (batches s0))) s.
Proof.
  intros Hc Hinit Hrun. unfold processBatches in Hinit.
  destruct (chunk items batchSize) as [bs|]; [|discriminate].
  injection Hinit as <-. cbn [batches].
  exact (results_ok_run c _ evs _ s Hc (Inv_init bs c) (results_ok_init bs c) Hrun).
Qed.

(** X6. When [processBatches] returns, its result holds one value per batch,
    and the value at index [j] is the one that the invocation for batch [j]
    was fulfilled with, whatever the order in which the invocations of a
    wave settled. *)
Theorem processBatches_results_in_batch_order (items : list T)
    (batchSize c : Z) (s0 s : State T R E) evs rs :
  0 < c ->
  processBatches items batchSize c = Some s0 ->
  run evs s0 = Some s ->
  phase s = Returned rs ->
  length rs = length (batches s0) /\
  forall j r, nth_error rs j = Some r ->
    In (Settled (Z.of_nat j) (Fulfilled r)) (calls s).
Proof.
  intros Hc Hinit Hrun Hret.
  destruct (results_ok_reachable items batchSize c s0 s evs Hc Hinit Hrun)
    as (_ & Hlog & Hph).
  rewrite Hret in Hph. destruct Hph as [-> Hlen]. split; [lia | exact Hlog].
Qed.

(** X7. At no time are more than [concurrency] invocations of the processor
    unsettled. *)
Theorem processBatches_unsettled_bound (items : list T) (batchSize c : Z)
    (s0 s : State T R E) evs :
  0 < c ->
  processBatches items batchSize c = Some s0 ->
  run evs s0 = Some s ->
  Z.of_nat (unsettled s) <= c.
Proof.
  intros Hc Hinit Hrun.
  destruct (results_ok_reachable items batchSize c s0 s evs Hc Hinit Hrun)
    as (_ & _ & Hph).
  unfold unsettled.
  destruct (phase s) as [|slots f|?|e slots]; cbn [slots_of];
    try (cbn; lia);
    destruct Hph as (_ & _ & Hlen);
    pose proof (List.filter_length_le
                  (fun o : option (Outcome R E) =>
                     match o with None => true | Some _ => false end) slots);
    lia.
Qed.

Lemma spinning_step ev s s' :
  spinning s -> step ev s = Some s' -> spinning s'.
Proof.
  intros (Hi & Hc & Hbs & Hcalls & Hph).
  destruct s as [bs c0 i0 rs ph it log].
  cbn [i batches concurrency results iter calls phase] in *. subst.
  assert (Hlt : (0 <? Z.of_nat (length bs)) = true).
  { apply Z.ltb_lt. destruct bs; [contradiction | cbn; lia]. }
  assert (Hslice : slice bs 0 0 = []).
  { change (slice bs 0 (0 + 0) = []). now rewrite slice_nonneg by lia. }
  destruct ev as [|k o]; cbn [step].
  - unfold resume. cbn [i batches concurrency results iter calls phase].
    destruct Hph as [->| ->]; cbn [all_fulfilled]; intros [= <-];
      unfold loop_head; cbn [i batches concurrency results iter calls phase];
      rewrite ?Z.add_0_l, Hlt, Hslice; unfold spinning; cbn; auto 10.
  - unfold settle. cbn [i batches concurrency results iter calls phase].
    destruct Hph as [->| ->]; [discriminate|].
    unfold set_slot. destruct k; discriminate.
Qed.

(** X8. With the limit 0 and at least one batch, [processBatches] never
    returns and never calls the processor: its loop can always go round
    once more. *)
Theorem processBatches_zero_concurrency_spins (items : list T)
    (batchSize : Z) (s0 s : State T R E) evs :
  processBatches items batchSize 0 = Some s0 ->
  batches s0 <> [] ->
  run evs s0 = Some s ->
  calls s = [] /\
  (forall rs, phase s <> Returned rs) /\
  exists s', resume s = Some s'.
Proof.
  intros Hinit Hbs Hrun.
  assert (Hspin : spinning s).
  { assert (H0 : spinning s0).
    { unfold processBatches in Hinit.
      destruct (chunk items batchSize) as [bs|]; [|discriminate].
      injection Hinit as <-. unfold spinning. cbn in *. auto 10. }
    clear Hinit Hbs. revert s0 H0 Hrun.
    induction evs as [|ev evs IH]; intros s0 H0; cbn.
    - now intros [= <-].
    - destruct (step ev s0) as [s1|] eqn:Hstep; [|discriminate].
      apply IH. now apply (spinning_step ev s0). }
  destruct Hspin as (Hi & Hc & Hne & Hcalls & Hph).
  split_conj; [assumption | |].
  - intros rs Hret. destruct Hph as [H|H]; rewrite H in Hret; discriminate.
  - unfold resume. destruct Hph as [-> | ->]; cbn [all_fulfilled]; eauto.
Qed.
End Runner.

Ltac demo_run s0 s Hinit Hrun :=
  destruct (processBatches (R:=Z) (E:=string) [1; 2; 3; 4; 5; 6; 7] 1 3)
    as [s0|] eqn:Hinit; [|vm_compute in Hinit; discriminate Hinit];
  destruct (run demo_events s0) as [s|] eqn:Hrun;
    [|vm_compute in Hinit; injection Hinit as <-;
      vm_compute in Hrun; discriminate Hrun].

Ltac demo_returned s0 s Hinit Hrun Hphase :=
  assert (Hphase : phase s = Returned [11; 10; 12; 14; 15; 13; 16])
    by (let H := fresh in let H' := fresh in
        pose proof Hinit as H; pose proof Hrun as H';
        vm_compute in H; injection H as <-;
        vm_compute in H'; injection H' as <-; reflexivity).

(** X5, witness. *)
Lemma processBatches_calls_every_batch_once_witness :
  exists s0 s,
    processBatches (R:=Z) (E:=string) [1; 2; 3; 4; 5; 6; 7] 1 3 = Some s0 /\
    run demo_events s0 = Some s /\
    map snd (starts (calls s)) = map Z.of_nat (seq 0 (length (batches s0))).
Proof.
  demo_run s0 s Hinit Hrun. demo_returned s0 s Hinit Hrun Hphase.
  exists s0, s. split; [reflexivity|]. split; [exact Hrun|].
  exact (processBatches_calls_every_batch_once [1; 2; 3; 4; 5; 6; 7] 1 3 s0 s
           demo_events _ ltac:(lia) Hinit Hrun Hphase).
Defined.

(** X6, witness. *)
Lemma processBatches_results_in_batch_order_witness :
  exists s0 s rs,
    processBatches (R:=Z) (E:=string) [1; 2; 3; 4; 5; 6; 7] 1 3 = Some s0 /\
    run demo_events s0 = Some s /\
    phase s = Returned rs /\
    length rs = length (batches s0) /\
    forall j r, nth_error rs j = Some r ->
      In (Settled (Z.of_nat j) (Fulfilled r)) (calls s).
Proof.
  demo_run s0 s Hinit Hrun. demo_returned s0 s Hinit Hrun Hphase.
  exists s0, s, [11; 10; 12; 14; 15; 13; 16].
  split; [reflexivity|]. split; [exact Hrun|]. split; [exact Hphase|].
  exact (processBatches_results_in_batch_order [1; 2; 3; 4; 5; 6; 7] 1 3 s0 s
           demo_events _ ltac:(lia) Hinit Hrun Hphase).
Defined.

(** X7, witness. *)
Lemma processBatches_unsettled_bound_witness :
  exists s0 s,
    processBatches (R:=Z) (E:=string) [1; 2; 3; 4; 5; 6; 7] 1 3 = Some s0 /\
    run demo_events s0 = Some s /\
    Z.of_nat (unsettled s) <= 3.
Proof.
  demo_run s0 s Hinit Hrun.
  exists s0, s. split; [reflexivity|]. split; [exact Hrun|].
  exact (processBatches_unsettled_bound [1; 2; 3; 4; 5; 6; 7] 1 3 s0 s
           demo_events ltac:(lia) Hinit Hrun).
Defined.

(** X8, witness: the limit 0 on two batches, three turns of the loop. *)
Lemma processBatches_zero_concurrency_spins_witness :
  exists s0 s,
    processBatches (R:=Z) (E:=string) [1; 2] 1 0 = Some s0 /\
    run [Resume; Resume; Resume] s0 = Some s /\
    calls s = [] /\
    (forall rs, phase s <> Returned rs) /\
    exists s', resume s = Some s'.
Proof.
  destruct (processBatches (R:=Z) (E:=string) [1; 2] 1 0)
    as [s0|] eqn:Hinit; [|vm_compute in Hinit; discriminate Hinit].
  assert (Hbs : batches s0 <> []).
  { pose proof Hinit as H. vm_compute in H. injection H as <-. discriminate. }
  destruct (run [Resume; Resume; Resume] s0) as [s|] eqn:Hrun;
    [|vm_compute in Hinit; injection Hinit as <-;
      vm_compute in Hrun; discriminate Hrun].
  exists s0, s. split; [reflexivity|]. split; [exact Hrun|].
  exact (processBatches_zero_concurrency_spins [1; 2] 1 s0 s
           [Resume; Resume; Resume] Hinit Hbs Hrun).
Defined.
End ProcessBatchesMore.

(** * Further properties of the streaming reader *)

Module StreamMore.
Import JsArrayFacts Chunk ChunkFacts StreamJsonArray StreamFacts
  StreamJsonArraySpec.

Ltac sfields :=
  cbn [input batchSize batch totalProcessed batchCount promises store
       dispatched waiting paused closed ended outer
       with_reader with_input with_promises with_store with_flow
       with_closed with_ended with_outer dispatch].

Ltac sfields_in H :=
  cbn [input batchSize batch totalProcessed batchCount promises store
       dispatched waiting paused closed ended outer
       with_reader with_input with_promises with_store with_flow
       with_closed with_ended with_outer dispatch] in H.

Section Reader.
Context {T E : Type}.
Implicit Types (s : State T E) (st : list (PState E)) (g : list nat).

(** What the reactions to a settlement leave alone. *)
Lemma react_waiting_frame s :
  input (react_waiting s) = input s /\
  batch (react_waiting s) = batch s /\
  batchSize (react_waiting s) = batchSize s /\
  dispatched (react_waiting s) = dispatched s /\
  store (react_waiting s) = store s /\
  promises (react_waiting s) = promises s /\
  closed (react_waiting s) = closed s /\
  ended (react_waiting s) = ended s.
Proof.
  unfold react_waiting. destruct (waiting s) as [g|]; [|auto 10].
  destruct (group_state (store s) g); unfold reject; sfields;
    try destruct (outer s); sfields; auto 10.
Qed.

Lemma react_ended_frame s :
  input (react_ended s) = input s /\
  batch (react_ended s) = batch s /\
  batchSize (react_ended s) = batchSize s /\
  dispatched (react_ended s) = dispatched s /\
  store (react_ended s) = store s /\
  promises (react_ended s) = promises s /\
  closed (react_ended s) = closed s /\
  waiting (react_ended s) = waiting s /\
  paused (react_ended s) = paused s /\
  (ended (react_ended s) = NotEnded <-> ended s = NotEnded).
Proof.
  unfold react_ended. destruct (ended s) as [|g| |e] eqn:Hen;
    try (rewrite Hen; split_conj; reflexivity || tauto).
  destruct (group_state (store s) g); unfold resolve; sfields;
    try destruct (outer s); sfields; rewrite ?Hen;
    split_conj; try reflexivity; split; discriminate.
Qed.

Lemma set_pstate_length id (p : PState E) st :
  (id < length st)%nat -> length (set_pstate id p st) = length st.
Proof.
  intros Hlt. unfold set_pstate. rewrite length_app, length_firstn.
  cbn [length]. rewrite length_skipn. lia.
Qed.

(** What an event does to the data the reader holds. *)
Lemma step_data ev s s' :
  step ev s = Some s' ->
  batchSize s' = batchSize s /\
  match ev with
  | Data =>
      ended s = NotEnded /\ ended s' = NotEnded /\
      exists v, input s = v :: input s' /\
        ((batchSize s <= Z.of_nat (length (batch s)) + 1 /\
          batch s' = [] /\
          dispatched s' = dispatched s ++ [batch s ++ [v]] /\
          store s' = store s ++ [Pending]) \/
         (Z.of_nat (length (batch s)) + 1 < batchSize s /\
          batch s' = batch s ++ [v] /\
          dispatched s' = dispatched s /\
          store s' = store s))
  | End_ =>
      ended s = NotEnded /\ ended s' <> NotEnded /\
      input s = [] /\ input s' = [] /\ batch s' = batch s /\
      ((batch s = [] /\ dispatched s' = dispatched s /\ store s' = store s) \/
       (batch s <> [] /\ dispatched s' = dispatched s ++ [batch s] /\
        store s' = store s ++ [Pending]))
  | Error _ | Settle _ _ =>
      input s' = input s /\ batch s' = batch s /\
      dispatched s' = dispatched s /\
      length (store s') = length (store s) /\
      (ended s' = NotEnded <-> ended s = NotEnded)
  end.
Proof.
  destruct ev as [| |e|id ok]; cbn [step].
  - destruct (input s) as [|v rest] eqn:Hin; [discriminate|].
    destruct (flowing s) eqn:Hflow; [|discriminate]. intros [= <-].
    unfold flowing in Hflow.
    destruct (ended s) eqn:Hen; try (rewrite andb_false_r in Hflow; discriminate).
    unfold on_data. sfields.
    rewrite length_app. cbn [length].
    destruct (Z.leb_spec (batchSize s) (Z.of_nat (length (batch s) + 1))).
    + destruct (CONCURRENCY <=? length (promises s))%nat.
      * unfold watch_group. sfields.
        destruct (group_state _ _); unfold reject; sfields;
          try destruct (outer s); sfields;
          (split; [reflexivity|]); (split; [reflexivity|]);
          (split; [assumption|]); exists v; (split; [reflexivity|]);
          left; (split_conj; [lia | reflexivity..]).
      * sfields. split; [reflexivity|]. split; [reflexivity|].
        split; [assumption|]. exists v. split; [reflexivity|].
        left. split_conj; [lia | reflexivity..].
    + sfields. split; [reflexivity|]. split; [reflexivity|].
      split; [assumption|]. exists v. split; [reflexivity|].
      right. split_conj; [lia | reflexivity..].
  - destruct (input s) as [|v rest] eqn:Hin; [|discriminate].
    destruct (flowing s) eqn:Hflow; [|discriminate]. intros [= <-].
    unfold flowing in Hflow.
    destruct (ended s) eqn:Hen; try (rewrite andb_false_r in Hflow; discriminate).
    unfold on_end.
    destruct (batch s) as [|v b] eqn:Hb; sfields;
      destruct (group_state _ _); unfold resolve; sfields;
      try destruct (outer s); sfields; rewrite ?Hin, ?Hb, ?Hen;
      (split_conj; try reflexivity; try discriminate);
      solve [left; split_conj; reflexivity
            |right; split_conj; [discriminate | reflexivity..]].
  - destruct (closed s); [discriminate|].
    destruct (ended s) eqn:Hen; try discriminate.
    destruct (at_first_token s); [|discriminate]. intros [= <-].
    unfold reject. sfields. destruct (outer s); sfields; rewrite ?Hen;
      split_conj; try reflexivity; tauto.
  - destruct (nth_error (store s) id) as [[| |?]|] eqn:Hid; try discriminate.
    intros [= <-].
    assert (Hlt : (id < length (store s))%nat)
      by (apply nth_error_Some; congruence).
    unfold on_settle.
    destruct (react_ended_frame (react_waiting (with_store s
                (set_pstate id
                   match ok with None => Fulfilled | Some e => Rejected e end
                   (store s)))))
      as (-> & -> & -> & -> & -> & _ & _ & _ & _ & Hen).
    destruct (react_waiting_frame (with_store s
                (set_pstate id
                   match ok with None => Fulfilled | Some e => Rejected e end
                   (store s))))
      as (-> & -> & -> & -> & -> & _ & _ & Hen').
    rewrite Hen' in Hen. sfields. sfields_in Hen.
    rewrite set_pstate_length by assumption. auto 10.
Qed.
(** *** Every element reaches the processor once *)

Lemma parted_step items ev s s' :
  parted items s -> step ev s = Some s' -> parted items s'.
Proof.
  intros [Hlen Hcat] Hstep. destruct (step_data ev s s' Hstep) as [_ Hev].
  unfold parted. destruct ev as [| |e|id ok].
  - destruct Hev as (Hen & Hen' & v & Hin &
      [(_ & Hb & Hd & Hs)|(_ & Hb & Hd & Hs)]);
      rewrite Hen in Hcat; rewrite Hen', Hb, Hd, Hs; rewrite Hin in Hcat;
      rewrite <- Hcat, ?length_app, ?concat_app, Hlen; cbn [concat length];
      rewrite ?app_nil_r, <- ?app_assoc; cbn [app]; split; reflexivity.
  - destruct Hev as (Hen & Hen' & Hin & Hin' & Hb &
      [(Hb0 & Hd & Hs)|(Hbne & Hd & Hs)]);
      rewrite Hen, Hin in Hcat; rewrite ?Hb0, ?app_nil_r in Hcat;
      rewrite Hd, Hs, ?length_app, ?concat_app, Hlen; cbn [concat length];
      rewrite ?app_nil_r; (split; [reflexivity|]);
      destruct (ended s'); congruence.
  - destruct Hev as (Hin & Hb & Hd & Hs & Hen).
    rewrite Hin, Hb, Hd, Hs. split; [assumption|].
    destruct (ended s) eqn:H1, (ended s') eqn:H2; try assumption;
      solve [destruct Hen as [Hen _]; now specialize (Hen eq_refl)
            |destruct Hen as [_ Hen]; now specialize (Hen eq_refl)].
  - destruct Hev as (Hin & Hb & Hd & Hs & Hen).
    rewrite Hin, Hb, Hd, Hs. split; [assumption|].
    destruct (ended s) eqn:H1, (ended s') eqn:H2; try assumption;
      solve [destruct Hen as [Hen _]; now specialize (Hen eq_refl)
            |destruct Hen as [_ Hen]; now specialize (Hen eq_refl)].
Qed.

Lemma parted_run items evs s s' :
  parted items s -> run evs s = Some s' -> parted items s'.
Proof.
  revert s. induction evs as [|ev evs IH]; intros s Hinv; cbn.
  - now intros [= <-].
  - destruct (step ev s) as [s1|] eqn:Hstep; [|discriminate].
    apply IH. now apply (parted_step items ev s).
Qed.

Lemma parted_init (items : list T) (size : Z) :
  parted items (streamJsonArray (E:=E) items size).
Proof. split; reflexivity. Qed.

(** X9. Whatever the batch size and the order of events, the batches handed
    to the processor hold the elements of the array in order, each once:
    while the stream flows they are a prefix, continued by the batch being
    filled and the elements still to parse; once ['end'] has been handled
    they are the whole array.  Each batch has its own invocation. *)
Theorem streamJsonArray_each_element_once (items : list T) (size : Z)
    evs s :
  run evs (streamJsonArray (E:=E) items size) = Some s ->
  length (store s) = length (dispatched s) /\
  (ended s = NotEnded ->
     concat (dispatched s) ++ batch s ++ input s = items) /\
  (ended s <> NotEnded -> concat (dispatched s) = items).
Proof.
  intros Hrun.
  destruct (parted_run items evs _ s (parted_init items size) Hrun)
    as [Hlen Hcat].
  split; [assumption|]. destruct (ended s); split; congruence.
Qed.

(** *** The batches are those of [chunk] *)

Lemma groups_ok_full (size : Z) (d : list (list T)) :
  0 < size -> Forall (fun b => Z.of_nat (length b) = size) d ->
  groups_ok size d.
Proof.
  intros Hsize Hd. split.
  - intros k Hk. apply (proj1 (List.Forall_forall _ _) Hd), nth_In. lia.
  - eapply List.Forall_impl; [|exact Hd]. intros b Hb. cbn beta in Hb. split; [|lia].
    intros ->. cbn in Hb. lia.
Qed.

Lemma groups_ok_snoc (size : Z) (d : list (list T)) b :
  Forall (fun b => Z.of_nat (length b) = size) d ->
  b <> [] -> Z.of_nat (length b) <= size ->
  groups_ok size (d ++ [b]).
Proof.
  intros Hd Hb Hle. split.
  - intros k Hk. rewrite length_app in Hk. cbn [length] in Hk.
    rewrite app_nth1 by lia.
    apply (proj1 (List.Forall_forall _ _) Hd), nth_In. lia.
  - apply Forall_app. split.
    + eapply List.Forall_impl; [|exact Hd]. intros c Hc. cbn beta in Hc.
      split; [|lia]. intros ->. cbn in Hc. destruct b; [congruence|].
      cbn in Hle. lia.
    + constructor; [auto | constructor].
Qed.

Lemma groups_ok_tail (n : Z) (c : list T) cs :
  groups_ok n (c :: cs) -> groups_ok n cs.
Proof.
  intros [Hfull Hall]. split.
  - intros k Hk. apply (Hfull (S k)). cbn. lia.
  - now inversion Hall.
Qed.

(** A list has one grouping only in which every group but the last is
    full. *)
Lemma groups_unique (n : Z) (cs cs' : list (list T)) :
  groups_ok n cs -> groups_ok n cs' -> concat cs = concat cs' -> cs = cs'.
Proof.
  revert cs'. induction cs as [|c cs IH]; intros cs' Hok Hok' Hcat.
  - destruct cs' as [|c' cs']; [reflexivity|].
    destruct Hok' as [_ Hall]. inversion Hall as [|? ? [Hne _] _]; subst.
    cbn in Hcat. destruct c'; [congruence | discriminate].
  - destruct cs' as [|c' cs'].
    + destruct Hok as [_ Hall]. inversion Hall as [|? ? [Hne _] _]; subst.
      cbn in Hcat. destruct c; [congruence | discriminate].
    + assert (Hlen : length c = length c').
      { destruct Hok as [Hfull Hall], Hok' as [Hfull' Hall'].
        inversion Hall as [|? ? [Hne Hle] Hrest]; subst.
        inversion Hall' as [|? ? [Hne' Hle'] Hrest']; subst.
        cbn [concat] in Hcat.
        pose proof (f_equal (@length T) Hcat) as Hl.
        rewrite !length_app in Hl.
        destruct cs as [|d cs], cs' as [|d' cs'].
        - cbn in Hl. lia.
        - specialize (Hfull' 0%nat). cbn in Hfull'.
          specialize (Hfull' ltac:(lia)). cbn in Hl. lia.
        - specialize (Hfull 0%nat). cbn in Hfull.
          specialize (Hfull ltac:(lia)). cbn in Hl. lia.
        - specialize (Hfull 0%nat). specialize (Hfull' 0%nat).
          cbn in Hfull, Hfull'.
          specialize (Hfull ltac:(lia)). specialize (Hfull' ltac:(lia)). lia. }
      cbn [concat] in Hcat.
      destruct (app_inj_1 c c' (concat cs) (concat cs') Hlen Hcat)
        as [-> Hrest].
      f_equal. apply IH; eauto using groups_ok_tail.
Qed.

Lemma full_batches_step ev s s' :
  full_batches s -> step ev s = Some s' -> full_batches s'.
Proof.
  intros Hinv Hstep. destruct (step_data ev s s' Hstep) as [Hsize Hev].
  unfold full_batches in *. rewrite Hsize. destruct ev as [| |e|id ok].
  - destruct Hev as (Hen & Hen' & v & Hin &
      [(Hle & Hb & Hd & Hs)|(Hlt & Hb & Hd & Hs)]);
      rewrite Hen in Hinv; destruct Hinv as [Hfull Hpart];
      rewrite Hen', Hb, Hd.
    + split; [|cbn; lia]. apply Forall_app. split; [assumption|].
      constructor; [|constructor]. rewrite length_app. cbn [length]. lia.
    + split; [assumption|]. rewrite length_app. cbn [length]. lia.
  - destruct Hev as (Hen & Hen' & Hin & Hin' & Hb &
      [(Hb0 & Hd & Hs)|(Hbne & Hd & Hs)]);
      rewrite Hen in Hinv; destruct Hinv as [Hfull Hpart]; rewrite Hd.
    + assert (groups_ok (batchSize s) (dispatched s))
        by (apply groups_ok_full; [lia | assumption]).
      now destruct (ended s').
    + assert (groups_ok (batchSize s) (dispatched s ++ [batch s]))
        by (apply groups_ok_snoc; [assumption | assumption | lia]).
      now destruct (ended s').
  - destruct Hev as (Hin & Hb & Hd & Hs & Hen). rewrite Hb, Hd.
    destruct (ended s) eqn:H1, (ended s') eqn:H2; try assumption;
      solve [destruct Hen as [Hen _]; now specialize (Hen eq_refl)
            |destruct Hen as [_ Hen]; now specialize (Hen eq_refl)].
  - destruct Hev as (Hin & Hb & Hd & Hs & Hen). rewrite Hb, Hd.
    destruct (ended s) eqn:H1, (ended s') eqn:H2; try assumption;
      solve [destruct Hen as [Hen _]; now specialize (Hen eq_refl)
            |destruct Hen as [_ Hen]; now specialize (Hen eq_refl)].
Qed.

Lemma run_batchSize evs s s' : run evs s = Some s' -> batchSize s' = batchSize s.
Proof.
  revert s. induction evs as [|ev evs IH]; intros s; cbn.
  - now intros [= <-].
  - destruct (step ev s) as [s1|] eqn:Hstep; [|discriminate].
    intros Hrun. rewrite (IH _ Hrun). apply (step_data ev s s1 Hstep).
Qed.

Lemma full_batches_run evs s s' :
  full_batches s -> run evs s = Some s' -> full_batches s'.
Proof.
  revert s. induction evs as [|ev evs IH]; intros s Hinv; cbn.
  - now intros [= <-].
  - destruct (step ev s) as [s1|] eqn:Hstep; [|discriminate].
    apply IH. now apply (full_batches_step ev s).
Qed.

(** X10. With a positive batch size, the batches handed to the processor
    while the stream flows have exactly [batchSize] elements, and over a
    complete read they are the groups of [chunk(items, batchSize)]. *)
Theorem streamJsonArray_batches_are_chunks (items : list T) (size : Z)
    evs s :
  0 < size ->
  run evs (streamJsonArray (E:=E) items size) = Some s ->
  (ended s = NotEnded ->
     Forall (fun b => Z.of_nat (length b) = size) (dispatched s)) /\
  (ended s <> NotEnded -> chunk items size = Some (dispatched s)).
Proof.
  intros Hsize Hrun.
  assert (Hfull : full_batches s).
  { apply (full_batches_run evs (streamJsonArray items size)); [|assumption].
    split; [constructor | cbn; lia]. }
  pose proof (run_batchSize evs _ s Hrun) as Hbs. cbn in Hbs.
  destruct (parted_run items evs _ s (parted_init items size) Hrun)
    as [_ Hcat].
  unfold full_batches in Hfull. rewrite Hbs in Hfull.
  assert (Hchunk : forall cs, groups_ok size cs -> concat cs = items ->
                     chunk items size = Some cs).
  { intros cs Hok Hcs.
    destruct (chunk_loop_acc (S (length items)) items size 0 [] Hsize)
      as (cs' & Hloop & Hcat' & Hok' & _); [lia|lia|].
    unfold chunk, chunk_fuel. rewrite Hloop. cbn [app]. f_equal.
    apply (groups_unique size); try assumption. now rewrite Hcat', Hcs. }
  destruct (ended s); split; try congruence; intros _;
    solve [apply Hfull | now apply Hchunk].
Qed.

(** *** Sizes below 1 *)

Lemma singles_step items ev s s' :
  batchSize s <= 1 -> singles items s -> step ev s = Some s' ->
  singles items s'.
Proof.
  intros Hsize [Hbatch Hcat] Hstep.
  destruct (step_data ev s s' Hstep) as [_ Hev].
  unfold singles. destruct ev as [| |e|id ok].
  - destruct Hev as (Hen & Hen' & v & Hin &
      [(Hle & Hb & Hd & Hs)|(Hlt & Hb & Hd & Hs)]); [|lia].
    rewrite Hb, Hd, Hbatch. split; [reflexivity|].
    rewrite Hin in Hcat. rewrite <- Hcat, <- app_assoc. reflexivity.
  - destruct Hev as (Hen & Hen' & Hin & Hin' & Hb &
      [(Hb0 & Hd & Hs)|(Hbne & Hd & Hs)]); [|contradiction].
    rewrite Hb, Hd, Hin'. rewrite Hin in Hcat. auto.
  - destruct Hev as (Hin & Hb & Hd & Hs & Hen). rewrite Hin, Hb, Hd. auto.
  - destruct Hev as (Hin & Hb & Hd & Hs & Hen). rewrite Hin, Hb, Hd. auto.
Qed.

Lemma singles_run items evs s s' :
  batchSize s <= 1 -> singles items s -> run evs s = Some s' ->
  singles items s'.
Proof.
  revert s. induction evs as [|ev evs IH]; intros s Hsize Hinv; cbn.
  - now intros [= <-].
  - destruct (step ev s) as [s1|] eqn:Hstep; [|discriminate].
    apply IH.
    + now rewrite (proj1 (step_data ev s s1 Hstep)).
    + now apply (singles_step items ev s).
Qed.

(** X11. With a batch size of 1, 0 or less the reader does not hang (as
    [chunk] does for 0): every element parsed is handed to the processor at
    once, as a batch of its own, and nothing is left for ['end']. *)
Theorem streamJsonArray_small_size_singletons (items : list T) (size : Z)
    evs s :
  size <= 1 ->
  run evs (streamJsonArray (E:=E) items size) = Some s ->
  batch s = [] /\
  dispatched s ++ map single (input s) = map single items.
Proof.
  intros Hsize Hrun.
  apply (singles_run items evs (streamJsonArray items size)); try assumption.
  split; reflexivity.
Qed.
(** *** Resolution and rejection *)











Lemma reject_not_resolved e s m :
  outer (reject e s) = OResolved m -> outer s = OResolved m.
Proof. unfold reject. destruct (outer s) eqn:Hout; sfields; congruence. Qed.













(** *** After a rejection *)

Lemma halted_step e ev s s' :
  halted e s -> step ev s = Some s' ->
  halted e s' /\ input s' = input s /\ batch s' = batch s /\
  dispatched s' = dispatched s.
Proof.
  intros (Hen & Hout & Hstop) Hstep.
  assert (Hflow : flowing s = false).
  { unfold flowing. destruct Hstop as [->|[-> _]];
      [now rewrite andb_false_r | reflexivity]. }
  destruct ev as [| |e'|id ok].
  - cbn [step] in Hstep. rewrite Hflow in Hstep.
    destruct (input s); discriminate.
  - cbn [step] in Hstep. rewrite Hflow in Hstep.
    destruct (input s); discriminate.
  - destruct (step_data _ s s' Hstep) as (_ & Hin & Hb & Hd & _).
    split_conj; try assumption.
    cbn [step] in Hstep. destruct (closed s); [discriminate|].
    rewrite Hen in Hstep.
    destruct (at_first_token s); [|discriminate]. injection Hstep as <-.
    unfold halted, reject. sfields. rewrite Hout. sfields. auto.
  - destruct (step_data _ s s' Hstep) as (_ & Hin & Hb & Hd & _ & Hen').
    split_conj; try assumption.
    cbn [step] in Hstep.
    destruct (nth_error (store s) id) as [[| |?]|]; try discriminate.
    injection Hstep as <-. unfold on_settle.
    set (s1 := with_store s _).
    assert (H1 : halted e (react_waiting s1)).
    { unfold halted, stuck, react_waiting. subst s1. sfields.
      destruct (waiting s) as [g|] eqn:Hw.
      - destruct Hstop as [Hc|[_ Hst]]; [|congruence].
        destruct (group_state _ g); unfold reject; sfields;
          rewrite ?Hout; sfields; auto.
      - sfields. destruct Hstop as [Hc|[Hp _]]; auto. }
    assert (Hre : react_ended (react_waiting s1) = react_waiting s1)
      by (unfold react_ended; now rewrite (proj1 H1)).
    now rewrite Hre.
Qed.

Lemma halted_run e evs s s' :
  halted e s -> run evs s = Some s' ->
  halted e s' /\ input s' = input s /\ batch s' = batch s /\
  dispatched s' = dispatched s.
Proof.
  revert s. induction evs as [|ev evs IH]; intros s Hinv; cbn.
  - intros [= <-]. auto.
  - destruct (step ev s) as [s1|] eqn:Hstep; [|discriminate].
    destruct (halted_step e ev s s1 Hinv Hstep) as (H1 & <- & <- & <-).
    now apply IH.
Qed.


(** X14. When [StreamArray] emits ['error'], which it does when the first
    token of the file does not open an array, the promise that
    [streamJsonArray] returned is rejected with that error and stays so: no
    element is parsed, the processor is never called and the ['end']
    handler never runs. *)
Theorem streamJsonArray_stream_error_halts (items : list T) (size : Z)
    e evs s' :
  run (Error e :: evs) (streamJsonArray (E:=E) items size) = Some s' ->
  items = [] /\ outer s' = ORejected e /\ ended s' = NotEnded /\
  dispatched s' = [] /\ store s' = [].
Proof.
  intros Hrun. cbn [run] in Hrun.
  destruct (step (Error e) (streamJsonArray items size)) as [s1|] eqn:Hstep;
    [|discriminate].
  cbn in Hstep. destruct items as [|v items]; [|discriminate].
  injection Hstep as <-. split; [reflexivity|].
  assert (Hh : halted e
            (reject e (with_closed (streamJsonArray (E:=E) (@nil T) size)))).
  { unfold halted. cbn. auto. }
  destruct (halted_run e evs _ s' Hh Hrun) as ((Hen' & Hout' & _) & _ & _ & Hd).
  cbn in Hd.
  assert (Hp : parted (@nil T)
            (reject e (with_closed (streamJsonArray (E:=E) (@nil T) size))))
    by (split; reflexivity).
  destruct (parted_run [] evs _ s' Hp Hrun) as [Hlen _].
  rewrite Hd in Hlen. split_conj; try assumption.
  now destruct (store s').
Qed.
End Reader.

Ltac stream_run s Hrun :=
  match goal with
  | |- context [run ?evs ?s0] =>
      destruct (run evs s0) as [s|] eqn:Hrun;
      [|vm_compute in Hrun; discriminate Hrun]
  end.

(** X9, witness: five elements in batches of two, read to the end. *)
Lemma streamJsonArray_each_element_once_witness :
  exists s : State Z string,
    run [Data; Data; Data; Data; Data; End_]
      (streamJsonArray [1; 2; 3; 4; 5] 2) = Some s /\
    length (store s) = length (dispatched s) /\
    (ended s = NotEnded ->
       concat (dispatched s) ++ batch s ++ input s = [1; 2; 3; 4; 5]) /\
    (ended s <> NotEnded -> concat (dispatched s) = [1; 2; 3; 4; 5]).
Proof.
  stream_run s Hrun. exists s. split; [reflexivity|].
  exact (streamJsonArray_each_element_once [1; 2; 3; 4; 5] 2 _ s Hrun).
Defined.

(** X10, witness: the same read. *)
Lemma streamJsonArray_batches_are_chunks_witness :
  exists s : State Z string,
    run [Data; Data; Data; Data; Data; End_]
      (streamJsonArray [1; 2; 3; 4; 5] 2) = Some s /\
    (ended s = NotEnded ->
       Forall (fun b => Z.of_nat (length b) = 2) (dispatched s)) /\
    (ended s <> NotEnded -> chunk [1; 2; 3; 4; 5] 2 = Some (dispatched s)).
Proof.
  stream_run s Hrun. exists s. split; [reflexivity|].
  exact (streamJsonArray_batches_are_chunks [1; 2; 3; 4; 5] 2 _ s
           ltac:(lia) Hrun).
Defined.

(** X11, witness: the batch size 0. *)
Lemma streamJsonArray_small_size_singletons_witness :
  exists s : State Z string,
    run [Data; Data] (streamJsonArray [1; 2; 3] 0) = Some s /\
    batch s = [] /\
    dispatched s ++ map single (input s) = map single [1; 2; 3].
Proof.
  stream_run s Hrun. exists s. split; [reflexivity|].
  exact (streamJsonArray_small_size_singletons [1; 2; 3] 0 _ s
           ltac:(lia) Hrun).
Defined.



(** X14, witness: a file whose top-level value is not an array. *)
Lemma streamJsonArray_stream_error_halts_witness :
  exists s' : State Z string,
    run [Error "Top-level object should be an array."%string]
      (streamJsonArray [] 100) = Some s' /\
    @nil Z = [] /\
    outer s' = ORejected "Top-level object should be an array."%string /\
    ended s' = NotEnded /\ dispatched s' = [] /\ store s' = [].
Proof.
  stream_run s' Hrun. exists s'. split; [reflexivity|].
  exact (streamJsonArray_stream_error_halts [] 100 _ [] s' Hrun).
Defined.
End StreamMore.

(** * Further properties of the extension import *)

Module ImportExtensionsMore.
Import JsString Sanitizer Chunk ChunkFacts ImportExtensions
  ImportExtensionsFacts ImportCoverage.

Lemma upsert_row_spec cs v st st' :
  upsert_row cs v st = Some st' ->
  (name v ∉ st_touched st) /\
  st_touched st' = {[name v]} ∪ st_touched st /\
  exists row,
    extensions (st_db st') = <[name v := row]> (extensions (st_db st)) /\
    st_returned st' = st_returned st ++ [(id row, name v)] /\
    match extensions (st_db st) !! name v with
    | Some old => row = mkExtRow (id old) (apply_set cs (vals old) v)
    | None => row = mkExtRow (next_id (st_db st)) v
    end.
Proof.
  unfold upsert_row. destruct (decide (name v ∈ st_touched st)); [discriminate|].
  intros [= <-]. cbn. split_conj; try assumption; try reflexivity.
  eexists. split_conj; try reflexivity.
  destruct (extensions (st_db st) !! name v); reflexivity.
Qed.

Lemma ids_kept_refl db : ids_kept db db.
Proof. intros n r Hn. eauto. Qed.

Lemma ids_kept_trans db1 db2 db3 :
  ids_kept db1 db2 -> ids_kept db2 db3 -> ids_kept db1 db3.
Proof.
  intros H12 H23 n r Hn. destruct (H12 n r Hn) as (r2 & Hn2 & Hid2).
  destruct (H23 n r2 Hn2) as (r3 & Hn3 & Hid3). exists r3. split; congruence.
Qed.

Lemma upsert_row_ids cs v st st' :
  upsert_row cs v st = Some st' -> ids_kept (st_db st) (st_db st').
Proof.
  intros Hrow n r Hn.
  destruct (upsert_row_spec cs v st st' Hrow) as (_ & _ & row & -> & _ & Hold).
  destruct (decide (n = name v)) as [->|Hne].
  - rewrite lookup_insert_eq, Hn in *. subst row. eauto.
  - rewrite lookup_insert_ne by congruence. eauto.
Qed.

Lemma upsert_row_keeps v st st' :
  upsert_row source_set v st = Some st' -> rows_kept (st_db st) (st_db st').
Proof.
  intros Hrow n r Hn.
  destruct (upsert_row_spec _ v st st' Hrow) as (_ & _ & row & -> & _ & Hold).
  destruct (decide (n = name v)) as [->|Hne].
  - rewrite lookup_insert_eq, Hn in *. subst row.
    rewrite source_set_keeps. now destruct r.
  - now rewrite lookup_insert_ne by congruence.
Qed.

(** What a statement returns: a row per proposed row, in order, each with
    the id its name has in the table afterwards. *)
Lemma upsert_rows_spec cs batch st st' :
  upsert_rows cs batch st = Some st' ->
  ids_kept (st_db st) (st_db st') /\
  exists rets,
    st_returned st' = st_returned st ++ rets /\
    map snd rets = map name batch /\
    forall i n, In (i, n) rets ->
      exists r, extensions (st_db st') !! n = Some r /\ id r = i.
Proof.
  revert st. induction batch as [|v batch IH]; intros st; cbn [upsert_rows].
  - intros [= <-]. split; [apply ids_kept_refl|]. exists [].
    rewrite app_nil_r. split_conj; try reflexivity. intros i n [].
  - destruct (upsert_row cs v st) as [st1|] eqn:Hrow; [|discriminate].
    intros Hrest. destruct (IH st1 Hrest) as (Hkept & rets & Hret & Hnames & Hids).
    pose proof (upsert_row_ids cs v st st1 Hrow) as Hkept1.
    destruct (upsert_row_spec cs v st st1 Hrow)
      as (_ & _ & row & Hdb & Hret1 & _).
    split; [eapply ids_kept_trans; eassumption|].
    exists ((id row, name v) :: rets). split_conj.
    + rewrite Hret, Hret1, <- app_assoc. reflexivity.
    + cbn. now rewrite Hnames.
    + intros i n [[= <- <-]|Hin]; [|now apply Hids].
      apply Hkept. rewrite Hdb. apply lookup_insert_eq.
Qed.

Lemma upsert_rows_keeps batch st st' :
  upsert_rows source_set batch st = Some st' ->
  rows_kept (st_db st) (st_db st').
Proof.
  revert st. induction batch as [|v batch IH]; intros st; cbn [upsert_rows].
  - intros [= <-] n r Hn. exact Hn.
  - destruct (upsert_row source_set v st) as [st1|] eqn:Hrow; [|discriminate].
    intros Hrest n r Hn. apply (IH st1 Hrest).
    now apply (upsert_row_keeps v st st1 Hrow).
Qed.

Lemma upsert_batches_keeps batches db m db' m' :
  upsert_batches source_set batches db m = Some (db', m') ->
  rows_kept db db'.
Proof.
  revert db m. induction batches as [|b batches IH]; intros db m;
    cbn [upsert_batches].
  - intros [= <- _] n r Hn. exact Hn.
  - unfold insert_on_conflict_update.
    destruct (upsert_rows source_set b (mkStmt db ∅ [])) as [st|] eqn:Hb;
      [|discriminate].
    intros Hrest n r Hn. apply (IH _ _ Hrest).
    now apply (upsert_rows_keeps b _ st Hb).
Qed.

(** X15. With the [set] of the source, the upsert of [importExtensions]
    never changes a row that is in the table already, whatever the file
    holds: a name that conflicts keeps its stored id, date-added,
    has-features and has-properties. *)
Theorem importExtensions_keeps_stored_rows data db db' m :
  importExtensions source_set data db = Some (db', m) ->
  forall n r, extensions db !! n = Some r -> extensions db' !! n = Some r.
Proof.
  unfold importExtensions.
  destruct (chunk (map extensionValue data) INSERT_BATCH_SIZE) as [bs|];
    [|discriminate].
  apply upsert_batches_keeps.
Qed.

(** *** The name-to-id map *)

Lemma record_ids_snoc results r m :
  record_ids (results ++ [r]) m = <[snd r := fst r]> (record_ids results m).
Proof. unfold record_ids. now rewrite fold_left_app. Qed.

Lemma record_ids_lookup results m n :
  (~ In n (map snd results) -> record_ids results m !! n = m !! n) /\
  (In n (map snd results) ->
     exists i, record_ids results m !! n = Some i /\ In (i, n) results).
Proof.
  induction results as [|[i' n'] results IH] using rev_ind.
  - split; [reflexivity | intros []].
  - rewrite record_ids_snoc, map_app. cbn [map snd fst].
    destruct IH as [IHout IHin].
    destruct (decide (n = n')) as [->|Hne].
    + rewrite lookup_insert_eq. split.
      * intros Hout. elim Hout. apply in_app_iff. right. now left.
      * intros _. exists i'. split; [reflexivity|].
        apply in_app_iff. right. now left.
    + rewrite lookup_insert_ne by congruence. split.
      * intros Hout. apply IHout. intros Hin. apply Hout.
        apply in_app_iff. now left.
      * intros Hin. apply in_app_iff in Hin as [Hin|[Heq|[]]];
          [|cbn in Heq; congruence].
        destruct (IHin Hin) as (i & Hi & Hiin). exists i.
        split; [assumption|]. apply in_app_iff. now left.
Qed.

Lemma map_ok_statement cs names batch db m db' results :
  insert_on_conflict_update cs batch db = Some (db', results) ->
  map_ok names db m ->
  map_ok (names ++ map name batch) db' (record_ids results m) /\
  ids_kept db db'.
Proof.
  unfold insert_on_conflict_update.
  destruct (upsert_rows cs batch (mkStmt db ∅ [])) as [st|] eqn:Hb;
    [|discriminate].
  intros [= <- <-] [Hin Hout].
  destruct (upsert_rows_spec cs batch _ st Hb)
    as (Hkept & rets & Hret & Hnames & Hids).
  cbn [st_db st_returned app] in *. subst. split; [|exact Hkept].
  split.
  - intros n Hn.
    destruct (in_dec (fun a b : jsstring => decide (a = b)) n
                (map snd (st_returned st)))
      as [Hret|Hret].
    + destruct (proj2 (record_ids_lookup (st_returned st) m n) Hret)
        as (i & Hi & Hiin).
      destruct (Hids i n Hiin) as (r & Hr & <-). eauto.
    + rewrite (proj1 (record_ids_lookup (st_returned st) m n) Hret).
      apply in_app_iff in Hn as [Hn|Hn]; [|rewrite <- Hnames in Hn; tauto].
      destruct (Hin n Hn) as (r & Hr & Hm).
      destruct (Hkept n r Hr) as (r' & Hr' & Hid). exists r'.
      split; [assumption | congruence].
  - intros n Hn. apply in_app_iff.
    destruct (in_dec (fun a b : jsstring => decide (a = b)) n
                (map snd (st_returned st)))
      as [Hret|Hret].
    + right. now rewrite <- Hnames.
    + left. apply Hout.
      now rewrite <- (proj1 (record_ids_lookup (st_returned st) m n) Hret).
Qed.

Lemma map_ok_batches cs names batches db m db' m' :
  upsert_batches cs batches db m = Some (db', m') ->
  map_ok names db m ->
  map_ok (names ++ map name (concat batches)) db' m'.
Proof.
  revert names db m. induction batches as [|b batches IH]; intros names db m;
    cbn [upsert_batches concat].
  - intros [= <- <-]. now rewrite app_nil_r.
  - destruct (insert_on_conflict_update cs b db) as [[db1 results]|] eqn:Hb;
      [|discriminate].
    intros Hrest Hok.
    destruct (map_ok_statement cs names b db m db1 results Hb Hok) as [Hok1 _].
    rewrite map_app, app_assoc. now apply (IH _ db1 (record_ids results m)).
Qed.

Lemma chunk_hundred {T} (l : list T) :
  exists bs, chunk l INSERT_BATCH_SIZE = Some bs /\ concat bs = l /\
    groups_ok INSERT_BATCH_SIZE bs.
Proof.
  destruct (chunk_loop_acc (S (length l)) l INSERT_BATCH_SIZE 0 [])
    as (cs & Hrun & Hcat & Hok & _); [reflexivity | lia | lia |].
  exists cs. unfold chunk, chunk_fuel. now rewrite Hrun.
Qed.

Lemma map_ok_import cs data db db' m :
  importExtensions cs data db = Some (db', m) ->
  map_ok (map ej_name data) db' m.
Proof.
  unfold importExtensions.
  destruct (chunk_hundred (map extensionValue data)) as (bs & -> & Hcat & _).
  intros Hrun.
  assert (H0 : map_ok [] db ∅).
  { split; [intros n [] | intros n [i Hi]]. now rewrite lookup_empty in Hi. }
  pose proof (map_ok_batches cs [] bs db ∅ db' m Hrun H0) as Hok.
  rewrite Hcat, map_map in Hok. exact Hok.
Qed.

(** X16. When the upsert of [importExtensions] succeeds (with either
    [set]), the map it returns holds exactly the names of the file, each
    with the id of the row of that name in the table, whether the row was
    inserted or was there already. *)
Theorem importExtensions_map_is_exact cs data db db' m :
  importExtensions cs data db = Some (db', m) ->
  forall n i,
    m !! n = Some i <->
    In n (map ej_name data) /\
    exists r, extensions db' !! n = Some r /\ id r = i.
Proof.
  intros Himp n i. destruct (map_ok_import cs data db db' m Himp) as [Hin Hout].
  split.
  - intros Hm. assert (Hn : In n (map ej_name data)) by (apply Hout; eauto).
    split; [assumption|]. destruct (Hin n Hn) as (r & Hr & Hm').
    exists r. split; congruence.
  - intros (Hn & r & Hr & <-). destruct (Hin n Hn) as (r' & Hr' & Hm').
    congruence.
Qed.

(** *** When the upsert fails *)

Lemma upsert_rows_succeeds cs batch st :
  is_Some (upsert_rows cs batch st) <->
  distinct_names batch /\ forall v, In v batch -> name v ∉ st_touched st.
Proof.
  unfold distinct_names. revert st.
  induction batch as [|v batch IH]; intros st; cbn [upsert_rows map].
  - split; [|eauto]. intros _. split; [constructor | intros v []].
  - rewrite List.NoDup_cons_iff.
    destruct (upsert_row cs v st) as [st1|] eqn:Hrow.
    + destruct (upsert_row_spec cs v st st1 Hrow) as (Hfresh & Ht & _).
      rewrite IH, Ht. split.
      * intros [Hnd Hall]. split_conj.
        -- intros Hin. apply in_map_iff in Hin as (v' & Hv' & Hin).
           apply (Hall v' Hin), elem_of_union. left.
           now apply elem_of_singleton.
        -- assumption.
        -- intros v' [<-|Hin]; [assumption|].
           intros Ht'. apply (Hall v' Hin), elem_of_union. now right.
      * intros [[Hnin Hnd] Hall]. split; [assumption|].
        intros v' Hin. apply not_elem_of_union. split; [|apply Hall; now right].
        apply not_elem_of_singleton. intros Heq. apply Hnin.
        apply in_map_iff. eauto.
    + split; [intros [? [=]]|]. intros [_ Hall].
      unfold upsert_row in Hrow.
      destruct (decide (name v ∈ st_touched st)) as [Hin|]; [|discriminate].
      elim (Hall v); [now left | assumption].
Qed.

Lemma upsert_batches_succeeds cs batches db m :
  is_Some (upsert_batches cs batches db m) <-> Forall distinct_names batches.
Proof.
  revert db m. induction batches as [|b batches IH]; intros db m;
    cbn [upsert_batches].
  - split; [constructor | eauto].
  - unfold insert_on_conflict_update.
    pose proof (upsert_rows_succeeds cs b (mkStmt db ∅ [])) as Hb.
    destruct (upsert_rows cs b (mkStmt db ∅ [])) as [st|].
    + rewrite IH. split.
      * intros Hall. constructor; [|assumption]. apply Hb. eauto.
      * intros Hall. now inversion Hall.
    + split; [intros [? [=]]|]. intros Hall. inversion Hall as [|? ? Hd _].
      assert (Hs : is_Some (@None Stmt)).
      { apply Hb. split; [assumption|]. intros v _. cbn. set_solver. }
      destruct Hs as [? [=]].
Qed.

(** X17. The upsert of [importExtensions] fails whenever some name occurs
    twice within one statement, that is within one group of
    [INSERT_BATCH_SIZE] consecutive elements of the file (a statement
    cannot affect a row twice), whatever the table holds and whichever
    [set] is used: a file that names an extension twice in a row is always
    refused. *)
Theorem importExtensions_fails_on_duplicate cs data db :
  (exists batches,
     chunk (map extensionValue data) INSERT_BATCH_SIZE = Some batches /\
     concat batches = map extensionValue data /\
     (~ Forall distinct_names batches ->
      importExtensions cs data db = None)) /\
  (forall ext, importExtensions cs [ext; ext] db = None).
Proof.
  assert (Hfail : forall data0 bs,
            chunk (map extensionValue data0) INSERT_BATCH_SIZE = Some bs ->
            ~ Forall distinct_names bs ->
            importExtensions cs data0 db = None).
  { intros data0 bs Hbs Hdup. unfold importExtensions. rewrite Hbs.
    destruct (upsert_batches cs bs db ∅) as [r|] eqn:Hrun; [|reflexivity].
    elim Hdup. apply (upsert_batches_succeeds cs bs db ∅). rewrite Hrun. eauto. }
  split.
  - destruct (chunk_hundred (map extensionValue data)) as (bs & Hbs & Hcat & _).
    exists bs. split_conj; try assumption. now apply Hfail.
  - intros ext. apply (Hfail [ext; ext] [[extensionValue ext; extensionValue ext]]);
      [reflexivity|].
    intros Hall. inversion Hall as [|? ? Hd _]. unfold distinct_names in Hd.
    cbn in Hd. inversion Hd as [|? ? Hnin _]. apply Hnin. now left.
Qed.

(** *** The coverage rows *)

Lemma has_spec (m : gmap jsstring Z) n : has m n = true <-> is_Some (m !! n).
Proof. unfold has. apply bool_decide_eq_true. Qed.

Lemma filter_all {A} (f : A -> bool) (l : list A) :
  (forall x, In x l -> f x = true) -> List.filter f l = l.
Proof.
  induction l as [|x l IH]; intros Hall; cbn; [reflexivity|].
  rewrite (Hall x) by now left. f_equal. apply IH. intros y Hy.
  apply Hall. now right.
Qed.

(** X18. After a successful upsert, the filter of the pass for ['all']
    keeps every element of [extensions.json], and for every platform each
    coverage row references the id of the stored row of its extension,
    which is an extension of [extensions.json]; elements of the platform
    data with any other name get no row. *)
Theorem importExtensions_coverage_references cs data db db' m :
  importExtensions cs data db = Some (db', m) ->
  all_coverage_source m data = data /\
  forall platform platformData,
    coverageValues m platform platformData =
    map (fun ext =>
           mkCoverageRow
             (default 0 (id <$> extensions db' !! ep_name ext)) platform
             (parseCoverage (ep_coverage ext)) 0 0)
        (List.filter
           (fun ext => bool_decide (ep_name ext ∈ map ej_name data))
           platformData) /\
    Forall (fun row => exists r n,
              In n (map ej_name data) /\
              extensions db' !! n = Some r /\ id r = extensionId row)
      (coverageValues m platform platformData).
Proof.
  intros Himp. destruct (map_ok_import cs data db db' m Himp) as [Hin Hout].
  split.
  - apply filter_all. intros ext Hext. apply has_spec.
    destruct (Hin (ej_name ext)) as (r & _ & Hm); [|eauto].
    apply in_map_iff. eauto.
  - intros platform platformData.
    assert (Hsame : forall ext,
              has m (ep_name ext) =
              bool_decide (ep_name ext ∈ map ej_name data)).
    { intros ext. apply eq_true_iff_eq.
      rewrite has_spec, bool_decide_eq_true, list_elem_of_In.
      split; [apply Hout|]. intros Hn.
      destruct (Hin _ Hn) as (r & _ & Hm). eauto. }
    unfold coverageValues. rewrite (List.filter_ext _ _ Hsame). split.
    + apply map_ext_in. intros ext Hext.
      apply List.filter_In in Hext as [_ Hn].
      apply bool_decide_eq_true, list_elem_of_In in Hn.
      destruct (Hin _ Hn) as (r & Hr & Hm). now rewrite Hr, Hm.
    + apply List.Forall_forall. intros row Hrow.
      apply in_map_iff in Hrow as (ext & <- & Hext).
      apply List.filter_In in Hext as [_ Hn].
      apply bool_decide_eq_true, list_elem_of_In in Hn.
      destruct (Hin _ Hn) as (r & Hr & Hm). exists r, (ep_name ext).
      cbn. rewrite Hm. auto.
Qed.
Ltac import_run db' m Himp :=
  match goal with
  | |- context [importExtensions ?cs ?data ?db] =>
      destruct (importExtensions cs data db) as [[db' m]|] eqn:Himp;
      [|vm_compute in Himp; discriminate Himp]
  end.

(** X15, witness. *)
Lemma importExtensions_keeps_stored_rows_witness :
  exists db' m,
    importExtensions source_set two_extensions one_row_db = Some (db', m) /\
    forall n r, extensions one_row_db !! n = Some r ->
      extensions db' !! n = Some r.
Proof.
  import_run db' m Himp. exists db', m. split; [reflexivity|].
  exact (importExtensions_keeps_stored_rows two_extensions one_row_db db' m
           Himp).
Defined.

(** X16, witness. *)
Lemma importExtensions_map_is_exact_witness :
  exists db' m,
    importExtensions source_set two_extensions one_row_db = Some (db', m) /\
    forall n i,
      m !! n = Some i <->
      In n (map ej_name two_extensions) /\
      exists r, extensions db' !! n = Some r /\ id r = i.
Proof.
  import_run db' m Himp. exists db', m. split; [reflexivity|].
  exact (importExtensions_map_is_exact source_set two_extensions one_row_db
           db' m Himp).
Defined.

(** X18, witness. *)
Lemma importExtensions_coverage_references_witness :
  exists db' m,
    importExtensions source_set two_extensions one_row_db = Some (db', m) /\
    all_coverage_source m two_extensions = two_extensions /\
    forall platform platformData,
      coverageValues m platform platformData =
      map (fun ext =>
             mkCoverageRow
               (default 0 (id <$> extensions db' !! ep_name ext)) platform
               (parseCoverage (ep_coverage ext)) 0 0)
          (List.filter
             (fun ext =>
                bool_decide (ep_name ext ∈ map ej_name two_extensions))
             platformData) /\
      Forall (fun row => exists r n,
                In n (map ej_name two_extensions) /\
                extensions db' !! n = Some r /\ id r = extensionId row)
        (coverageValues m platform platformData).
Proof.
  import_run db' m Himp. exists db', m. split; [reflexivity|].
  exact (importExtensions_coverage_references source_set two_extensions
           one_row_db db' m Himp).
Defined.
End ImportExtensionsMore.

(** * Properties of the device importer's batches *)

Module DeviceStoreFacts.
Import JsString Chunk ChunkFacts DeviceImporter DeviceImporterFacts DeviceStore.

(** *** The map from report ids to device ids *)

Lemma deviceIdMap_snoc results r :
  deviceIdMap (results ++ [r]) = set_deviceId (deviceIdMap results) r.
Proof. unfold deviceIdMap. now rewrite fold_left_app. Qed.

Lemma deviceIdMap_lookup results n d :
  deviceIdMap results !! n = Some d -> n <> 0 /\ In (d, Some n) results.
Proof.
  induction results as [|[i o] results IH] using rev_ind.
  - unfold deviceIdMap. cbn. now rewrite lookup_empty.
  - rewrite deviceIdMap_snoc. unfold set_deviceId. cbn [fst snd].
    assert (Hold : deviceIdMap results !! n = Some d ->
                   n <> 0 /\ In (d, Some n) (results ++ [(i, o)])).
    { intros H. destruct (IH H). split; [assumption|].
      apply in_app_iff. now left. }
    destruct o as [rid|]; [|exact Hold].
    destruct (Z.eqb_spec rid 0) as [->|Hrid]; [exact Hold|].
    destruct (decide (n = rid)) as [->|Hne].
    + rewrite lookup_insert_eq. intros [= <-]. split; [assumption|].
      apply in_app_iff. right. now left.
    + rewrite lookup_insert_ne by congruence. exact Hold.
Qed.

Lemma deviceIdMap_complete results n d :
  n <> 0 -> In (d, Some n) results -> is_Some (deviceIdMap results !! n).
Proof.
  intros Hn. induction results as [|[i o] results IH] using rev_ind;
    [intros []|].
  rewrite deviceIdMap_snoc. unfold set_deviceId. cbn [fst snd].
  intros Hin. apply in_app_iff in Hin as [Hin|[[= -> ->]|[]]].
  - specialize (IH Hin). destruct o as [rid|]; [|exact IH].
    destruct (rid =? 0); [exact IH|].
    destruct (decide (n = rid)) as [->|Hne].
    + rewrite lookup_insert_eq. eauto.
    + now rewrite lookup_insert_ne by congruence.
  - destruct (Z.eqb_spec n 0); [contradiction|].
    rewrite lookup_insert_eq. eauto.
Qed.

(** *** The rows of a related table *)

Lemma with_ids_rows {A} (reportId : A -> JSON) m (vs : list A) :
  map snd (with_ids reportId m vs) =
  List.filter (fun v => bool_decide (is_Some (deviceId_of m (reportId v)))) vs.
Proof. unfold with_ids. rewrite map_map. cbn [snd]. apply map_id. Qed.

Lemma with_ids_In {A} (reportId : A -> JSON) m (vs : list A) d v :
  In (d, v) (with_ids reportId m vs) <->
  In v vs /\ deviceId_of m (reportId v) = Some d.
Proof.
  unfold with_ids. rewrite in_map_iff. split.
  - intros (v' & [= <- <-] & Hin). apply List.filter_In in Hin as [Hin Hv].
    apply bool_decide_eq_true in Hv as [d Hd]. rewrite Hd. auto.
  - intros [Hin Hd]. exists v. rewrite Hd. split; [reflexivity|].
    apply List.filter_In. split; [assumption|].
    apply bool_decide_eq_true. eauto.
Qed.

Lemma chunk_statements {T} (l : list T) :
  exists bs, chunk l ImportExtensions.INSERT_BATCH_SIZE = Some bs /\
    concat bs = l /\ groups_ok ImportExtensions.INSERT_BATCH_SIZE bs.
Proof.
  destruct (chunk_loop_acc (S (length l)) l
              ImportExtensions.INSERT_BATCH_SIZE 0 [])
    as (cs & Hrun & Hcat & Hok & _); [reflexivity | lia | lia |].
  exists cs. unfold chunk, chunk_fuel. now rewrite Hrun.
Qed.

Lemma sent_chunk {A} (reportId : A -> JSON) results (vs : list A) stmts :
  chunk (with_ids reportId (deviceIdMap results) vs)
    ImportExtensions.INSERT_BATCH_SIZE = Some stmts ->
  sent reportId results vs stmts.
Proof.
  destruct (chunk_statements (with_ids reportId (deviceIdMap results) vs))
    as (bs & -> & Hcat & _ & Hall).
  intros [= <-]. unfold sent. rewrite Hcat. split_conj.
  - apply with_ids_rows.
  - exact Hall.
  - intros d v Hin. apply with_ids_In in Hin as [Hin Hd].
    unfold deviceId_of in Hd. destruct (reportId v); try discriminate.
    exists n. split; [reflexivity|]. now apply deviceIdMap_lookup.
  - intros v n d Hin Hrid Hn Hres.
    destruct (deviceIdMap_complete results n d Hn Hres) as [d' Hd'].
    exists d'. apply with_ids_In. split; [assumption|].
    now rewrite Hrid.
Qed.

(** X19. When the device insert of [processBatch] returns, the six related
    inserts are handed, in order and in statements of at most
    [INSERT_BATCH_SIZE] rows, exactly the staged rows whose report id is a
    non-zero number that the device insert returned, each with a device id
    returned for that report id; the rows of every other report (a report
    id of 0 or not a number, or a device row that conflicted and was not
    returned) are dropped.  [totalImported] grows by the number of rows
    returned, and [totalErrors] is not touched. *)
Theorem processBatch_store_sends insert st imported imported' errors' rel :
  processBatch_store insert st imported = Some (Stored imported' errors' rel) ->
  exists deviceResults,
    (deviceValues st = [] /\ deviceResults = [] \/
     insert (deviceValues st) = Inserted deviceResults) /\
    imported' = imported + Z.of_nat (length deviceResults) /\
    errors' = totalErrors st /\
    sent x_reportId deviceResults (deviceExtValues st) (r_extensions rel) /\
    sent l_reportId deviceResults (deviceLimitsValues st) (r_limits rel) /\
    sent c_reportId deviceResults (coreFeaturesValues st) (r_coreFeatures rel) /\
    sent c_reportId deviceResults (corePropsValues st) (r_coreProps rel) /\
    sent e_reportId deviceResults (extFeaturesValues st) (r_extFeatures rel) /\
    sent e_reportId deviceResults (extPropsValues st) (r_extProps rel).
Proof.
  assert (Hrel : forall results rel0,
            insertRelated (deviceIdMap results) st = Some rel0 ->
            sent x_reportId results (deviceExtValues st) (r_extensions rel0) /\
            sent l_reportId results (deviceLimitsValues st) (r_limits rel0) /\
            sent c_reportId results (coreFeaturesValues st) (r_coreFeatures rel0) /\
            sent c_reportId results (corePropsValues st) (r_coreProps rel0) /\
            sent e_reportId results (extFeaturesValues st) (r_extFeatures rel0) /\
            sent e_reportId results (extPropsValues st) (r_extProps rel0)).
  { intros results rel0. unfold insertRelated. cbv zeta.
    destruct (chunk (with_ids x_reportId _ _) _) as [a|] eqn:Ha; [|discriminate].
    destruct (chunk (with_ids l_reportId _ _) _) as [b|] eqn:Hb; [|discriminate].
    destruct (chunk (with_ids c_reportId _ (coreFeaturesValues st)) _)
      as [c|] eqn:Hc; [|discriminate].
    destruct (chunk (with_ids c_reportId _ (corePropsValues st)) _)
      as [d|] eqn:Hd; [|discriminate].
    destruct (chunk (with_ids e_reportId _ (extFeaturesValues st)) _)
      as [e|] eqn:He; [|discriminate].
    destruct (chunk (with_ids e_reportId _ (extPropsValues st)) _)
      as [f|] eqn:Hf; [|discriminate].
    intros [= <-]. cbn [r_extensions r_limits r_coreFeatures r_coreProps
                        r_extFeatures r_extProps].
    split_conj; now apply sent_chunk. }
  unfold processBatch_store. destruct (deviceValues st) as [|dv dvs] eqn:Hdv.
  - destruct (insertRelated ∅ st) as [rel0|] eqn:Hins; [|discriminate].
    intros [= <- <- <-]. exists []. split; [now left|].
    split; [cbn; lia|]. split; [reflexivity|]. now apply Hrel.
  - destruct (insert (dv :: dvs)) as [results|]; [|discriminate].
    destruct (insertRelated (deviceIdMap results) st) as [rel0|] eqn:Hins;
      [|discriminate].
    intros [= <- <- <-]. exists results. split; [now right|].
    split; [reflexivity|]. split; [reflexivity|]. now apply Hrel.
Qed.

(** *** What the transformation of a report stages *)

Lemma grows_for_refl rid st : grows_for rid st st.
Proof.
  unfold grows_for, related_ids. split_conj; try reflexivity.
  repeat constructor; exists []; now rewrite app_nil_r.
Qed.

Lemma grows_for_trans rid st1 st2 st3 :
  grows_for rid st1 st2 -> grows_for rid st2 st3 -> grows_for rid st1 st3.
Proof.
  intros (Hd1 & He1 & H1) (Hd2 & He2 & H2). unfold grows_for.
  split_conj; try congruence. revert H1 H2. generalize (related_ids st1), (related_ids st2),
    (related_ids st3). intros l1 l2 l3 H1. revert l3.
  induction H1 as [|a b l1 l2 Hab _ IH]; intros l3 H2;
    inversion H2 as [|? c ? l3' Hbc H2']; subst; constructor.
  - destruct Hab as (la & -> & Ha), Hbc as (lb & -> & Hb).
    exists (la ++ lb). rewrite app_assoc. split; [reflexivity|].
    apply Forall_app. now split.
  - now apply IH.
Qed.

Lemma stages_ret {A} rid (a : A) : stages_for rid (ret a).
Proof. intros st. apply grows_for_refl. Qed.

Lemma stages_lift {A} rid (r : Result A) : stages_for rid (lift r).
Proof. intros st. apply grows_for_refl. Qed.

Lemma stages_bind {A B} rid (m : M A) (k : A -> M B) :
  stages_for rid m -> (forall a, stages_for rid (k a)) ->
  stages_for rid (bind m k).
Proof.
  intros Hm Hk st. unfold bind. specialize (Hm st).
  destruct (m st) as [st' [a|]]; cbn [fst] in *; [|assumption].
  eapply grows_for_trans; [exact Hm | apply Hk].
Qed.

Lemma stages_when rid (b : bool) (m : M unit) :
  stages_for rid m -> stages_for rid (when b m).
Proof. destruct b; [trivial | intros _; apply stages_ret]. Qed.

Lemma stages_for_each {A} rid (items : list A) (body : A -> M unit) :
  (forall x, stages_for rid (body x)) -> stages_for rid (for_each items body).
Proof.
  intros Hbody. induction items as [|x items IH]; cbn [for_each].
  - apply stages_ret.
  - apply stages_bind; [apply Hbody | intros _; exact IH].
Qed.

Ltac one_row :=
  intros st; unfold grows_for, related_ids; cbn; rewrite ?map_app;
  split_conj; try reflexivity;
  repeat (constructor;
          [first [ eexists [_]; split; [reflexivity | now repeat constructor]
                 | exists []; now rewrite app_nil_r ] |]);
  constructor.

Lemma stages_push_deviceExt rid e v :
  stages_for rid (push_deviceExt (mkDeviceExtRow rid e v)).
Proof. one_row. Qed.

Lemma stages_push_limits rid a b c :
  stages_for rid (push_limits (mkLimitsRow rid a b c)).
Proof. one_row. Qed.

Lemma stages_push_coreFeatures rid v p :
  stages_for rid (push_coreFeatures (mkCoreRow rid v p)).
Proof. one_row. Qed.

Lemma stages_push_coreProps rid v p :
  stages_for rid (push_coreProps (mkCoreRow rid v p)).
Proof. one_row. Qed.

Lemma stages_push_extFeatures rid a b c :
  stages_for rid (push_extFeatures (mkExtendedRow rid a b c)).
Proof. one_row. Qed.

Lemma stages_push_extProps rid a b c :
  stages_for rid (push_extProps (mkExtendedRow rid a b c)).
Proof. one_row. Qed.

#[local] Hint Resolve stages_ret stages_lift stages_push_deviceExt
  stages_push_limits stages_push_coreFeatures stages_push_coreProps
  stages_push_extFeatures stages_push_extProps : appends.

Ltac stages_tac :=
  repeat first
    [ apply stages_bind; [|intros ?]
    | apply stages_when
    | apply stages_for_each; intros ?
    | solve [auto with appends] ].

Lemma stages_related extensionMap report rid props :
  stages_for rid
    (stage_extensions extensionMap report rid ;;;
     stage_limits props rid ;;;
     stage_core report rid ;;;
     stage_extended report rid "devicefeatures2" "supported"
       push_extFeatures ;;;
     stage_extended report rid "deviceproperties2" "value" push_extProps).
Proof.
  unfold stage_extensions, stage_limits, stage_core, stage_extended.
  stages_tac.
Qed.

Lemma device_row_reportId report d :
  device_row report = Ok d -> prop report "_report_id" = Ok (d_reportId d).
Proof.
  unfold device_row, rbind.
  repeat match goal with
         | |- match ?x with Ok _ => _ | Throw => _ end = _ -> _ =>
             destruct x; [|discriminate]
         end.
  now intros [= <-].
Qed.

(** One report: its device row, when it can be built, and related rows
    for its report id only. *)
Lemma transform_report_shape extensionMap report st :
  match device_row report with
  | Ok d =>
      grows_for (d_reportId d)
        (fst (push_device d st))
        (fst (transform_report extensionMap report st))
  | Throw => fst (transform_report extensionMap report st) = st
  end.
Proof.
  destruct (device_row report) as [d|] eqn:Hd.
  - pose proof (device_row_reportId report d Hd) as Hid.
    unfold transform_report. unfold bind at 1, lift at 1. rewrite Hd.
    unfold bind at 1. cbn [push_device fst snd].
    set (st1 := mkStaged _ _ _ _ _ _ _ _).
    unfold bind at 1, lift at 1. rewrite Hid.
    destruct (prop report "properties") as [props|] eqn:Hprops.
    + unfold bind at 1, lift at 1.
      apply (stages_related extensionMap report (d_reportId d) props st1).
    + unfold bind at 1, lift at 1. cbn [fst]. apply grows_for_refl.
  - now rewrite transform_report_device_throws.
Qed.
(** *** No related row without its device row *)

Lemma Forall2_Forall {A} (R : A -> A -> Prop) (P : A -> Prop) l l' :
  (forall a b, R a b -> P a -> P b) ->
  Forall2 R l l' -> Forall P l -> Forall P l'.
Proof.
  intros HR H. induction H as [|a b l l' Hab _ IH]; intros Hl; constructor;
    inversion Hl; subst; eauto.
Qed.

Lemma covered_grows rid st st' :
  grows_for rid st st' ->
  In rid (map d_reportId (deviceValues st)) -> covered st -> covered st'.
Proof.
  intros (Hd & _ & Hrel) Hin Hcov. unfold covered in *. rewrite Hd.
  revert Hrel Hcov. apply Forall2_Forall.
  intros old new (l & -> & Hl) Hold. apply Forall_app. split; [assumption|].
  eapply List.Forall_impl; [|exact Hl]. now intros ? <-.
Qed.

Lemma covered_push_device d st : covered st -> covered (fst (push_device d st)).
Proof.
  unfold covered, related_ids. cbn. rewrite map_app. intros Hcov.
  eapply List.Forall_impl; [|exact Hcov]. intros l Hl.
  eapply List.Forall_impl; [|exact Hl]. intros rid Hrid.
  apply in_app_iff. now left.
Qed.

Lemma covered_transform_report extensionMap report st :
  covered st -> covered (fst (transform_report extensionMap report st)).
Proof.
  intros Hcov. pose proof (transform_report_shape extensionMap report st) as H.
  destruct (device_row report) as [d|]; [|now rewrite H].
  apply (covered_grows _ _ _ H); [|now apply covered_push_device].
  cbn. rewrite map_app. apply in_app_iff. right. now left.
Qed.

Lemma for_each_cons {A} (x : A) items (body : A -> M unit) st :
  total (body x) ->
  for_each (x :: items) body st = for_each items body (fst (body x st)).
Proof.
  intros Hx. cbn [for_each]. unfold bind. destruct (Hx st) as [[] H].
  destruct (body x st) as [st' r]. cbn [snd] in H. now subst r.
Qed.

Lemma covered_processBatch extensionMap batch st :
  covered st -> covered (fst (processBatch_transform extensionMap batch st)).
Proof.
  unfold processBatch_transform. revert st.
  induction batch as [|report batch IH]; intros st Hcov; [exact Hcov|].
  rewrite for_each_cons by apply total_caught. apply IH.
  pose proof (covered_transform_report extensionMap report st Hcov) as H.
  unfold try_catch.
  destruct (transform_report extensionMap report st) as [st' [[]|]];
    exact H.
Qed.

(** X20. Whatever the reports of a batch hold, every related row that
    [processBatch] stages (extension, limits, core and extended rows)
    carries the report id of a device row staged for the same batch: a
    report whose device row cannot be built leaves no related row
    behind. *)
Theorem processBatch_transform_covered extensionMap batch errors :
  covered (fst (processBatch_transform extensionMap batch
                  (mkStaged [] [] [] [] [] [] [] errors))).
Proof.
  apply covered_processBatch. unfold covered, related_ids. cbn.
  repeat constructor.
Qed.

(** *** Counting *)

Lemma result_free_ret {A} (a : A) : result_free (ret a).
Proof. intros st st'. reflexivity. Qed.

Lemma result_free_lift {A} (r : Result A) : result_free (lift r).
Proof. intros st st'. reflexivity. Qed.

Lemma result_free_bind {A B} (m : M A) (k : A -> M B) :
  result_free m -> (forall a, result_free (k a)) -> result_free (bind m k).
Proof.
  intros Hm Hk st st'. unfold bind. specialize (Hm st st').
  destruct (m st) as [s1 [a|]], (m st') as [s2 [a'|]]; cbn [snd] in *;
    try discriminate; [|reflexivity].
  injection Hm as <-. apply Hk.
Qed.

Lemma result_free_when (b : bool) (m : M unit) :
  result_free m -> result_free (when b m).
Proof. destruct b; [trivial | intros _; apply result_free_ret]. Qed.

Lemma result_free_for_each {A} (items : list A) (body : A -> M unit) :
  (forall x, result_free (body x)) -> result_free (for_each items body).
Proof.
  intros Hbody. induction items as [|x items IH]; cbn [for_each].
  - apply result_free_ret.
  - apply result_free_bind; [apply Hbody | intros _; exact IH].
Qed.

Lemma result_free_push_device r : result_free (push_device r).
Proof. intros st st'. reflexivity. Qed.

Lemma result_free_push_deviceExt r : result_free (push_deviceExt r).
Proof. intros st st'. reflexivity. Qed.

Lemma result_free_push_limits r : result_free (push_limits r).
Proof. intros st st'. reflexivity. Qed.

Lemma result_free_push_coreFeatures r : result_free (push_coreFeatures r).
Proof. intros st st'. reflexivity. Qed.

Lemma result_free_push_coreProps r : result_free (push_coreProps r).
Proof. intros st st'. reflexivity. Qed.

Lemma result_free_push_extFeatures r : result_free (push_extFeatures r).
Proof. intros st st'. reflexivity. Qed.

Lemma result_free_push_extProps r : result_free (push_extProps r).
Proof. intros st st'. reflexivity. Qed.

Create HintDb result_free.

#[local] Hint Resolve result_free_ret result_free_lift result_free_push_device
  result_free_push_deviceExt result_free_push_limits
  result_free_push_coreFeatures result_free_push_coreProps
  result_free_push_extFeatures result_free_push_extProps : result_free.

Ltac result_free_tac :=
  repeat first
    [ apply result_free_bind; [|intros ?]
    | apply result_free_when
    | apply result_free_for_each; intros ?
    | solve [auto with result_free] ].

Lemma result_free_transform_report extensionMap report :
  result_free (transform_report extensionMap report).
Proof.
  unfold transform_report, stage_extensions, stage_limits, stage_core,
    stage_extended.
  result_free_tac.
Qed.

Lemma throws_spec extensionMap report st :
  snd (transform_report extensionMap report st) =
  if throws extensionMap report then Throw else Ok tt.
Proof.
  unfold throws.
  rewrite (result_free_transform_report extensionMap report st empty_staged).
  now destruct (snd (transform_report extensionMap report empty_staged))
    as [[]|].
Qed.

Lemma no_device_row_throws extensionMap report :
  has_device_row report = false -> throws extensionMap report = true.
Proof.
  unfold has_device_row, throws. destruct (device_row report) eqn:Hd;
    [discriminate|].
  now rewrite transform_report_device_throws.
Qed.

Lemma try_report_counts extensionMap report st :
  let st' := fst (try_catch (transform_report extensionMap report)
                    count_error st) in
  totalErrors st' =
    (totalErrors st + if throws extensionMap report then 1 else 0)%nat /\
  length (deviceValues st') =
    (length (deviceValues st) + if has_device_row report then 1 else 0)%nat.
Proof.
  pose proof (transform_report_shape extensionMap report st) as Hshape.
  pose proof (throws_spec extensionMap report st) as Hthrow.
  unfold try_catch, has_device_row.
  destruct (transform_report extensionMap report st) as [st1 r].
  cbn [fst snd] in *. subst r.
  assert (H1 : totalErrors st1 = totalErrors st /\
               length (deviceValues st1) =
               (length (deviceValues st) +
                if has_device_row report then 1 else 0)%nat).
  { unfold has_device_row. destruct (device_row report) as [d|].
    - destruct Hshape as (-> & -> & _). cbn. rewrite length_app. cbn. lia.
    - subst st1. lia. }
  unfold has_device_row in H1.
  destruct (throws extensionMap report); cbn; lia.
Qed.

Lemma processBatch_counts extensionMap batch st :
  let st' := fst (processBatch_transform extensionMap batch st) in
  totalErrors st' = (totalErrors st + count (throws extensionMap) batch)%nat /\
  length (deviceValues st') =
    (length (deviceValues st) + count has_device_row batch)%nat.
Proof.
  unfold processBatch_transform, count. revert st.
  induction batch as [|report batch IH]; intros st; [cbn; lia|].
  rewrite for_each_cons by apply total_caught.
  destruct (try_report_counts extensionMap report st) as [He Hd].
  destruct (IH (fst (try_catch (transform_report extensionMap report)
                       count_error st))) as [He' Hd'].
  cbn zeta. rewrite He', Hd', He, Hd. cbn [List.filter].
  destruct (throws extensionMap report), (has_device_row report);
    cbn [length]; lia.
Qed.

(** X21. After the transformation loop of [processBatch], [totalErrors]
    has grown by the number of reports whose transformation throws, and
    [deviceValues] holds one row for each report whose device row can be
    built; whether a report throws does not depend on the other reports
    of the batch. *)
Theorem processBatch_transform_counts extensionMap batch errors :
  let st' := fst (processBatch_transform extensionMap batch
                    (mkStaged [] [] [] [] [] [] [] errors)) in
  totalErrors st' = (errors + count (throws extensionMap) batch)%nat /\
  length (deviceValues st') = count has_device_row batch /\
  forall report st,
    snd (transform_report extensionMap report st) =
    if throws extensionMap report then Throw else Ok tt.
Proof.
  destruct (processBatch_counts extensionMap batch
              (mkStaged [] [] [] [] [] [] [] errors)) as [He Hd].
  intros st'. split_conj; [exact He | exact Hd | apply throws_spec].
Qed.

Lemma count_late extensionMap batch :
  (count (throws extensionMap) batch + count has_device_row batch =
   length batch + count (throws_late extensionMap) batch)%nat.
Proof.
  unfold count, throws_late.
  induction batch as [|report batch IH]; [reflexivity|]. cbn [List.filter].
  pose proof (no_device_row_throws extensionMap report) as Hno.
  destruct (has_device_row report), (throws extensionMap report);
    cbn [andb length]; first [lia | discriminate (Hno eq_refl)].
Qed.

Lemma count_late_le extensionMap batch :
  (count (throws_late extensionMap) batch <= count has_device_row batch)%nat.
Proof.
  unfold count, throws_late.
  induction batch as [|report batch IH]; [reflexivity|]. cbn [List.filter].
  destruct (has_device_row report), (throws extensionMap report);
    cbn [andb length]; lia.
Qed.

Lemma covered_no_device st :
  covered st -> deviceValues st = [] ->
  insertRelated ∅ st = Some (mkRelated [] [] [] [] [] []).
Proof.
  unfold covered, related_ids. intros Hcov Hdv. rewrite Hdv in Hcov.
  assert (Hnil : forall {A} (f : A -> JSON) (l : list A),
            Forall (fun rid => In rid []) (map f l) -> l = []).
  { intros A f [|x l] H; [reflexivity|]. inversion H as [|? ? []]. }
  repeat match goal with
         | H : Forall _ (_ :: _) |- _ =>
             let H1 := fresh in let H2 := fresh in
             apply List.Forall_cons_iff in H as [H1 H2]; apply Hnil in H1
         end.
  unfold insertRelated.
  repeat match goal with H : _ = [] |- _ => rewrite H; clear H end.
  reflexivity.
Qed.

(** X22. When the device insert of [processBatch] fails, [totalErrors] is
    raised by the number of device rows staged, on top of the errors
    counted by the transformation loop: it grows by the number of reports
    of the batch plus the number of reports whose transformation threw
    after their device row was staged, which are counted twice; nothing is
    imported, and no related insert is made.  (When no device row was
    staged the insert is not attempted.) *)
Theorem processBatch_insert_failure extensionMap insert batch imported errors :
  insert (deviceValues
            (fst (processBatch_transform extensionMap batch
                    (mkStaged [] [] [] [] [] [] [] errors)))) = InsertError ->
  processBatch extensionMap insert batch imported errors =
  Some (if (count has_device_row batch =? 0)%nat
        then Stored imported (errors + length batch)
               (mkRelated [] [] [] [] [] [])
        else InsertFailed imported
               (errors + length batch
                + count (throws_late extensionMap) batch)).
Proof.
  intros Hfail. unfold processBatch, processBatch_store.
  set (st := fst (processBatch_transform extensionMap batch _)) in *.
  destruct (processBatch_counts extensionMap batch
              (mkStaged [] [] [] [] [] [] [] errors)) as [He Hd].
  fold st in He, Hd. cbn [totalErrors deviceValues length Nat.add] in He, Hd.
  pose proof (count_late extensionMap batch) as Hlate.
  pose proof (count_late_le extensionMap batch) as Hle.
  destruct (deviceValues st) as [|dv dvs] eqn:Hdv.
  - cbn [length] in Hd. rewrite <- Hd. cbn [Nat.eqb].
    rewrite (covered_no_device st); [| |exact Hdv].
    2:{ apply covered_processBatch. unfold covered, related_ids. cbn.
        repeat constructor. }
    cbn [option_map]. do 2 f_equal. lia.
  - rewrite Hfail. cbn [length] in Hd. rewrite <- Hd. cbn [Nat.eqb].
    do 2 f_equal. cbn [length]. lia.
Qed.
(** X19, witness: three reports; the device insert returns the rows of the
    first two (the third conflicted), and the second has the report id 0:
    only the limits row of the first is sent on. *)
Lemma processBatch_store_sends_witness :
  let good n := obj [("_report_id", JNum n); ("properties", obj []);
                     ("environment", obj [])] in
  let st := fst (processBatch_transform ∅ [good 7; good 0; good 9]
                   empty_staged) in
  let insert := fun _ : list DeviceRow =>
                  Inserted [(101, Some 7); (102, Some 0)] in
  exists rel,
    processBatch_store insert st 10 = Some (Stored 12 0 rel) /\
    map (map fst) (r_limits rel) = [[101]] /\
    exists deviceResults,
      (deviceValues st = [] /\ deviceResults = [] \/
       insert (deviceValues st) = Inserted deviceResults) /\
      12 = 10 + Z.of_nat (length deviceResults) /\
      0%nat = totalErrors st /\
      sent x_reportId deviceResults (deviceExtValues st) (r_extensions rel) /\
      sent l_reportId deviceResults (deviceLimitsValues st) (r_limits rel) /\
      sent c_reportId deviceResults (coreFeaturesValues st) (r_coreFeatures rel) /\
      sent c_reportId deviceResults (corePropsValues st) (r_coreProps rel) /\
      sent e_reportId deviceResults (extFeaturesValues st) (r_extFeatures rel) /\
      sent e_reportId deviceResults (extPropsValues st) (r_extProps rel).
Proof.
  intros good st insert.
  assert (H : exists rel,
            processBatch_store insert st 10 = Some (Stored 12 0 rel) /\
            map (map fst) (r_limits rel) = [[101]]).
  { eexists. split; vm_compute; reflexivity. }
  destruct H as (rel & H & Hlim). exists rel.
  split; [exact H|]. split; [exact Hlim|].
  exact (processBatch_store_sends insert st 10 12 0 rel H).
Defined.

(** X22, witness: a report that is fine and one whose [extensions] is an
    object, which throws after its device row was staged; the device
    insert fails: three errors for two reports. *)
Lemma processBatch_insert_failure_witness :
  let good := obj [("_report_id", JNum 7); ("properties", obj []);
                   ("environment", obj [])] in
  let bad := obj [("_report_id", JNum 8); ("properties", obj []);
                  ("environment", obj []); ("extensions", obj [])] in
  count (throws_late ∅) [good; bad] = 1%nat /\
  processBatch ∅ (fun _ => InsertError) [good; bad] 0 0 =
  Some (if (count has_device_row [good; bad] =? 0)%nat
        then Stored 0 (0 + length [good; bad]) (mkRelated [] [] [] [] [] [])
        else InsertFailed 0
               (0 + length [good; bad] + count (throws_late ∅) [good; bad])).
Proof.
  intros good bad. split; [vm_compute; reflexivity|].
  exact (processBatch_insert_failure ∅ (fun _ => InsertError) [good; bad] 0 0
           eq_refl).
Defined.
End DeviceStoreFacts.

(** * Which reports count as errors *)

Module ReportShapeFacts.
Import JsString DeviceImporter DeviceImporterFacts DeviceStore DeviceStoreFacts
  ReportShape.

Lemma prop_field v k : nullish v = false -> prop v k = Ok (field v k).
Proof. destruct v; cbn; congruence. Qed.

Lemma prop_nullish {v} k : nullish v = true -> prop v k = Throw.
Proof. destruct v; cbn; congruence. Qed.

Lemma sanitize_result v :
  match sanitize v with Ok _ => true | Throw => false end = sanitizable v.
Proof.
  unfold sanitize, sanitizable. destruct v as [| |[]|n|[]| |]; cbn;
    try reflexivity.
  now destruct (n =? 0).
Qed.

Lemma sanitize_throws v : sanitizable v = false -> sanitize v = Throw.
Proof.
  intros H. rewrite <- sanitize_result in H. now destruct (sanitize v).
Qed.

Lemma sanitize_ok v : sanitizable v = true -> exists s, sanitize v = Ok s.
Proof.
  intros H. rewrite <- sanitize_result in H. destruct (sanitize v); eauto.
  discriminate.
Qed.

Lemma has_device_row_spec report :
  has_device_row report = device_accepted report.
Proof.
  unfold has_device_row, device_accepted, device_row.
  destruct (nullish report) eqn:Hr;
    [now rewrite (prop_nullish "_report_id" Hr)|].
  rewrite !(prop_field report) by assumption. cbn [rbind negb andb].
  destruct (nullish (field report "properties")) eqn:Hp;
    [now rewrite (prop_nullish "deviceName" Hp)|].
  rewrite !(prop_field (field report "properties")) by assumption.
  cbn [rbind negb andb].
  repeat match goal with
         | |- context [sanitize ?v] =>
             let H := fresh in
             destruct (sanitizable v) eqn:H;
             [destruct (sanitize_ok v H) as [? ->]
             |rewrite (sanitize_throws v H); cbn [rbind andb];
              rewrite ?andb_false_r; reflexivity];
             cbn [rbind andb]
         | |- context [prop (field report "environment") ?k] =>
             let H := fresh in
             destruct (nullish (field report "environment")) eqn:H;
             [rewrite (prop_nullish k H); cbn [rbind negb andb];
              rewrite ?andb_false_r; reflexivity
             |rewrite !(prop_field (field report "environment")) by assumption];
             cbn [rbind negb andb]
         end.
  reflexivity.
Qed.

Lemma for_each_result {A} (f : A -> bool) items (body : A -> M unit) :
  (forall x st, snd (body x st) = if f x then Ok tt else Throw) ->
  forall st, snd (for_each items body st) =
             if forallb f items then Ok tt else Throw.
Proof.
  intros Hbody. induction items as [|x items IH]; intros st;
    cbn [for_each forallb]; [reflexivity|].
  unfold bind. specialize (Hbody x st).
  destruct (body x st) as [st' [[]|]]; cbn [snd] in Hbody;
    destruct (f x); try discriminate; cbn [andb snd]; [apply IH | reflexivity].
Qed.

Lemma forallb_true {A} (l : list A) : forallb (fun _ => true) l = true.
Proof. induction l; cbn; auto. Qed.

Lemma forallb_strings (l : list jsstring) :
  forallb (fun x => negb (nullish x)) (map JStr l) = true.
Proof. induction l; cbn; auto. Qed.

Lemma stage_extensions_result extensionMap report rid st :
  nullish report = false ->
  snd (stage_extensions extensionMap report rid st) =
  if elements_ok (field report "extensions") then Ok tt else Throw.
Proof.
  intros Hr. unfold stage_extensions. unfold bind at 1, lift at 1.
  rewrite (prop_field report) by assumption.
  assert (Hbody : forall x st0,
            snd ((extName <- lift (prop x "extensionName") ;;
                  when (truthy_id (map_get extensionMap extName))
                    (specVersion <- lift (prop x "specVersion") ;;
                     push_deviceExt
                       (mkDeviceExtRow rid
                          (default 0 (map_get extensionMap extName))
                          specVersion))) st0) =
            if negb (nullish x) then Ok tt else Throw).
  { intros x st0. unfold bind at 1, lift at 1.
    destruct (nullish x) eqn:Hx; [now rewrite (prop_nullish _ Hx)|].
    rewrite (prop_field x) by assumption.
    destruct (truthy_id _); cbn [when negb]; [|reflexivity].
    unfold bind, lift. now rewrite (prop_field x) by assumption. }
  destruct (field report "extensions") as [| |[]|n|s|items|fields];
    cbn [truthy when elements_ok negb orb]; try reflexivity.
  - unfold elements_ok. cbn [truthy]. destruct (n =? 0); reflexivity.
  - destruct s as [|c s]; [reflexivity|].
    cbn [truthy when elements_ok negb orb].
    unfold bind at 1, lift at 1. cbn [iterate].
    rewrite (for_each_result (fun x => negb (nullish x))) by exact Hbody.
    now rewrite forallb_strings.
  - unfold bind at 1, lift at 1. cbn [iterate].
    now rewrite (for_each_result (fun x => negb (nullish x))) by exact Hbody.
Qed.

Lemma stage_extended_result report rid key payload push st :
  nullish report = false ->
  (forall r st0, snd (push r st0) = Ok tt) ->
  snd (stage_extended report rid key payload push st) =
  if elements_ok (opt_prop (field report "extended") key)
  then Ok tt else Throw.
Proof.
  intros Hr Hpush. unfold stage_extended. unfold bind at 1, lift at 1.
  rewrite (prop_field report) by assumption.
  assert (Hbody : forall x st0,
            snd ((extension <- lift (prop x "extension") ;;
                  fname <- lift (prop x "name") ;;
                  value <- lift (prop x payload) ;;
                  push (mkExtendedRow rid extension fname value)) st0) =
            if negb (nullish x) then Ok tt else Throw).
  { intros x st0. unfold bind at 1, lift at 1.
    destruct (nullish x) eqn:Hx; [now rewrite (prop_nullish _ Hx)|].
    unfold bind, lift. rewrite !(prop_field x) by assumption. apply Hpush. }
  destruct (opt_prop (field report "extended") key)
    as [| |[]|n|s|items|fields];
    cbn [truthy when elements_ok negb orb]; try reflexivity.
  - unfold elements_ok. cbn [truthy]. destruct (n =? 0); reflexivity.
  - destruct s as [|c s]; [reflexivity|].
    cbn [truthy when elements_ok negb orb].
    unfold bind at 1, lift at 1. cbn [iterate].
    rewrite (for_each_result (fun x => negb (nullish x))) by exact Hbody.
    now rewrite forallb_strings.
  - unfold bind at 1, lift at 1. cbn [iterate].
    now rewrite (for_each_result (fun x => negb (nullish x))) by exact Hbody.
Qed.

Lemma stage_limits_result props rid st :
  nullish props = false -> snd (stage_limits props rid st) = Ok tt.
Proof.
  intros Hp. unfold stage_limits, bind, lift.
  now rewrite !(prop_field props) by assumption.
Qed.

Lemma stage_core_result report rid st :
  nullish report = false -> snd (stage_core report rid st) = Ok tt.
Proof.
  intros Hr. unfold stage_core.
  rewrite (for_each_result (fun _ => true)); [now rewrite forallb_true|].
  intros v st0. unfold bind at 1, lift at 1.
  rewrite (prop_field report) by assumption.
  unfold bind. destruct (truthy _), (truthy _); reflexivity.
Qed.

Lemma seq_result (m k : M unit) (c d : bool) st :
  (forall st0, snd (m st0) = if c then Ok tt else Throw) ->
  (forall st0, snd (k st0) = if d then Ok tt else Throw) ->
  snd ((m ;;; k) st) = if c && d then Ok tt else Throw.
Proof.
  intros Hm Hk. unfold bind. specialize (Hm st).
  destruct (m st) as [st' [[]|]]; cbn [snd] in Hm; destruct c;
    try discriminate; cbn [andb snd]; [apply Hk | reflexivity].
Qed.

Lemma throws_accepted extensionMap report :
  throws extensionMap report = negb (accepted report).
Proof.
  unfold throws.
  pose proof (has_device_row_spec report) as Hdev.
  unfold has_device_row in Hdev.
  unfold transform_report. unfold bind at 1, lift at 1.
  destruct (device_row report) as [d|] eqn:Hd.
  - assert (Hacc : accepted report =
              elements_ok (field report "extensions") &&
              elements_ok (opt_prop (field report "extended") "devicefeatures2") &&
              elements_ok (opt_prop (field report "extended") "deviceproperties2")).
    { unfold accepted. unfold device_accepted in Hdev. cbv zeta in *.
      now rewrite <- Hdev. }
    assert (Hr : nullish report = false).
    { unfold device_accepted in Hdev. destruct (nullish report);
        [discriminate | reflexivity]. }
    assert (Hp : nullish (field report "properties") = false).
    { unfold device_accepted in Hdev. cbv zeta in Hdev. rewrite Hr in Hdev.
      destruct (nullish (field report "properties"));
        [discriminate | reflexivity]. }
    unfold bind at 1. cbn [push_device fst snd].
    set (st1 := mkStaged _ _ _ _ _ _ _ _).
    unfold bind at 1, lift at 1. rewrite (prop_field report) by assumption.
    unfold bind at 1, lift at 1. rewrite (prop_field report) by assumption.
    rewrite (seq_result _ _ (elements_ok (field report "extensions"))
               (elements_ok (opt_prop (field report "extended") "devicefeatures2")
                && elements_ok (opt_prop (field report "extended")
                                  "deviceproperties2"))).
    + rewrite Hacc.
      now destruct (elements_ok (field report "extensions")),
        (elements_ok (opt_prop (field report "extended") "devicefeatures2")),
        (elements_ok (opt_prop (field report "extended") "deviceproperties2")).
    + intros st0. now apply stage_extensions_result.
    + intros st0.
      rewrite (seq_result _ _ true
                 (elements_ok (opt_prop (field report "extended") "devicefeatures2")
                  && elements_ok (opt_prop (field report "extended")
                                    "deviceproperties2"))); [reflexivity | |].
      * intros st2. now apply stage_limits_result.
      * intros st2.
        rewrite (seq_result _ _ true
                   (elements_ok (opt_prop (field report "extended") "devicefeatures2")
                    && elements_ok (opt_prop (field report "extended")
                                      "deviceproperties2"))); [reflexivity | |].
        -- intros st3. now apply stage_core_result.
        -- intros st3. apply seq_result; intros st4;
             now apply stage_extended_result.
  - cbn [snd]. unfold accepted. unfold device_accepted in Hdev.
    cbv zeta in *. now rewrite <- Hdev.
Qed.

(** X23. [processBatch] counts a report as an error exactly when it is not
    [accepted]: when the report, its [properties] or its [environment] is
    [null] or [undefined], when one of the eight text fields is truthy and
    not a string, or when [extensions], [extended.devicefeatures2] or
    [extended.deviceproperties2] is truthy and neither a string nor an
    array without [null] and [undefined] elements.  Nothing else makes the
    transformation throw, and the extension map plays no part. *)
Theorem transform_report_throws_iff extensionMap report st :
  snd (transform_report extensionMap report st) =
  if accepted report then Ok tt else Throw.
Proof.
  rewrite throws_spec, throws_accepted. now destruct (accepted report).
Qed.
End ReportShapeFacts.

(** * The device import as a whole *)

Module ImportDevicesFacts.
Import JsString Chunk StreamJsonArray StreamJsonArraySpec StreamMore
  DeviceImporter DeviceImporterFacts DeviceStore DeviceStoreFacts ImportDevices.

Lemma full_batches_bound {T E} (s : State T E) :
  0 < batchSize s -> full_batches s ->
  Forall (fun b => Z.of_nat (length b) <= batchSize s) (dispatched s).
Proof.
  intros Hsize Hfull. unfold full_batches in Hfull.
  assert (Hle : groups_ok (batchSize s) (dispatched s) ->
                Forall (fun b => Z.of_nat (length b) <= batchSize s)
                  (dispatched s)).
  { intros [_ Hall]. eapply List.Forall_impl; [|exact Hall].
    now intros b [_ Hb]. }
  destruct (ended s); try (now apply Hle).
  destruct Hfull as [Hall _]. eapply List.Forall_impl; [|exact Hall].
  intros b Hb. cbn beta in Hb. lia.
Qed.

(** X24. However the stream of [device_reports.json] and the settlements
    interleave, every batch handed to [processBatch] holds at most
    [DEVICE_BATCH_SIZE] reports, so the device insert of a batch never
    proposes more than [DEVICE_BATCH_SIZE] rows. *)
Theorem importDevices_insert_sizes (items : list JSON) evs
    (s : State JSON string) :
  run evs (streamJsonArray items DEVICE_BATCH_SIZE) = Some s ->
  Forall (fun batch =>
            Z.of_nat (length batch) <= DEVICE_BATCH_SIZE /\
            forall extensionMap errors,
              Z.of_nat (length (deviceValues
                                  (staged_of extensionMap batch errors)))
              <= DEVICE_BATCH_SIZE)
    (dispatched s).
Proof.
  intros Hrun.
  assert (Hfull : full_batches s).
  { apply (full_batches_run evs (streamJsonArray items DEVICE_BATCH_SIZE));
      [|assumption].
    split; [constructor | cbn; reflexivity]. }
  pose proof (run_batchSize evs _ s Hrun) as Hbs. cbn in Hbs.
  pose proof (full_batches_bound s) as Hbound. rewrite Hbs in Hbound.
  specialize (Hbound eq_refl Hfull).
  eapply List.Forall_impl; [|exact Hbound]. intros batch Hb. cbn beta in Hb.
  split; [assumption|]. intros extensionMap errors. unfold staged_of.
  destruct (processBatch_counts extensionMap batch
              (mkStaged [] [] [] [] [] [] [] errors)) as [_ Hd].
  cbn zeta in Hd. rewrite Hd. cbn [deviceValues length Nat.add].
  pose proof (List.filter_length_le has_device_row batch) as Hle.
  unfold count. lia.
Qed.

(** X24, witness: two reports, read to the end. *)
Lemma importDevices_insert_sizes_witness :
  exists s : State JSON string,
    run [Data; Data; End_]
      (streamJsonArray [JNum 1; obj [("_report_id", JNum 7)]]
         DEVICE_BATCH_SIZE) = Some s /\
    Forall (fun batch =>
              Z.of_nat (length batch) <= DEVICE_BATCH_SIZE /\
              forall extensionMap errors,
                Z.of_nat (length (deviceValues
                                    (staged_of extensionMap batch errors)))
                <= DEVICE_BATCH_SIZE)
      (dispatched s).
Proof.
  stream_run s Hrun. exists s. split; [reflexivity|].
  exact (importDevices_insert_sizes _ _ s Hrun).
Defined.

(** *** The extension ids staged *)

Lemma keeps_ret {A} P (a : A) : keeps P (ret a).
Proof. intros st H. exact H. Qed.

Lemma keeps_lift {A} P (r : Result A) : keeps P (lift r).
Proof. intros st H. exact H. Qed.

Lemma keeps_bind {A B} P (m : M A) (k : A -> M B) :
  keeps P m -> (forall a, keeps P (k a)) -> keeps P (bind m k).
Proof.
  intros Hm Hk st H. unfold bind. specialize (Hm st H).
  destruct (m st) as [st' [a|]]; cbn [fst] in *; [now apply Hk | assumption].
Qed.

Lemma keeps_when P (b : bool) (m : M unit) :
  (b = true -> keeps P m) -> keeps P (when b m).
Proof. destruct b; [auto | intros _; apply keeps_ret]. Qed.

Lemma keeps_for_each {A} P (items : list A) (body : A -> M unit) :
  (forall x, keeps P (body x)) -> keeps P (for_each items body).
Proof.
  intros Hbody. induction items as [|x items IH]; cbn [for_each].
  - apply keeps_ret.
  - apply keeps_bind; [apply Hbody | intros _; exact IH].
Qed.

Lemma keeps_try P (m : M unit) :
  keeps P m -> keeps P count_error -> keeps P (try_catch m count_error).
Proof.
  intros Hm Hc st H. unfold try_catch. specialize (Hm st H).
  destruct (m st) as [st' [[]|]]; cbn [fst] in *; [assumption | now apply Hc].
Qed.

Lemma keeps_same {A} (Q : list DeviceExtRow -> Prop) (m : M A) :
  (forall st, deviceExtValues (fst (m st)) = deviceExtValues st) ->
  keeps (fun st => Q (deviceExtValues st)) m.
Proof. intros Hsame st H. now rewrite Hsame. Qed.

Lemma known_stage_extensions extensionMap report rid :
  keeps (fun st => Forall (known_extension extensionMap) (deviceExtValues st))
    (stage_extensions extensionMap report rid).
Proof.
  unfold stage_extensions.
  apply keeps_bind; [apply keeps_lift|]. intros exts.
  apply keeps_when. intros _.
  apply keeps_bind; [apply keeps_lift|]. intros items.
  apply keeps_for_each. intros ext.
  apply keeps_bind; [apply keeps_lift|]. intros extName.
  apply keeps_when. intros Hid.
  apply keeps_bind; [apply keeps_lift|]. intros specVersion st Hst.
  cbn. apply Forall_app. split; [assumption|]. constructor; [|constructor].
  unfold known_extension. cbn [x_extensionId].
  unfold map_get, truthy_id in *.
  destruct extName; try discriminate.
  destruct (extensionMap !! s) as [n|] eqn:Hn; [|discriminate].
  cbn [default]. split; [|eauto].
  unfold id. intros ->. discriminate.
Qed.

Lemma known_transform_report extensionMap report :
  keeps (fun st => Forall (known_extension extensionMap) (deviceExtValues st))
    (transform_report extensionMap report).
Proof.
  unfold transform_report, stage_limits, stage_core, stage_extended.
  repeat first
    [ apply known_stage_extensions
    | apply keeps_bind; [|intros ?]
    | apply keeps_when; intros _
    | apply keeps_for_each; intros ?
    | apply keeps_lift
    | apply keeps_ret
    | apply keeps_same; intros ?; reflexivity ].
Qed.

(** X25. Every device-extension row that [processBatch] stages carries an
    extension id that the extension map holds for some name, and never
    the id 0: an extension of a report that the map does not know, or
    knows under the id 0, is skipped without an error. *)
Theorem processBatch_transform_known_extensions extensionMap batch errors :
  Forall (known_extension extensionMap)
    (deviceExtValues (staged_of extensionMap batch errors)).
Proof.
  unfold staged_of, processBatch_transform.
  apply (keeps_for_each
           (fun st => Forall (known_extension extensionMap)
                        (deviceExtValues st))); [|constructor].
  intros report. apply keeps_try; [apply known_transform_report|].
  now intros st H.
Qed.
End ImportDevicesFacts.
